(** * bankacct: option collector, account resolver and action engine

    A shallow embedding of [bankacct.h] / [bankacct.cpp] and the properties
    of the command-option model, the account store and its flat-file
    persistence.

    Conventions of the embedding
    - a C string ([char*], [char[]]) is a [string]; the null pointer is [None];
    - [std::map<char, vector<char*>>] is an association list kept in key
      order, because the engine iterates over it and the order is observable;
      keys are compared as [char] values, and [char] is signed;
    - what the library and the system decide is part of the [world] of a
      run: which files open, and where [std::sort] leaves accounts whose
      numbers are equal;
    - an [Account*] into the [people] vector is an index; the vector is never
      resized after loading, so indices are stable;
    - [double] is IEEE-754 binary64, as [spec_float] with 53/1024;
    - behaviour the C++ standard leaves undefined (a write through a pointer
      that addresses no account, a copy past the end of a field buffer) is
      the explicit result [Undefined]. *)

From Stdlib Require Import Bool Arith ZArith List Lia Ascii String Permutation Sorted.
From Stdlib Require Import Floats.SpecFloat Numbers.DecimalString.
From Stdlib Require Import Numbers.DecimalPos Numbers.DecimalN.
Import ListNotations.

Local Open Scope string_scope.
Local Open Scope Z_scope.
Local Open Scope list_scope.

(** ** Constants of [bankacct.h] *)

Definition FIRST_NAME_LENGTH : nat := 50.
Definition LAST_NAME_LENGTH : nat := 50.
Definition ACC_NUM_LENGTH : nat := 5.
Definition PASS_LENGTH : nat := 6.

Definition SLASH : ascii := "/".

Definition O_HELP : ascii := "?".
Definition O_DATA : ascii := "D".
Definition O_CHANGE_AREA : ascii := "A".
Definition O_CHANGE_F : ascii := "F".
Definition O_CHANGE_PHONE : ascii := "H".
Definition O_CHANGE_L : ascii := "L".
Definition O_CHANGE_M : ascii := "M".
Definition O_CHANGE_SSN : ascii := "S".
Definition O_TRANS : ascii := "T".
Definition O_NEWPASS : ascii := "W".
Definition O_INFO : ascii := "I".
Definition O_REPORT : ascii := "R".
Definition O_NUM : ascii := "N".
Definition O_PASS : ascii := "P".

Definition ERR_NO_DB : Z := 1.
Definition ERR_DB_NOT_FOUND : Z := 2.
Definition ERR_NO_ACCOUNT : Z := 3.
Definition ERR_NO_INFO : Z := 4.
Definition ERR_REPORT_FILE_ERR : Z := 5.
Definition ERR_NO_TRANSFER_ACCOUNT : Z := 6.
Definition ERR_TOO_MUCH_TRANSFER : Z := 7.

(** ** Characters and C library helpers *)

Module CLib.

Definition code (c : ascii) : nat := nat_of_ascii c.

(** The value of a [char].  Plain [char] is a signed type on the platform
    of the embedding (x86-64): the bytes from 128 on are the values -128 to
    -1.  [strcmp] and the [<cctype>] tests work on [code], the value as
    [unsigned char]. *)
Definition char_value (c : ascii) : Z :=
  if (code c <? 128)%nat then Z.of_nat (code c) else Z.of_nat (code c) - 256.

Definition in_range (lo hi c : ascii) : bool :=
  (code lo <=? code c)%nat && (code c <=? code hi)%nat.

Definition isdigit (c : ascii) : bool := in_range "0" "9" c.

Definition isalpha (c : ascii) : bool := in_range "A" "Z" c || in_range "a" "z" c.

(** [isspace] in the "C" locale: space, \t, \n, \v, \f, \r. *)
Definition isspace (c : ascii) : bool :=
  (code c =? 32)%nat || ((9 <=? code c)%nat && (code c <=? 13)%nat).

Definition digit_val (c : ascii) : Z := Z.of_nat (code c) - 48.

(** The run of decimal digits at the head of [s], accumulated in base 10. *)
Fixpoint digits_value (s : string) (acc : Z) : Z :=
  match s with
  | String c r => if isdigit c then digits_value r (10 * acc + digit_val c) else acc
  | EmptyString => acc
  end.

Fixpoint skip_space (s : string) : string :=
  match s with
  | String c r => if isspace c then skip_space r else s
  | EmptyString => s
  end.

(** [atoi]: leading white space, an optional sign, then the leading digits;
    anything else ends the number.  The value is the mathematical one: every
    call site below passes a string that a field pattern has already limited
    to at most nine digits, so the [int] range is never left. *)
Definition atoi (s : string) : Z :=
  match skip_space s with
  | String "-" r => - digits_value r 0
  | String "+" r => digits_value r 0
  | t => digits_value t 0
  end.

(** Conversion of an [int] to [unsigned int] on assignment. *)
Definition to_unsigned (z : Z) : Z := z mod 2 ^ 32.

End CLib.

(** ** The field patterns

    Every pattern of the header has the shape [^ class quantifier $] and is
    used with [regex_match], which must match the whole string.  [\d] is the
    ECMAScript digit class.  A class written in brackets lists its members,
    single characters or ranges.  [R_NAME] is ["^[:alpha:]*$"]: its one pair
    of brackets encloses the seven characters [:alpha:], so the class the
    regex denotes is the set of [:], [a], [l], [p] and [h] (the POSIX class
    of letters would need a second pair of brackets). *)

Module Regex.
Import CLib.

Inductive bracket_item : Type :=
| Bchar (c : ascii)
| Brange (lo hi : ascii).

Inductive char_class : Type :=
| Cdigit
| Cbracket (items : list bracket_item).

Inductive quantifier : Type :=
| Qstar
| Qexactly (n : nat).

Record regex : Type := Anchored { re_class : char_class; re_quant : quantifier }.

Definition item_has (c : ascii) (i : bracket_item) : bool :=
  match i with
  | Bchar d => Ascii.eqb d c
  | Brange lo hi => in_range lo hi c
  end.

Definition class_has (k : char_class) (c : ascii) : bool :=
  match k with
  | Cdigit => isdigit c
  | Cbracket items => existsb (item_has c) items
  end.

Fixpoint all_in (k : char_class) (s : string) : bool :=
  match s with
  | EmptyString => true
  | String c r => class_has k c && all_in k r
  end.

Definition regex_match (s : string) (r : regex) : bool :=
  all_in (re_class r) s &&
  match re_quant r with
  | Qstar => true
  | Qexactly n => (String.length s =? n)%nat
  end.

Definition R_AREA : regex := Anchored Cdigit (Qexactly 3).
Definition R_NAME : regex :=
  Anchored (Cbracket [Bchar ":"; Bchar "a"; Bchar "l"; Bchar "p"; Bchar "h";
                      Bchar "a"; Bchar ":"]) Qstar.
Definition R_PHONE : regex := Anchored Cdigit (Qexactly 7).
Definition R_SSN : regex := Anchored Cdigit (Qexactly 9).
Definition R_PASS : regex :=
  Anchored (Cbracket [Brange "A" "Z"; Brange "0" "9"]) (Qexactly 6).

End Regex.

(** ** The option collector: [sortArgs] and [yankArg] *)

Module Args.
Import CLib.

(** [map<char, vector<char*>>]: entries in increasing key order, no key
    twice.  The keys are compared as [char] values ([std::less<char>]), so a
    byte from 128 on comes before every 7-bit character. *)
Definition argmap : Type := list (ascii * list string).

Definition key_lt (a b : ascii) : bool := char_value a <? char_value b.

(** [args->find(c)]: the vector stored under [c], if the key is present. *)
Fixpoint find (args : argmap) (c : ascii) : option (list string) :=
  match args with
  | [] => None
  | (k, vec) :: rest => if Ascii.eqb k c then Some vec else find rest c
  end.

(** [args->insert(make_pair(c, vec))]: a present key is left as it is. *)
Fixpoint insert (args : argmap) (c : ascii) (vec : list string) : argmap :=
  match args with
  | [] => [(c, vec)]
  | (k, v) :: rest =>
      if key_lt c k then (c, vec) :: (k, v) :: rest
      else if Ascii.eqb k c then (k, v) :: rest
      else (k, v) :: insert rest c vec
  end.

(** An in-place change of the vector [args->at(c)]. *)
Fixpoint update (args : argmap) (c : ascii) (f : list string -> list string) : argmap :=
  match args with
  | [] => []
  | (k, v) :: rest =>
      if Ascii.eqb k c then (k, f v) :: rest else (k, v) :: update rest c f
  end.

Definition keys (args : argmap) : list ascii := map fst args.

(** One turn of the loop of [sortArgs] on [arg = argv[i]]. *)
Definition sortArgs_step (args : argmap) (arg : string) : argmap :=
  match arg with
  | String a0 (String a1 value) =>
      if negb (Ascii.eqb a0 SLASH) then args
      else match find args a1 with
           | None => insert args a1 [value]
           | Some _ => update args a1 (fun vec => vec ++ [value])
           end
  | _ => args
  end.

(** [sortArgs(&args, argc, argv)]; the loop starts at [argv[0]]. *)
Definition sortArgs (args : argmap) (argv : list string) : argmap :=
  fold_left sortArgs_step argv args.

(** [yankArg(args, arg)]: the value returned and the map afterwards. *)
Definition yankArg (args : argmap) (arg : ascii) : option string * argmap :=
  match find args arg with
  | None => (None, args)
  | Some [] => (None, args)
  | Some (re :: _) => (Some re, update args arg (@tl string))
  end.

End Args.

(** ** Strings *)

Module Str.

Notation "a +++ b" := (String.append a b) (at level 60, right associativity).

Definition endl : string := String "010" EmptyString.

(** Trailing ["0"] characters removed. *)
Fixpoint strip_zeros (s : string) : string :=
  match s with
  | EmptyString => EmptyString
  | String c r =>
      match strip_zeros r with
      | EmptyString => if Ascii.eqb c "0" then EmptyString else String c EmptyString
      | r' => String c r'
      end
  end.

Fixpoint repeat_char (c : ascii) (n : nat) : string :=
  match n with
  | O => EmptyString
  | S k => String c (repeat_char c k)
  end.

Fixpoint concat_all (l : list string) : string :=
  match l with
  | [] => EmptyString
  | s :: r => s +++ concat_all r
  end.

End Str.

(** ** [double] and its text forms *)

Module Double.
Import CLib Str.

Definition double : Type := spec_float.

Definition prec : Z := 53.
Definition emax : Z := 1024.

(** Conversion of an [int] to [double] (exact: 32 bits fit in 53). *)
Definition of_int (z : Z) : double := binary_normalize prec emax z 0 false.

Definition add (x y : double) : double := SFadd prec emax x y.
Definition sub (x y : double) : double := SFsub prec emax x y.
Definition ltb (x y : double) : bool := SFltb x y.

(** The decimal [m * 10^e] rounded to the nearest double, ties to even, as
    [strtod] does. *)
Definition of_decimal (neg : bool) (m e : Z) : double :=
  match m with
  | Z0 => S754_zero neg
  | Zneg _ => S754_nan
  | Zpos _ =>
      match e with
      | Zneg p =>
          let '(q, e', l) := SFdiv_core_binary prec emax m 0 (10 ^ Zpos p) 0 in
          binary_round_aux prec emax neg q e' l
      | _ => binary_normalize prec emax (if neg then - (m * 10 ^ e) else m * 10 ^ e) 0 false
      end
  end.

(** [num / den] rounded to an integer, ties to even ([0 <= num], [0 < den]). *)
Definition div_round_even (num den : Z) : Z :=
  let q := num / den in
  match 2 * (num mod den) ?= den with
  | Lt => q
  | Gt => q + 1
  | Eq => if Z.even q then q else q + 1
  end.

(** The decimal exponent [x] of a positive rational: [10^x <= num/den < 10^(x+1)]. *)
Fixpoint exp10_up (fuel : nat) (num den x : Z) : Z :=
  match fuel with
  | O => x
  | S f => if 10 * den <=? num then exp10_up f num (10 * den) (x + 1) else x
  end.

Fixpoint exp10_down (fuel : nat) (num den x : Z) : Z :=
  match fuel with
  | O => x
  | S f => if num <? den then exp10_down f (10 * num) den (x - 1) else x
  end.

Definition exp10 (num den : Z) : Z :=
  let fuel := S (Z.to_nat (Z.log2 num + Z.log2 den)) in
  if den <=? num then exp10_up fuel num den 0 else exp10_down fuel num den 0.

Definition print_uint (z : Z) : string :=
  NilZero.string_of_uint (N.to_uint (Z.to_N z)).

(** [num / den * 10^s] rounded to an integer. *)
Definition scaled (num den s : Z) : Z :=
  if 0 <=? s then div_round_even (num * 10 ^ s) den
  else div_round_even num (den * 10 ^ (- s)).

(** The six significant digits and the decimal exponent that the [%e] style
    would show for [num / den]. *)
Definition sig6 (num den : Z) : Z * Z :=
  let x := exp10 num den in
  let n := scaled num den (5 - x) in
  if n =? 10 ^ 6 then (10 ^ 5, x + 1) else (n, x).

Definition with_point (int_part frac : string) : string :=
  match strip_zeros frac with
  | EmptyString => int_part
  | f => int_part +++ "." +++ f
  end.

Definition exponent_text (x : Z) : string :=
  let a := Z.abs x in
  (if x <? 0 then "-" else "+") +++ (if a <? 10 then "0" else "") +++ print_uint a.

(** [%.6g] of the positive rational [num / den]. *)
Definition general6 (num den : Z) : string :=
  let '(n, x) := sig6 num den in
  let ds := print_uint n in
  if (x <? -4) || (6 <=? x) then
    with_point (substring 0 1 ds) (substring 1 5 ds) +++ "e" +++ exponent_text x
  else if 0 <=? x then
    with_point (substring 0 (Z.to_nat (x + 1)) ds)
               (substring (Z.to_nat (x + 1)) (Z.to_nat (5 - x)) ds)
  else
    with_point "0" (repeat_char "0" (Z.to_nat (- x - 1)) +++ ds).

(** [out << d] on a stream in its initial state: the general format with
    six significant digits. *)
Definition to_text (d : double) : string :=
  match d with
  | S754_zero s => if s then "-0" else "0"
  | S754_infinity s => if s then "-inf" else "inf"
  | S754_nan => "nan"
  | S754_finite s m e =>
      (if s then "-" else "") +++
      (if 0 <=? e then general6 (Zpos m * 2 ^ e) 1 else general6 (Zpos m) (2 ^ (- e)))
  end.

End Double.

(** ** The account store *)

Module Store.
Import CLib Str Double.

Record Account : Type := mkAccount {
  first : string;
  last : string;
  middle : ascii;
  social : Z;
  area : Z;
  phone : Z;
  balance : double;
  number : string;
  password : string;
  nameLength : Z
}.

(** An [Account*]: [None] is [nullptr], [Some i] is the address of element [i] of [people].  An
    index past the end stands for a pointer that addresses no account. *)
Definition ptr : Type := option nat.

(** [findAccount(people, number, password)]. *)
Fixpoint findAccount_from (i : nat) (people : list Account) (number password : string) : ptr :=
  match people with
  | [] => None
  | acc :: rest =>
      if String.eqb (Store.number acc) number && String.eqb (Store.password acc) password
      then Some i
      else findAccount_from (S i) rest number password
  end.

Definition findAccount (people : list Account) (number password : option string) : ptr :=
  match number, password with
  | Some n, Some p => findAccount_from 0 people n p
  | _, _ => None
  end.

(** Field updates, written [acc->field = v] in the source. *)
Definition set_first (v : string) (a : Account) : Account :=
  mkAccount v (last a) (middle a) (social a) (area a) (phone a) (balance a)
            (number a) (password a) (nameLength a).
Definition set_last (v : string) (a : Account) : Account :=
  mkAccount (first a) v (middle a) (social a) (area a) (phone a) (balance a)
            (number a) (password a) (nameLength a).
Definition set_middle (v : ascii) (a : Account) : Account :=
  mkAccount (first a) (last a) v (social a) (area a) (phone a) (balance a)
            (number a) (password a) (nameLength a).
Definition set_social (v : Z) (a : Account) : Account :=
  mkAccount (first a) (last a) (middle a) v (area a) (phone a) (balance a)
            (number a) (password a) (nameLength a).
Definition set_area (v : Z) (a : Account) : Account :=
  mkAccount (first a) (last a) (middle a) (social a) v (phone a) (balance a)
            (number a) (password a) (nameLength a).
Definition set_phone (v : Z) (a : Account) : Account :=
  mkAccount (first a) (last a) (middle a) (social a) (area a) v (balance a)
            (number a) (password a) (nameLength a).
Definition set_balance (v : double) (a : Account) : Account :=
  mkAccount (first a) (last a) (middle a) (social a) (area a) (phone a) v
            (number a) (password a) (nameLength a).
Definition set_password (v : string) (a : Account) : Account :=
  mkAccount (first a) (last a) (middle a) (social a) (area a) (phone a) (balance a)
            (number a) v (nameLength a).

(** The element at index [i] replaced by [f] of it. *)
Fixpoint modify (i : nat) (f : Account -> Account) (people : list Account) : list Account :=
  match people, i with
  | [], _ => []
  | a :: rest, O => f a :: rest
  | a :: rest, S j => a :: modify j f rest
  end.

(** What [~WriteOnShutdown] streams for one account: nine lines and an
    empty one. *)
Definition account_text (acc : Account) : string :=
  last acc +++ endl +++
  first acc +++ endl +++
  String (middle acc) endl +++
  print_uint (social acc) +++ endl +++
  print_uint (area acc) +++ endl +++
  print_uint (phone acc) +++ endl +++
  to_text (balance acc) +++ endl +++
  number acc +++ endl +++
  password acc +++ endl +++ endl.

Definition database_text (people : list Account) : string :=
  concat_all (map account_text people).

(** What [displayInfo] sends to [cout]. *)
Definition info_text (acc : Account) : string :=
  first acc +++ endl +++
  last acc +++ endl +++
  String (middle acc) endl +++
  print_uint (social acc) +++ endl +++
  print_uint (area acc) +++ endl +++
  print_uint (phone acc) +++ endl +++
  to_text (balance acc) +++ endl +++
  number acc +++ endl +++
  password acc +++ endl.

(** [strcmp(a.number, b.number) < 0], the order of the [sort] call:
    characters compared by code, a proper prefix first. *)
Fixpoint strcmp_lt (a b : string) : bool :=
  match a, b with
  | _, EmptyString => false
  | EmptyString, String _ _ => true
  | String x a', String y b' =>
      if (code x <? code y)%nat then true
      else if (code y <? code x)%nat then false
      else strcmp_lt a' b'
  end.

Definition number_lt (a b : Account) : bool := strcmp_lt (number a) (number b).

(** A store in the order of that comparison: no account stands before one
    with a smaller number. *)
Definition in_order (l : list Account) : Prop :=
  Sorted (fun a b => number_lt b a = false) l.

(** What [std::sort] promises of its result: the same accounts, in order.
    Where accounts with equal numbers end up is left to the implementation,
    so the sorting function of a run is part of its surroundings (see
    [std_sort] below). *)
Definition sorts (f : list Account -> list Account) : Prop :=
  forall l, Permutation l (f l) /\ in_order (f l).

(** One sorting function, by insertion.  With no account number twice
    every sorting function returns the same list (see [sort_determined]);
    the example runs, whose account numbers are distinct, take this one. *)
Fixpoint sort_insert (a : Account) (sorted : list Account) : list Account :=
  match sorted with
  | [] => [a]
  | b :: rest => if number_lt b a then b :: sort_insert a rest else a :: b :: rest
  end.

Definition sort (people : list Account) : list Account :=
  fold_right sort_insert [] people.

End Store.

(** ** Formatted extraction from the input file

    An [ifstream] read with [>>] is the text not yet consumed.  An
    extraction first skips white space and then takes the longest prefix
    that fits the target type.  Only one stream condition matters to
    [loadDatabase]: whether end of input was met ([eofbit]).  A failure away
    from the end leaves the stream failed for good without ever setting
    [eofbit]. *)

Module Stream.
Import CLib Str Double.

Inductive got (A : Type) : Type :=
| Value (a : A) (rest : string)   (* extracted, stream still good *)
| AtEof                           (* end of input met: eofbit is set *)
| Failed                          (* failbit set, eofbit not set *)
| Overrun.                        (* more characters than the buffer holds *)

Arguments Value {A} a rest.
Arguments AtEof {A}.
Arguments Failed {A}.
Arguments Overrun {A}.

Definition and_then {A B : Type} (g : got A) (k : A -> string -> got B) : got B :=
  match g with
  | Value a rest => k a rest
  | AtEof => AtEof
  | Failed => Failed
  | Overrun => Overrun
  end.

(** The longest prefix of [s] whose characters satisfy [p], and what follows. *)
Fixpoint span (p : ascii -> bool) (s : string) : string * string :=
  match s with
  | String c r =>
      if p c then let '(a, b) := span p r in (String c a, b) else (EmptyString, s)
  | EmptyString => (EmptyString, EmptyString)
  end.

Definition nonspace (c : ascii) : bool := negb (isspace c).

Definition sign (s : string) : bool * string :=
  match s with
  | String "-" r => (true, r)
  | String "+" r => (false, r)
  | _ => (false, s)
  end.

(** [input >> buffer] for a [char] array with room for [cap] characters and
    the terminator: the next white-space delimited word, of any length. *)
Definition get_cstr (cap : nat) (input : string) : got string :=
  match skip_space input with
  | EmptyString => AtEof
  | s =>
      let '(word, rest) := span nonspace s in
      if (cap <? String.length word)%nat then Overrun
      else match rest with
           | EmptyString => AtEof
           | _ => Value word rest
           end
  end.

(** [input >> c] for a [char]: the next character that is not white space. *)
Definition get_char (input : string) : got ascii :=
  match skip_space input with
  | EmptyString => AtEof
  | String c rest => Value c rest
  end.

(** [input >> n] for an [unsigned int]: an optional sign and decimal digits;
    no digit or a magnitude above [2^32 - 1] is a failure. *)
Definition get_unsigned (input : string) : got Z :=
  match skip_space input with
  | EmptyString => AtEof
  | s =>
      let '(neg, s1) := sign s in
      let '(ds, rest) := span isdigit s1 in
      match rest, ds with
      | EmptyString, _ => AtEof
      | _, EmptyString => Failed
      | _, _ =>
          let v := digits_value ds 0 in
          if 2 ^ 32 <=? v then Failed
          else Value (if neg then (2 ^ 32 - v) mod 2 ^ 32 else v) rest
      end
  end.

(** The exponent part of a floating literal, read only after a mantissa
    digit: [e] or [E], an optional sign, digits. *)
Definition exponent_part (have_mantissa : bool) (s : string)
  : option (bool * string) * string :=
  match s with
  | String c r =>
      if have_mantissa && (Ascii.eqb c "e" || Ascii.eqb c "E") then
        let '(eneg, r1) := sign r in
        let '(ed, r2) := span isdigit r1 in
        (Some (eneg, ed), r2)
      else (None, s)
  | EmptyString => (None, s)
  end.

(** [input >> d] for a [double]: sign, digits, a point and digits, an
    exponent.  The characters taken must form a complete literal; a value
    beyond the largest double is a failure. *)
Definition get_double (input : string) : got double :=
  match skip_space input with
  | EmptyString => AtEof
  | s =>
      let '(neg, s1) := sign s in
      let '(ip, s2) := span isdigit s1 in
      let '(fp, s3) := match s2 with
                       | String "." r => span isdigit r
                       | _ => (EmptyString, s2)
                       end in
      let mant := ip +++ fp in
      let have := negb (String.eqb mant EmptyString) in
      let '(ex, rest) := exponent_part have s3 in
      let shift := Z.of_nat (String.length fp) in
      match rest with
      | EmptyString => AtEof
      | _ =>
          if negb have then Failed
          else
            let lit := match ex with
                       | None => Some (- shift)
                       | Some (_, EmptyString) => None
                       | Some (eneg, ed) =>
                           Some ((if eneg then - digits_value ed 0 else digits_value ed 0) - shift)
                       end in
            match lit with
            | None => Failed
            | Some e =>
                match of_decimal neg (digits_value mant 0) e with
                | S754_infinity _ => Failed
                | d => Value d rest
                end
            end
      end
  end.

End Stream.

(** ** [loadDatabase] *)

Module Loader.
Import CLib Str Double Store Stream.

Notation "' ( x , r ) <- g ;; k" := (and_then g (fun x r => k))
  (at level 61, x name, r name, g at next level, right associativity).

(** The nine extractions of one turn of the loop, and [nameLength]. *)
Definition read_record (input : string) : got Account :=
  '(p_last, i1) <- get_cstr LAST_NAME_LENGTH input ;;
  '(p_first, i2) <- get_cstr FIRST_NAME_LENGTH i1 ;;
  '(p_middle, i3) <- get_char i2 ;;
  '(p_social, i4) <- get_unsigned i3 ;;
  '(p_area, i5) <- get_unsigned i4 ;;
  '(p_phone, i6) <- get_unsigned i5 ;;
  '(p_balance, i7) <- get_double i6 ;;
  '(p_number, i8) <- get_cstr ACC_NUM_LENGTH i7 ;;
  '(p_password, i9) <- get_cstr PASS_LENGTH i8 ;;
  Value (mkAccount p_first p_last p_middle p_social p_area p_phone p_balance
                   p_number p_password
                   (Z.of_nat (String.length p_first + String.length p_last + 4)))
        i9.

Inductive load_result : Type :=
| Loaded (people : list Account)   (* returns [true] *)
| NotOpened                        (* returns [false] *)
| Abnormal.                        (* the loop never ends, or a buffer is overrun *)

(** The loop of [loadDatabase].  A turn that meets end of input drops the
    record it was reading and ends the loop; a turn that fails elsewhere
    leaves a stream that never reports end of input.  Every completed turn
    consumes input, so a fuel above the length of the input is never used
    up (see [load_loop_fuel]). *)
Fixpoint load_loop (fuel : nat) (input : string) (people : list Account) : load_result :=
  match fuel with
  | O => Abnormal
  | S fuel' =>
      match read_record input with
      | Value person rest => load_loop fuel' rest (people ++ [person])
      | AtEof => Loaded people
      | Failed => Abnormal
      | Overrun => Abnormal
      end
  end.

Definition loadDatabase (file_content : string -> option string)
                        (people : list Account) (fileName : string) : load_result :=
  match file_content fileName with
  | None => NotOpened
  | Some input => load_loop (S (String.length input)) input people
  end.

End Loader.

(** ** The action engine: [parseArgs] and [main] *)

Module Engine.
Import CLib Regex Args Str Double Store Stream Loader.

(** The surroundings of a run: the text of each file that opens for reading,
    whether the [ofstream] of [createReport] opens, whether the [ofstream]
    of [~WriteOnShutdown] opens, and the result of the library's
    [std::sort] under the comparison of account numbers. *)
Record world : Type := mkWorld {
  file_content : string -> option string;
  report_opens : string -> bool;
  write_opens : string -> bool;
  std_sort : list Account -> list Account
}.

(** What a run sends out. *)
Inductive event : Type :=
| Help                                           (* helpMenu() *)
| Cout (text : string)                           (* text on standard output *)
| Report (fileName : string) (people : list Account)  (* createReport's table of [people] *)
| Written (fileName : string) (text : string).   (* ~WriteOnShutdown's stream *)

(** The variables of [parseArgs].  [visited] is not a program variable: it
    lists the [case] labels entered so far, in order. *)
Record state : Type := mkState {
  args : argmap;
  people : list Account;
  acc : ptr;
  acc2 : ptr;
  out : list event;
  visited : list ascii
}.

Definition set_args (v : argmap) (s : state) : state :=
  mkState v (people s) (acc s) (acc2 s) (out s) (visited s).
Definition set_people (v : list Account) (s : state) : state :=
  mkState (args s) v (acc s) (acc2 s) (out s) (visited s).
Definition set_acc (v : ptr) (s : state) : state :=
  mkState (args s) (people s) v (acc2 s) (out s) (visited s).
Definition set_acc2 (v : ptr) (s : state) : state :=
  mkState (args s) (people s) (acc s) v (out s) (visited s).
Definition emit (e : event) (s : state) : state :=
  mkState (args s) (people s) (acc s) (acc2 s) (out s ++ [e]) (visited s).
Definition enter (c : ascii) (s : state) : state :=
  mkState (args s) (people s) (acc s) (acc2 s) (out s) (visited s ++ [c]).

(** A statement either goes on, executes [return code], or has no defined
    behaviour. *)
Inductive result (A : Type) : Type :=
| Next (a : A)
| Return (code : Z)
| Undefined.

Arguments Next {A} a.
Arguments Return {A} code.
Arguments Undefined {A}.

Definition M (A : Type) : Type := state -> result A * state.

Definition ret {A : Type} (a : A) : M A := fun s => (Next a, s).

Definition bind {A B : Type} (m : M A) (k : A -> M B) : M B :=
  fun s =>
    match m s with
    | (Next a, s') => k a s'
    | (Return code, s') => (Return code, s')
    | (Undefined, s') => (Undefined, s')
    end.

Notation "x <- m ;; k" := (bind m (fun x => k))
  (at level 61, m at next level, right associativity).
Notation "m ;; k" := (bind m (fun _ => k))
  (at level 61, right associativity).

Definition return_ {A : Type} (code : Z) : M A := fun s => (Return code, s).
Definition undefined {A : Type} : M A := fun s => (Undefined, s).
Definition update_state (f : state -> state) : M unit := fun s => (Next tt, f s).
Definition read {A : Type} (f : state -> A) : M A := fun s => (Next (f s), s).

(** [yankArg(args, c)]. *)
Definition yank (c : ascii) : M (option string) :=
  fun s => let '(v, m) := yankArg (args s) c in (Next v, set_args m s).

(** [findAccount(people, yankArg(args, O_NUM), yankArg(args, O_PASS))].
    The two calls take from different keys, so the order in which the
    compiler evaluates them does not matter (see [yankArg_commute]). *)
Definition lookup : M ptr :=
  n <- yank O_NUM ;;
  p <- yank O_PASS ;;
  ps <- read people ;;
  ret (findAccount ps n p).

(** The opening of every case but [O_TRANS]:
    [acc = findAccount(...);
     if(acc == nullptr) { if(acc2 == nullptr) return ERR_NO_ACCOUNT; else acc = acc2; }] *)
Definition resolve : M unit :=
  a <- lookup ;;
  update_state (set_acc a) ;;
  match a with
  | Some _ => ret tt
  | None =>
      a2 <- read acc2 ;;
      match a2 with
      | None => return_ ERR_NO_ACCOUNT
      | Some _ => update_state (set_acc a2)
      end
  end.

(** The account a pointer addresses. *)
Definition deref (p : ptr) : M Account :=
  ps <- read people ;;
  match p with
  | None => undefined
  | Some i =>
      match nth_error ps i with
      | Some a => ret a
      | None => undefined
      end
  end.

(** An assignment through a pointer: [p->field = ...]. *)
Definition assign (p : ptr) (f : Account -> Account) : M unit :=
  deref p ;;
  match p with
  | Some i => update_state (fun s => set_people (modify i f (people s)) s)
  | None => undefined
  end.

(** [strcpy(p->field, buf)] into an array with room for [cap] characters
    and the terminator. *)
Definition strcpy (cap : nat) (p : ptr) (f : string -> Account -> Account) (buf : string)
  : M unit :=
  if (cap <? String.length buf)%nat then undefined else assign p (f buf).

(** [buf = yankArg(args, c);
     if(buf == nullptr || !regex_match(buf, regex(r))) return ERR_NO_INFO;] *)
Definition yank_matching (c : ascii) (r : regex) : M string :=
  buf <- yank c ;;
  match buf with
  | None => return_ ERR_NO_INFO
  | Some b => if regex_match b r then ret b else return_ ERR_NO_INFO
  end.

Definition case_CHANGE_AREA : M unit :=
  resolve ;;
  buf <- yank_matching O_CHANGE_AREA R_AREA ;;
  a <- read acc ;;
  assign a (set_area (to_unsigned (atoi buf))).

Definition case_CHANGE_F : M unit :=
  resolve ;;
  buf <- yank_matching O_CHANGE_F R_NAME ;;
  a <- read acc ;;
  strcpy FIRST_NAME_LENGTH a set_first buf.

Definition case_CHANGE_PHONE : M unit :=
  resolve ;;
  buf <- yank_matching O_CHANGE_PHONE R_PHONE ;;
  a <- read acc ;;
  assign a (set_phone (to_unsigned (atoi buf))).

Definition case_CHANGE_L : M unit :=
  resolve ;;
  buf <- yank_matching O_CHANGE_L R_NAME ;;
  a <- read acc ;;
  strcpy LAST_NAME_LENGTH a set_last buf.

(** [if(buf == nullptr || !isalpha( *buf)) return ERR_NO_INFO;
     acc->middle = *buf;]: only the first character is looked at; for the
    empty string it is the terminator, which is no letter. *)
Definition case_CHANGE_M : M unit :=
  resolve ;;
  buf <- yank O_CHANGE_M ;;
  match buf with
  | Some (String c _) =>
      if isalpha c then (a <- read acc ;; assign a (set_middle c))
      else return_ ERR_NO_INFO
  | _ => return_ ERR_NO_INFO
  end.

Definition case_CHANGE_SSN : M unit :=
  resolve ;;
  buf <- yank_matching O_CHANGE_SSN R_SSN ;;
  a <- read acc ;;
  assign a (set_social (to_unsigned (atoi buf))).

Definition case_TRANS : M unit :=
  a <- lookup ;;
  update_state (set_acc a) ;;
  match a with
  | None => return_ ERR_NO_ACCOUNT
  | Some _ =>
      b <- lookup ;;
      update_state (set_acc2 b) ;;
      match b with
      | None => return_ ERR_NO_TRANSFER_ACCOUNT
      | Some _ =>
          buf <- yank_matching O_TRANS R_NAME ;;
          from <- deref a ;;
          if ltb (balance from) (of_int (atoi buf)) then return_ ERR_TOO_MUCH_TRANSFER
          else
            assign a (fun x => set_balance (sub (balance x) (of_int (atoi buf))) x) ;;
            assign b (fun x => set_balance (add (balance x) (of_int (atoi buf))) x)
      end
  end.

Definition case_NEWPASS : M unit :=
  resolve ;;
  buf <- yank_matching O_NEWPASS R_PASS ;;
  a <- read acc ;;
  strcpy PASS_LENGTH a set_password buf.

Definition is_code (c k : ascii) : bool := Ascii.eqb c k.

(** The [switch] of the first loop. *)
Definition first_switch (c : ascii) : M unit :=
  if is_code c O_CHANGE_AREA then update_state (enter c) ;; case_CHANGE_AREA
  else if is_code c O_CHANGE_F then update_state (enter c) ;; case_CHANGE_F
  else if is_code c O_CHANGE_PHONE then update_state (enter c) ;; case_CHANGE_PHONE
  else if is_code c O_CHANGE_L then update_state (enter c) ;; case_CHANGE_L
  else if is_code c O_CHANGE_M then update_state (enter c) ;; case_CHANGE_M
  else if is_code c O_CHANGE_SSN then update_state (enter c) ;; case_CHANGE_SSN
  else if is_code c O_TRANS then update_state (enter c) ;; case_TRANS
  else if is_code c O_NEWPASS then update_state (enter c) ;; case_NEWPASS
  else ret tt.

(** One turn of the first loop: the [switch], then [acc2 = acc]. *)
Definition first_body (c : ascii) : M unit :=
  first_switch c ;;
  update_state (fun s => set_acc2 (acc s) s).

Definition case_INFO : M unit :=
  yank O_INFO ;;
  b <- lookup ;;
  update_state (set_acc2 b) ;;
  update_state (fun s => match acc2 s with None => set_acc2 (acc s) s | Some _ => s end) ;;
  b' <- read acc2 ;;
  match b' with
  | None => return_ ERR_NO_ACCOUNT
  | Some _ => shown <- deref b' ;; update_state (emit (Cout (info_text shown)))
  end.

Definition case_REPORT (w : world) : M unit :=
  fileName <- yank O_REPORT ;;
  match fileName with
  | None => undefined
  | Some f =>
      if report_opens w f
      then (ps <- read people ;; update_state (emit (Report f ps)))
      else return_ ERR_REPORT_FILE_ERR
  end.

(** One turn of the second loop. *)
Definition second_body (w : world) (c : ascii) : M unit :=
  if is_code c O_INFO then update_state (enter c) ;; case_INFO
  else if is_code c O_REPORT then update_state (enter c) ;; case_REPORT w
  else ret tt.

(** [for(pair<char, vector<char*>> arg : *args)]: the keys in map order. *)
Fixpoint for_each (body : ascii -> M unit) (ks : list ascii) : M unit :=
  match ks with
  | [] => ret tt
  | c :: rest => body c ;; for_each body rest
  end.

Definition over_args (body : ascii -> M unit) : M unit :=
  fun s => for_each body (keys (args s)) s.

(** The two loops and the final [return 0]. *)
Definition actions (w : world) : M unit :=
  over_args first_body ;;
  over_args (second_body w) ;;
  return_ 0.

Fixpoint back (vec : list string) : option string :=
  match vec with
  | [] => None
  | [x] => Some x
  | _ :: rest => back rest
  end.

(** [args->empty() || args->find(O_HELP) != args->end()]. *)
Definition help_wanted (args0 : argmap) : bool :=
  match args0 with
  | [] => true
  | _ => match find args0 O_HELP with
         | Some _ => true
         | None => false
         end
  end.

Definition quote : string := String (ascii_of_nat 34) EmptyString.

(** [~WriteOnShutdown()]: the store is streamed to an [ofstream] on the
    data file.  The destructor does not test the stream; when it did not
    open, nothing is written and nothing tells. *)
Definition written_back (w : world) (fileName : string) (s : state) : state :=
  if write_opens w fileName
  then emit (Written fileName (database_text (people s))) s
  else s.

(** The end of the scope of [write]: the destructor runs when [parseArgs]
    returns. *)
Definition shutdown (w : world) (fileName : string) (rs : result unit * state)
  : result unit * state :=
  match rs with
  | (Undefined, s2) => (Undefined, s2)
  | (r, s2) => (r, written_back w fileName s2)
  end.

(** [parseArgs(args, people)].  The locals [acc] and [acc2] are declared
    without an initial value: [acc_0] and [acc2_0] are whatever they hold. *)
Definition parseArgs (w : world) (acc_0 acc2_0 : ptr)
                     (args0 : argmap) (people0 : list Account) : result unit * state :=
  let s0 := mkState args0 people0 acc_0 acc2_0 [] [] in
  let s1 := if help_wanted args0 then emit Help s0 else s0 in
  match find args0 O_DATA with
  | None => (Return ERR_NO_DB, s1)
  | Some vec =>
      match back vec with
      | None => (Undefined, s1)
      | Some fileName =>
          match loadDatabase (file_content w) people0 fileName with
          | NotOpened =>
              (Return ERR_DB_NOT_FOUND,
               emit (Cout ("ERR! Could not load " +++ quote +++ fileName +++ quote)) s1)
          | Abnormal => (Undefined, s1)
          | Loaded loaded =>
              shutdown w fileName (actions w (set_people (std_sort w loaded) s1))
          end
      end
  end.

(** [main]: [argv] is the whole vector, program name included. *)
Definition main (w : world) (acc_0 acc2_0 : ptr) (argv : list string)
  : result unit * state :=
  parseArgs w acc_0 acc2_0 (sortArgs [] argv) [].

End Engine.

(** ** The table of [createReport] *)

Module ReportText.
Import CLib Str Double Store.

(** [file << left << setw(14) << s]: [s] followed by blanks up to fourteen
    columns; a longer [s] is written whole. *)
Definition setw14 (s : string) : string :=
  s +++ repeat_char " " (14 - String.length s).

(** The hundredths [n] as units, a point and two digits. *)
Definition two_decimals (n : Z) : string :=
  print_uint (n / 100) +++ "." +++
  (if n mod 100 <? 10 then "0" else "") +++ print_uint (n mod 100).

(** [file << fixed << setprecision(2) << d]. *)
Definition to_fixed2 (d : double) : string :=
  match d with
  | S754_zero s => if s then "-0.00" else "0.00"
  | S754_infinity s => if s then "-inf" else "inf"
  | S754_nan => "nan"
  | S754_finite s m e =>
      (if s then "-" else "") +++
      two_decimals (if 0 <=? e then Zpos m * 2 ^ e * 100
                    else div_round_even (Zpos m * 100) (2 ^ (- e)))
  end.

(** The part of a row of the report before the social security number. *)
Definition report_row_start (person : Account) : string :=
  " " +++ number person +++ "   " +++
  setw14 (last person) +++ "  " +++
  setw14 (first person) +++ "  " +++
  String (middle person) ".  ".

Definition report_row (person : Account) : string :=
  report_row_start person +++
  print_uint (social person) +++ "  " +++
  "(" +++ print_uint (area person) +++ ")" +++ print_uint (phone person) +++ "  " +++
  to_fixed2 (balance person) +++ endl.

Definition report_header : string :=
  "-------  ----            -----           --  ---------  ------------  -------" +++ endl +++
  "Account  Last            First           MI  SS         Phone         Account" +++ endl +++
  "Number   Name            Name                Number     Number        Balance" +++ endl +++
  "-------  ----            -----           --  ---------  ------------  -------" +++ endl.

(** What [createReport] writes for the store carried by a [Report] event. *)
Definition report_text (people : list Account) : string :=
  report_header +++ concat_all (map report_row people).

End ReportText.

(** ** Definitions used to state the properties *)

Module Wording.
Import CLib Regex Args Str Double Store Stream Loader Engine.

(** *** The command line *)

Definition switch_of (arg : string) : option (ascii * string) :=
  match arg with
  | String a0 (String a1 value) => if Ascii.eqb a0 SLASH then Some (a1, value) else None
  | _ => None
  end.

Definition supplied (c : ascii) (argv : list string) : list string :=
  flat_map (fun arg => match switch_of arg with
                       | Some (k, v) => if Ascii.eqb k c then [v] else []
                       | None => []
                       end) argv.


Fixpoint yank_times (n : nat) (args : argmap) (c : ascii) : argmap :=
  match n with
  | O => args
  | S k => yank_times k (snd (yankArg args c)) c
  end.

Definition code_lt (a b : ascii) : Prop := char_value a < char_value b.

Definition present (argv : list string) (c : ascii) : bool :=
  match supplied c argv with
  | [] => false
  | _ => true
  end.

(** *** The engine *)

Definition quiet (e : event) : Prop :=
  match e with
  | Written _ _ => False
  | _ => True
  end.

(** A statement [m] keeps the relation [R] between the state before and the
    state after, and returns only codes in [P]. *)
Definition respects (R : state -> state -> Prop) (P : Z -> Prop) {A : Type} (m : M A) : Prop :=
  forall s r s', m s = (r, s') -> R s s' /\ forall code, r = Return code -> P code.

(** What a statement other than the entry of a [case] leaves alone. *)
Definition steady (s s' : state) : Prop :=
  visited s' = visited s /\ keys (args s') = keys (args s) /\
  exists evs, out s' = out s ++ evs /\ Forall quiet evs.

Definition nonzero (code : Z) : Prop := code <> 0.

Definition mutation_order : list ascii :=
  [O_CHANGE_AREA; O_CHANGE_F; O_CHANGE_PHONE; O_CHANGE_L; O_CHANGE_M; O_CHANGE_SSN;
   O_TRANS; O_NEWPASS].

Definition second_order : list ascii := [O_INFO; O_REPORT].

Definition among (l : list ascii) (c : ascii) : bool := existsb (Ascii.eqb c) l.

Definition visits (sel : ascii -> bool) (c : ascii) (r : result unit) (s s' : state) : Prop :=
  visited s' = visited s ++ (if sel c then [c] else []) /\
  keys (args s') = keys (args s) /\
  (exists evs, out s' = out s ++ evs /\ Forall quiet evs) /\
  forall code, r = Return code -> code <> 0.

(** The cases a run can enter: the supplied codes of the first loop, then
    those of the second. *)
Definition schedule (argv : list string) : list ascii :=
  filter (present argv) mutation_order ++ filter (present argv) second_order.

(** The state after the two [yankArg] calls of an account lookup. *)
Definition after_lookup (s : state) : state :=
  set_args (snd (yankArg (snd (yankArg (args s) O_NUM)) O_PASS)) s.

(** The credentials an account lookup takes from the collector. *)
Definition next_number (s : state) : option string := fst (yankArg (args s) O_NUM).
Definition next_password (s : state) : option string :=
  fst (yankArg (snd (yankArg (args s) O_NUM)) O_PASS).

(** A balance kept as it is, except that a negative zero may have become
    the positive zero. *)
Definition same_amount (a a' : Account) : Prop :=
  a' = a \/ (balance a = S754_zero true /\ a' = set_balance (S754_zero false) a).

Definition name_class : list ascii := [":"; "a"; "l"; "p"; "h"]%char.

(** The cases that open with the fallback to the previous account. *)
Definition fallback_cases : list (M unit) :=
  [case_CHANGE_AREA; case_CHANGE_F; case_CHANGE_PHONE; case_CHANGE_L; case_CHANGE_M;
   case_CHANGE_SSN; case_NEWPASS].

(** *** Well-formed data files *)

Fixpoint all_chars (p : ascii -> bool) (s : string) : bool :=
  match s with
  | EmptyString => true
  | String c r => p c && all_chars p r
  end.

Definition nonempty (s : string) : bool :=
  match s with
  | EmptyString => false
  | String _ _ => true
  end.

(** A separator: one or more white-space characters. *)
Definition separator (s : string) : bool := nonempty s && all_chars isspace s.

(** A word that fits a buffer of [cap] characters. *)
Definition word (cap : nat) (s : string) : bool :=
  nonempty s && all_chars nonspace s && (String.length s <=? cap)%nat.

(** An unsigned decimal numeral within [unsigned int]. *)
Definition numeral (s : string) : bool :=
  nonempty s && all_chars isdigit s && (digits_value s 0 <? 2 ^ 32).

(** The nine tokens of one record as they stand in a data file; the balance
    is digits, or digits, a point and digits. *)
Record row : Type := mkRow {
  w_last : string;
  w_first : string;
  w_middle : ascii;
  w_social : string;
  w_area : string;
  w_phone : string;
  w_units : string;
  w_cents : option string;
  w_number : string;
  w_password : string
}.

Definition balance_text (r : row) : string :=
  match w_cents r with
  | None => w_units r
  | Some f => w_units r +++ "." +++ f
  end.

Definition cents_digits (r : row) : string :=
  match w_cents r with
  | None => EmptyString
  | Some f => f
  end.

(** The double that [strtod] gives for the balance token. *)
Definition balance_value (r : row) : double :=
  of_decimal false (digits_value (w_units r +++ cents_digits r) 0)
             (- Z.of_nat (String.length (cents_digits r))).

Definition finite (d : double) : bool :=
  match d with
  | S754_infinity _ => false
  | _ => true
  end.

Definition well_formed (r : row) : bool :=
  word LAST_NAME_LENGTH (w_last r) && word FIRST_NAME_LENGTH (w_first r) &&
  nonspace (w_middle r) &&
  numeral (w_social r) && numeral (w_area r) && numeral (w_phone r) &&
  nonempty (w_units r) && all_chars isdigit (w_units r) &&
  all_chars isdigit (cents_digits r) && finite (balance_value r) &&
  word ACC_NUM_LENGTH (w_number r) && word PASS_LENGTH (w_password r).

(** The text of a record: the tokens with [sep] between them and [rsep]
    after the last. *)
Definition row_text (sep rsep : string) (r : row) : string :=
  w_last r +++ sep +++ w_first r +++ sep +++ String (w_middle r) sep +++
  w_social r +++ sep +++ w_area r +++ sep +++ w_phone r +++ sep +++
  balance_text r +++ sep +++ w_number r +++ sep +++ w_password r +++ rsep.

Definition file_text (sep rsep : string) (rows : list row) : string :=
  concat_all (map (row_text sep rsep) rows).

(** The account [loadDatabase] builds from a record. *)
Definition account_of (r : row) : Account :=
  mkAccount (w_first r) (w_last r) (w_middle r)
            (digits_value (w_social r) 0) (digits_value (w_area r) 0)
            (digits_value (w_phone r) 0) (balance_value r)
            (w_number r) (w_password r)
            (Z.of_nat (String.length (w_first r) + String.length (w_last r) + 4)).

Definition starts_blank (s : string) : bool :=
  match s with
  | String c _ => isspace c
  | EmptyString => false
  end.

(** *** The round trip as the specification words it *)

(** The white-space separated tokens of a text. *)
Fixpoint words_from (cur : string) (s : string) : list string :=
  match s with
  | EmptyString => if nonempty cur then [cur] else []
  | String c r =>
      if isspace c then (if nonempty cur then cur :: words_from EmptyString r
                         else words_from EmptyString r)
      else words_from (cur +++ String c EmptyString) r
  end.

Definition words (s : string) : list string := words_from EmptyString s.

(** A numeral without its leading zeros. *)
Fixpoint drop_zeros (s : string) : string :=
  match s with
  | String c r =>
      match r with
      | EmptyString => s
      | String _ _ => if Ascii.eqb c "0" then drop_zeros r else s
      end
  | EmptyString => s
  end.

(** The tokens in records of nine, social, area and phone without leading
    zeros. *)
Fixpoint records (toks : list string) : list (list string) :=
  match toks with
  | a :: b :: c :: d :: e :: f :: g :: h :: i :: rest =>
      [a; b; c; drop_zeros d; drop_zeros e; drop_zeros f; g; h; i] :: records rest
  | _ => []
  end.

Definition same_records (input output : string) : Prop :=
  Permutation (records (words input)) (records (words output)).

End Wording.

(** ** Example runs *)

Module Scenario.
Import CLib Regex Args Str Double Store Stream Loader Engine Wording.

(** Lines of text, each ended by [endl]. *)
Definition lines (l : list string) : string := concat_all (map (fun x => x +++ endl) l).

(** A data file with two accounts; the first is the record of the worked
    example. *)
Definition two_accounts_text : string :=
  lines ["Doe Jane J 123456789 555 5551234 100.00 A0001 ABC123";
         "Roe Rick R 987654321 555 5554321 10.00 A0002 XYZ789"].

Definition two_accounts_world : world :=
  mkWorld (fun f => if String.eqb f "bank.db" then Some two_accounts_text else None)
          (fun _ => true) (fun _ => true) sort.

(** The text of that file as the destructor writes it when nothing changed. *)
Definition two_accounts_written : string :=
  lines ["Doe"; "Jane"; "J"; "123456789"; "555"; "5551234"; "100"; "A0001"; "ABC123"; "";
         "Roe"; "Rick"; "R"; "987654321"; "555"; "5554321"; "10"; "A0002"; "XYZ789"; ""].

Definition transfer_argv (amount : string) : list string :=
  ["bankacct"; "/Dbank.db"; "/NA0001"; "/PABC123"; "/NA0002"; "/PXYZ789"; "/T" +++ amount].

Definition jane : Account :=
  mkAccount "Jane" "Doe" "J" 123456789 555 5551234 (of_decimal false 10000 (-2))
            "A0001" "ABC123" 11.
Definition rick : Account :=
  mkAccount "Rick" "Roe" "R" 987654321 555 5554321 (of_decimal false 1000 (-2))
            "A0002" "XYZ789" 11.
Definition two_accounts : list Account := [jane; rick].

(** A run that changes the area code of A0001 and then asks for a new phone
    number under the number of A0001 and a wrong password. *)
Definition wrong_password_argv : list string :=
  ["bankacct"; "/Dbank.db"; "/NA0001"; "/PABC123"; "/A777";
   "/NA0001"; "/PWRONG1"; "/H1234567"].

(** The state of that run when the loop reaches the [O_CHANGE_PHONE] case. *)
Definition before_phone_change : state :=
  snd (for_each first_body [O_CHANGE_AREA; O_DATA]
         (mkState (sortArgs [] wrong_password_argv) two_accounts None None [] [])).

Definition no_credentials_argv : list string := ["bankacct"; "/Dbank.db"; "/Fhal"].


Definition first_name_state : state :=
  mkState (sortArgs [] ["bankacct"; "/Dbank.db"; "/NA0001"; "/PABC123"; "/FBob"])
          two_accounts None None [] [].

Definition rick_row : row :=
  mkRow "Roe" "Rick" "R" "987654321" "555" "0054321" "10" (Some "00") "A0002" "XYZ789".
Definition jane_row : row :=
  mkRow "Doe" "Jane" "J" "123456789" "555" "5551234" "100" (Some "00") "A0001" "ABC123".

(** Two account numbers and nothing else. *)
Definition two_numbers_argv : list string := ["bankacct"; "/NA0001"; "/PABC123"; "/NA0002"].

(** The state in which a transfer of the amount [hal] starts. *)
Definition before_transfer : state :=
  mkState (sortArgs [] (transfer_argv "hal")) two_accounts None None [] [].

End Scenario.

(** ** Definitions used to state further properties *)

Module Terms.
Import CLib Regex Args Str Double Store Stream Loader Engine Wording Scenario.

(** *** Start of a run *)

(** No argument has the shape of a switch. *)
Definition no_switch (argv : list string) : bool :=
  forallb (fun arg => match switch_of arg with
                      | None => true
                      | Some _ => false
                      end) argv.

(** What the start of [parseArgs] sends out before it looks for the data
    file: the help menu, when no switch was given or the help switch was. *)
Definition help_output (argv : list string) : list event :=
  if no_switch argv || present argv O_HELP then [Help] else [].

Definition could_not_load (fileName : string) : event :=
  Cout ("ERR! Could not load " +++ quote +++ fileName +++ quote).

(** The account at index [i] is the first with the given credentials. *)
Definition first_match (people : list Account) (n p : string) (i : nat) : Prop :=
  (exists a, nth_error people i = Some a /\ number a = n /\ password a = p) /\
  forall j b, (j < i)%nat -> nth_error people j = Some b ->
              ~ (number b = n /\ password b = p).

(** A world in which every other file name opens on text that is no data
    base, and a command line naming two data files. *)
Definition two_files_world : world :=
  mkWorld (fun f => if String.eqb f "bank.db" then Some two_accounts_text
                    else Some "not a data base")
          (fun _ => true) (fun _ => true) sort.
Definition two_data_argv : list string := ["bankacct"; "/Dother.db"; "/Dbank.db"; "/I"].

(** *** The loading loop *)

(** The loop of [loadDatabase] as it runs, without a bound on its turns. *)
Inductive turns : string -> list Account -> load_result -> Prop :=
| turns_eof input people :
    read_record input = AtEof -> turns input people (Loaded people)
| turns_next input people person rest result :
    read_record input = Value person rest ->
    turns rest (people ++ [person]) result ->
    turns input people result
| turns_failed input people :
    read_record input = Failed -> turns input people Abnormal
| turns_overrun input people :
    read_record input = Overrun -> turns input people Abnormal.

(** A character with which no unsigned numeral starts. *)
Definition starts_no_numeral (c : ascii) : bool :=
  negb (isdigit c) && negb (isspace c) && negb (Ascii.eqb c "-") && negb (Ascii.eqb c "+").

(** *** The cases of the engine *)

(** The account a case works on after its opening lines: the one the
    credentials name, else the one [acc2] points to. *)
Definition resolved (s : state) : ptr :=
  match findAccount (people s) (next_number s) (next_password s) with
  | Some i => Some i
  | None => acc2 s
  end.

(** The value a case takes from the collector for its own code [c]. *)
Definition next_value (c : ascii) (s : state) : option string :=
  fst (yankArg (args (after_lookup s)) c).

(** The state a case of code [c] leaves when it has changed account [i]. *)
Definition changed (c : ascii) (i : nat) (f : Account -> Account) (s : state) : state :=
  set_people (modify i f (people s))
    (set_args (snd (yankArg (args (after_lookup s)) c)) (set_acc (Some i) (after_lookup s))).

(** The state a case of code [c] leaves when it rejects the value. *)
Definition rejected (c : ascii) (i : nat) (s : state) : state :=
  set_args (snd (yankArg (args (after_lookup s)) c)) (set_acc (Some i) (after_lookup s)).

(** A case stores the numeral it is given: with account [i] resolved and a
    value matching the pattern, the field becomes the number the digits of
    the value denote.  That number is what [atoi] returns and it is below
    [2^31]: the [int] of [atoi] does not overflow and its conversion to
    [unsigned int] changes nothing. *)
Definition stores_numeral (action : M unit) (c : ascii) (r : regex)
                          (set : Z -> Account -> Account) : Prop :=
  forall s i a v,
    resolved s = Some i -> nth_error (people s) i = Some a ->
    next_value c s = Some v -> regex_match v r = true ->
    action s = (Next tt, changed c i (set (digits_value v 0)) s) /\
    atoi v = digits_value v 0 /\
    0 <= atoi v < 2 ^ 31.
(** A case copies the name it is given: with account [i] resolved and a
    value matching [R_NAME], the field becomes the value when the buffer of
    [cap] characters holds it; a longer value is copied past the buffer. *)
Definition copies_name (action : M unit) (c : ascii) (cap : nat)
                       (set : string -> Account -> Account) : Prop :=
  forall s i a v,
    resolved s = Some i -> nth_error (people s) i = Some a ->
    next_value c s = Some v -> regex_match v R_NAME = true ->
    action s = if (String.length v <=? cap)%nat
               then (Next tt, changed c i (set v) s)
               else (Undefined, rejected c i s).

(** The account the info case shows: the one the credentials name, else the
    one [acc] points to. *)
Definition shown (s : state) : ptr :=
  match findAccount (people s) (next_number s) (next_password s) with
  | Some i => Some i
  | None => acc s
  end.

(** The state in which the area of A0001 is to become [007]. *)
Definition before_area_change : state :=
  mkState (sortArgs [] ["bankacct"; "/Dbank.db"; "/NA0001"; "/PABC123"; "/A007"])
          two_accounts None None [] [].

(** The state in which A0001 is to get the password [NEWPW1]. *)
Definition before_new_password : state :=
  mkState (sortArgs [] ["bankacct"; "/Dbank.db"; "/NA0001"; "/PABC123"; "/WNEWPW1"])
          two_accounts None None [] [].

(** The state in which the middle initial of A0001 is to become [Quentin]. *)
Definition before_middle_change : state :=
  mkState (sortArgs [] ["bankacct"; "/Dbank.db"; "/NA0001"; "/PABC123"; "/MQuentin"])
          two_accounts None None [] [].

(** The state in which the first name of A0001 is to become [alpha]. *)
Definition before_name_change : state :=
  mkState (sortArgs [] ["bankacct"; "/Dbank.db"; "/NA0001"; "/PABC123"; "/Falpha"])
          two_accounts None None [] [].
(** Why a transfer can return: the code that goes with each condition, in
    the order the case tests them. *)
Definition transfer_refusal (s : state) (code : Z) : Prop :=
  match findAccount (people s) (next_number s) (next_password s) with
  | None => code = ERR_NO_ACCOUNT
  | Some i =>
      match findAccount (people s) (next_number (after_lookup s))
                        (next_password (after_lookup s)) with
      | None => code = ERR_NO_TRANSFER_ACCOUNT
      | Some _ =>
          match next_value O_TRANS (after_lookup s) with
          | None => code = ERR_NO_INFO
          | Some v =>
              if regex_match v R_NAME
              then code = ERR_TOO_MUCH_TRANSFER /\
                   exists a, nth_error (people s) i = Some a /\
                             ltb (balance a) (of_int 0) = true
              else code = ERR_NO_INFO
          end
      end
  end.

(** A store in which A0001 is overdrawn. *)
Definition overdrawn_accounts : list Account :=
  [set_balance (of_decimal true 5 0) jane; rick].

Definition before_overdrawn_transfer : state :=
  mkState (sortArgs [] (transfer_argv "hal")) overdrawn_accounts None None [] [].
(** The state the info case leaves, with [p] in [acc2]. *)
Definition info_state (s : state) (p : ptr) : state :=
  set_acc2 p (after_lookup (set_args (snd (yankArg (args s) O_INFO)) s)).

(** Two doubles that are the same amount: equal, or both a zero. *)
Definition same_double (x y : double) : Prop :=
  y = x \/ (exists sx sy, x = S754_zero sx /\ y = S754_zero sy).

(** An account with its number and the amount of its balance kept. *)
Definition kept (a a' : Account) : Prop :=
  number a' = number a /\ same_double (balance a) (balance a').

(** A run with several actions on the two accounts. *)
Definition busy_argv : list string :=
  ["bankacct"; "/WNEWPW1"; "/Thal"; "/NA0002"; "/PXYZ789"; "/NA0001"; "/PABC123";
   "/Dbank.db"; "/A321"; "/NA0002"; "/PXYZ789"].
(** Two states whose stores hold the same accounts, numbers and amounts
    kept, in the same places. *)
Definition store_kept (s s' : state) : Prop := Forall2 kept (people s) (people s').

(** No condition on the code a statement returns. *)
Definition any_code (code : Z) : Prop := True.

(** The input stream of [loadDatabase] between two turns of its loop: the
    text not yet consumed and the two condition bits the loop depends on. *)
Record istream : Type := mkStream {
  pending : string;
  eofbit : bool;
  failbit : bool
}.

(** The stream just opened on a text. *)
Definition fresh (text : string) : istream := mkStream text false false.

Inductive turn_result : Type :=
| Goes_on (st : istream)   (* [push_back], and on to the test of the loop *)
| Leaves                   (* the loop is left and [loadDatabase] returns *)
| Overruns.                (* a word went past the end of its buffer *)

(** One turn: the test [!input.eof()], the nine extractions, the [break]
    on [input.eof()], the [push_back].  On a stream whose [failbit] is set
    an extraction does nothing, so none of them can set [eofbit]. *)
Definition loop_turn (st : istream) : turn_result :=
  if eofbit st then Leaves
  else if failbit st then Goes_on st
  else match read_record (pending st) with
       | Value _ rest => Goes_on (mkStream rest false false)
       | AtEof => Leaves
       | Failed => Goes_on (mkStream (pending st) false true)
       | Overrun => Overruns
       end.

(** Where the loop stands after [n] turns, if it has not ended before. *)
Fixpoint after_turns (n : nat) (st : istream) : turn_result :=
  match n with
  | O => Goes_on st
  | S k =>
      match loop_turn st with
      | Goes_on st' => after_turns k st'
      | r => r
      end
  end.

(** *** The run as the actions of the schedule *)

(** The state in which the first loop starts once the data file has
    loaded. *)
Definition loaded_state (w : world) (acc_0 acc2_0 : ptr) (argv : list string)
                        (loaded : list Account) : state :=
  mkState (sortArgs [] argv) (std_sort w loaded) acc_0 acc2_0 (help_output argv) [].

(** The action that goes with a code. *)
Definition action_of (w : world) (c : ascii) : M unit :=
  if Ascii.eqb c O_CHANGE_AREA then case_CHANGE_AREA
  else if Ascii.eqb c O_CHANGE_F then case_CHANGE_F
  else if Ascii.eqb c O_CHANGE_PHONE then case_CHANGE_PHONE
  else if Ascii.eqb c O_CHANGE_L then case_CHANGE_L
  else if Ascii.eqb c O_CHANGE_M then case_CHANGE_M
  else if Ascii.eqb c O_CHANGE_SSN then case_CHANGE_SSN
  else if Ascii.eqb c O_TRANS then case_TRANS
  else if Ascii.eqb c O_NEWPASS then case_NEWPASS
  else if Ascii.eqb c O_INFO then case_INFO
  else if Ascii.eqb c O_REPORT then case_REPORT w
  else ret tt.

(** A mutation action at its turn: the action, and then the account it
    worked on is remembered for the next. *)
Definition mutation_turn (w : world) (c : ascii) : M unit :=
  update_state (enter c) ;;
  action_of w c ;;
  update_state (fun s => set_acc2 (acc s) s).

(** An action of the second pass at its turn. *)
Definition second_turn (w : world) (c : ascii) : M unit :=
  update_state (enter c) ;;
  action_of w c.

(** The supplied mutation actions, one after the other in the order of
    [mutation_order]; then the supplied actions of the second pass in the
    order of [second_order]; then success.  An action that returns or has no
    defined behaviour ends the sequence. *)
Definition in_priority_order (w : world) (argv : list string) : M unit :=
  for_each (mutation_turn w) (filter (present argv) mutation_order) ;;
  for_each (second_turn w) (filter (present argv) second_order) ;;
  return_ 0.

(** The turn of a key that is no mutation code consists of [acc2 = acc]
    alone.  That shows only when such a key is the first of the map, before
    any mutation action has run: then [acc2] holds what [acc] held at its
    declaration. *)
Definition lead (s : state) : state :=
  match keys (args s) with
  | k :: _ => if among mutation_order k then s else set_acc2 (acc s) s
  | [] => s
  end.

(** A command line on which the phone switch and the credentials of the
    first account come first, the area switch and the credentials of the
    second account last; and the same switches with the area switch
    first. *)
Definition priority_argv : list string :=
  ["bankacct"; "/H1112222"; "/NA0001"; "/PABC123"; "/Dbank.db"; "/A777"; "/NA0002";
   "/PXYZ789"].
Definition priority_argv_reordered : list string :=
  ["bankacct"; "/Dbank.db"; "/A777"; "/NA0001"; "/PABC123"; "/NA0002"; "/H1112222";
   "/PXYZ789"].

(** *** The write-back *)



(** A data file whose balances have more than six significant digits. *)
Definition cents_text : string :=
  lines ["Doe Jane J 123456789 555 5551234 12345.67 A0001 ABC123";
         "Roe Rick R 987654321 555 5554321 1234567.89 A0002 XYZ789"].

Definition cents_world : world :=
  mkWorld (fun f => if String.eqb f "bank.db" then Some cents_text else None)
          (fun _ => true) (fun _ => true) sort.

(** The accounts of that file, and the accounts of the file the run leaves:
    the balances are 12345.67 and 1234567.89 before, 12345.7 and 1234570
    after. *)
Definition cents_accounts : list Account :=
  [mkAccount "Jane" "Doe" "J" 123456789 555 5551234 (of_decimal false 1234567 (-2))
             "A0001" "ABC123" 11;
   mkAccount "Rick" "Roe" "R" 987654321 555 5554321 (of_decimal false 123456789 (-2))
             "A0002" "XYZ789" 11].

Definition cents_written : string :=
  lines ["Doe"; "Jane"; "J"; "123456789"; "555"; "5551234"; "12345.7"; "A0001"; "ABC123"; "";
         "Roe"; "Rick"; "R"; "987654321"; "555"; "5554321"; "1.23457e+06"; "A0002";
         "XYZ789"; ""].

Definition cents_reloaded : list Account :=
  [mkAccount "Jane" "Doe" "J" 123456789 555 5551234 (of_decimal false 123457 (-1))
             "A0001" "ABC123" 11;
   mkAccount "Rick" "Roe" "R" 987654321 555 5554321 (of_decimal false 123457 1)
             "A0002" "XYZ789" 11].

(** *** Statements and the store *)

(** A statement that leaves the store as it is, however it ends. *)
Definition untouched {A : Type} (m : M A) : Prop :=
  forall s r s', m s = (r, s') -> people s' = people s.

(** A statement that does not execute a [return]. *)
Definition no_return {A : Type} (m : M A) : Prop :=
  forall s code s', m s <> (Return code, s').

(** A statement that has left the store as it was whenever it executes a
    [return]. *)
Definition returns_clean {A : Type} (m : M A) : Prop :=
  forall s code s', m s = (Return code, s') -> people s' = people s.

End Terms.

(** * Properties *)

Import CLib Regex Args Str Double Store Stream Loader Engine Wording Scenario.
Import ReportText Terms.

(** ** The option collector *)

Module ArgsFacts.

Lemma sortArgs_step_switch args arg :
  sortArgs_step args arg =
  match switch_of arg with
  | None => args
  | Some (k, v) =>
      match find args k with
      | None => insert args k [v]
      | Some _ => update args k (fun vec => vec ++ [v])
      end
  end.
Proof.
  unfold sortArgs_step, switch_of.
  destruct arg as [|a0 [|a1 value]]; try reflexivity.
  destruct (Ascii.eqb a0 SLASH); reflexivity.
Qed.

Lemma find_insert_same args c vec :
  find args c = None -> find (insert args c vec) c = Some vec.
Proof.
  induction args as [|[k v] rest IH]; simpl; intros H.
  - now rewrite Ascii.eqb_refl.
  - destruct (Ascii.eqb k c) eqn:E; [discriminate|].
    destruct (key_lt c k); simpl.
    + now rewrite Ascii.eqb_refl.
    + rewrite E; auto.
Qed.

Lemma find_insert_other args c k vec :
  k <> c -> find (insert args c vec) k = find args k.
Proof.
  intros Hne.
  induction args as [|[k' v] rest IH]; simpl.
  - destruct (Ascii.eqb_spec c k); congruence.
  - destruct (key_lt c k'); simpl.
    + destruct (Ascii.eqb_spec c k); congruence.
    + destruct (Ascii.eqb k' c); simpl; [reflexivity|].
      now rewrite IH.
Qed.

Lemma find_update_same args c f :
  find (update args c f) c = option_map f (find args c).
Proof.
  induction args as [|[k v] rest IH]; simpl; [reflexivity|].
  destruct (Ascii.eqb k c) eqn:E; simpl; rewrite E; auto.
Qed.

Lemma find_update_other args c k f :
  k <> c -> find (update args c f) k = find args k.
Proof.
  intros Hne.
  induction args as [|[k' v] rest IH]; simpl; [reflexivity|].
  destruct (Ascii.eqb_spec k' c); simpl.
  - subst. destruct (Ascii.eqb_spec c k); congruence.
  - now rewrite IH.
Qed.

Lemma keys_update args c f : keys (update args c f) = keys args.
Proof.
  unfold keys.
  induction args as [|[k v] rest IH]; simpl; [reflexivity|].
  destruct (Ascii.eqb k c); simpl; congruence.
Qed.

(** After [sortArgs], the vector under a code holds what was under it
    before followed by the values supplied for it, in supply order; a code
    is a key only if it was one before or a value was supplied. *)
Lemma find_sortArgs argv : forall args c,
  find (sortArgs args argv) c =
  match find args c, supplied c argv with
  | None, [] => None
  | None, l => Some l
  | Some q, l => Some (q ++ l)
  end.
Proof.
  induction argv as [|arg argv IH]; intros args c; simpl.
  - destruct (find args c); [now rewrite app_nil_r | reflexivity].
  - unfold sortArgs in *. rewrite IH, sortArgs_step_switch. clear IH.
    destruct (switch_of arg) as [[k v]|]; simpl; [|reflexivity].
    destruct (Ascii.eqb_spec k c) as [->|Hne].
    + destruct (find args c) as [q|] eqn:F.
      * rewrite find_update_same, F. simpl. now rewrite <- app_assoc.
      * rewrite find_insert_same by assumption. reflexivity.
    + destruct (find args k) as [q|] eqn:F.
      * rewrite find_update_other by congruence. reflexivity.
      * rewrite find_insert_other by congruence. reflexivity.
Qed.

Lemma yankArg_cons args c v q :
  find args c = Some (v :: q) ->
  yankArg args c = (Some v, update args c (@tl string)) /\
  find (update args c (@tl string)) c = Some q.
Proof.
  intros F. unfold yankArg. rewrite F. split; [reflexivity|].
  now rewrite find_update_same, F.
Qed.

Lemma yankArg_exhausted args c :
  find args c = Some [] \/ find args c = None -> yankArg args c = (None, args).
Proof. unfold yankArg. now intros [-> | ->]. Qed.

Lemma yank_times_exhausted n args c :
  yankArg args c = (None, args) -> yank_times n args c = args.
Proof.
  intros H. induction n as [|n IH]; simpl; [reflexivity|].
  now rewrite H.
Qed.

(** C5.  When exactly two values were supplied for a code, the first
    [yankArg] on that code returns the first of them and leaves the second
    queued, the second call returns the second and leaves the queue empty,
    and every later call returns the null pointer and changes nothing.  A
    code for which nothing was supplied yields the null pointer at every
    call. *)
Theorem yank_two_values (argv : list string) (c : ascii) :
  (forall v1 v2, supplied c argv = [v1; v2] ->
     exists m1 m2,
       yankArg (sortArgs [] argv) c = (Some v1, m1) /\
       find m1 c = Some [v2] /\
       yankArg m1 c = (Some v2, m2) /\
       find m2 c = Some [] /\
       forall n, yankArg (yank_times n m2 c) c = (None, m2)) /\
  (supplied c argv = [] ->
     forall n, yankArg (yank_times n (sortArgs [] argv) c) c = (None, sortArgs [] argv)).
Proof.
  split.
  - intros v1 v2 Hs.
    pose proof (find_sortArgs argv [] c) as F. rewrite Hs in F. simpl in F.
    destruct (yankArg_cons _ _ _ _ F) as [Y1 F1].
    destruct (yankArg_cons _ _ _ _ F1) as [Y2 F2].
    eexists _, _. repeat split; try eassumption.
    intros n.
    assert (E : yankArg (update (update (sortArgs [] argv) c (@tl string)) c (@tl string)) c
                = (None, update (update (sortArgs [] argv) c (@tl string)) c (@tl string)))
      by (apply yankArg_exhausted; now left).
    now rewrite (yank_times_exhausted n _ _ E).
  - intros Hs n.
    pose proof (find_sortArgs argv [] c) as F. rewrite Hs in F. simpl in F.
    assert (E : yankArg (sortArgs [] argv) c = (None, sortArgs [] argv))
      by (apply yankArg_exhausted; now right).
    now rewrite (yank_times_exhausted n _ _ E).
Qed.

Lemma yank_two_values_witness :
  exists m1 m2,
    yankArg (sortArgs [] two_numbers_argv) O_NUM = (Some "A0001", m1) /\
    yankArg m1 O_NUM = (Some "A0002", m2) /\
    yankArg m2 O_NUM = (None, m2) /\
    yankArg (sortArgs [] two_numbers_argv) O_TRANS = (None, sortArgs [] two_numbers_argv).
Proof.
  destruct (yank_two_values two_numbers_argv O_NUM) as [H _].
  destruct (H "A0001" "A0002" eq_refl) as (m1 & m2 & Y1 & _ & Y2 & _ & Y3).
  destruct (yank_two_values two_numbers_argv O_TRANS) as [_ H0].
  exists m1, m2.
  split; [exact Y1 | split; [exact Y2 | split; [exact (Y3 0%nat) | exact (H0 eq_refl 0%nat)]]].
Defined.

End ArgsFacts.

(** ** Statements of the engine *)

Module EngineFacts.

Lemma bind_Next {A B} (m : M A) (k : A -> M B) s a s1 :
  m s = (Next a, s1) -> bind m k s = k a s1.
Proof. unfold bind. now intros ->. Qed.

Lemma bind_inv {A B} (m : M A) (k : A -> M B) s r s' :
  bind m k s = (r, s') ->
  (exists a s1, m s = (Next a, s1) /\ k a s1 = (r, s')) \/
  (exists code, m s = (Return code, s') /\ r = Return code) \/
  (m s = (Undefined, s') /\ r = Undefined).
Proof.
  unfold bind. destruct (m s) as [[a|code|] s1]; intros H.
  - left. eauto.
  - right. left. inversion H; subst. eauto.
  - right. right. inversion H; subst. eauto.
Qed.


(** *** A frame rule for the statements of [parseArgs] *)
Section Frame.
Variable R : state -> state -> Prop.
Variable P : Z -> Prop.
Hypothesis R_refl : forall s, R s s.
Hypothesis R_trans : forall a b c, R a b -> R b c -> R a c.
Hypothesis R_yank : forall c s, R s (set_args (snd (yankArg (args s) c)) s).
Hypothesis R_people : forall v s, R s (set_people v s).
Hypothesis R_acc : forall v s, R s (set_acc v s).
Hypothesis R_acc2 : forall v s, R s (set_acc2 v s).
Hypothesis P_account : P ERR_NO_ACCOUNT.
Hypothesis P_info : P ERR_NO_INFO.
Hypothesis P_target : P ERR_NO_TRANSFER_ACCOUNT.
Hypothesis P_much : P ERR_TOO_MUCH_TRANSFER.
Hypothesis P_report : P ERR_REPORT_FILE_ERR.
Hypothesis R_emit : forall e s, quiet e -> R s (emit e s).


Lemma respects_ret {A} (a : A) : respects R P (ret a).
Proof. intros s r s' H. inversion H; subst. split; [apply R_refl | discriminate]. Qed.

Lemma respects_read {A} (f : state -> A) : respects R P (read f).
Proof. intros s r s' H. inversion H; subst. split; [apply R_refl | discriminate]. Qed.

Lemma respects_undefined {A} : respects R P (@undefined A).
Proof. intros s r s' H. inversion H; subst. split; [apply R_refl | discriminate]. Qed.

Lemma respects_return {A} code : P code -> respects R P (@return_ A code).
Proof.
  intros Hp s r s' H. inversion H; subst. split; [apply R_refl|].
  intros c E. now inversion E; subst.
Qed.

Lemma respects_update f : (forall s, R s (f s)) -> respects R P (update_state f).
Proof. intros Hf s r s' H. inversion H; subst. split; [apply Hf | discriminate]. Qed.

Lemma respects_bind {A B} (m : M A) (k : A -> M B) :
  respects R P m -> (forall a, respects R P (k a)) -> respects R P (bind m k).
Proof.
  intros Hm Hk s r s' H.
  destruct (bind_inv _ _ _ _ _ H) as [(a & s1 & E1 & E2) | [(code & E1 & ->) | (E1 & ->)]].
  - destruct (Hm _ _ _ E1) as [R1 _]. destruct (Hk a _ _ _ E2) as [R2 P2].
    split; [eapply R_trans; eassumption | assumption].
  - destruct (Hm _ _ _ E1) as [R1 P1]. split; [assumption|].
    intros c E. inversion E; subst. now apply P1.
  - destruct (Hm _ _ _ E1) as [R1 _]. split; [assumption | discriminate].
Qed.

Lemma respects_yank c : respects R P (yank c).
Proof.
  intros s r s' H. unfold yank in H. pose proof (R_yank c s) as Hy.
  destruct (yankArg (args s) c) as [v m].
  inversion H; subst. split; [exact Hy | discriminate].
Qed.

Ltac frame :=
  repeat first
    [ apply respects_ret | apply respects_read | apply respects_undefined
    | apply respects_yank
    | apply respects_return; assumption
    | apply respects_update; intros; auto
    | apply respects_bind; [|intros]
    | match goal with
      | |- respects R P (match ?x with _ => _ end) => destruct x
      | |- respects R P (if ?b then _ else _) => destruct b
      end ].

Lemma respects_lookup : respects R P lookup.
Proof. unfold lookup. frame. Qed.

Lemma respects_resolve : respects R P resolve.
Proof. unfold resolve. apply respects_bind; [apply respects_lookup|intros]. frame. Qed.

Lemma respects_deref p : respects R P (deref p).
Proof. unfold deref. frame. Qed.

Lemma respects_assign p f : respects R P (assign p f).
Proof. unfold assign. apply respects_bind; [apply respects_deref|intros]. frame. Qed.

Lemma respects_strcpy cap p f buf : respects R P (strcpy cap p f buf).
Proof. unfold strcpy. destruct (_ <? _)%nat; [frame | apply respects_assign]. Qed.

Lemma respects_yank_matching c r : respects R P (yank_matching c r).
Proof. unfold yank_matching. frame. Qed.

Ltac frame_case :=
  repeat first
    [ apply respects_resolve | apply respects_lookup | apply respects_yank_matching
    | apply respects_assign | apply respects_strcpy | apply respects_deref
    | apply respects_ret | apply respects_read | apply respects_undefined
    | apply respects_yank
    | apply respects_return; assumption
    | apply respects_update; intros; auto
    | apply respects_bind; [|intros]
    | match goal with
      | |- respects R P (match ?x with _ => _ end) => destruct x
      | |- respects R P (if ?b then _ else _) => destruct b
      end ].

Lemma respects_case_CHANGE_AREA : respects R P case_CHANGE_AREA.
Proof. unfold case_CHANGE_AREA. frame_case. Qed.
Lemma respects_case_CHANGE_F : respects R P case_CHANGE_F.
Proof. unfold case_CHANGE_F. frame_case. Qed.
Lemma respects_case_CHANGE_PHONE : respects R P case_CHANGE_PHONE.
Proof. unfold case_CHANGE_PHONE. frame_case. Qed.
Lemma respects_case_CHANGE_L : respects R P case_CHANGE_L.
Proof. unfold case_CHANGE_L. frame_case. Qed.
Lemma respects_case_CHANGE_M : respects R P case_CHANGE_M.
Proof. unfold case_CHANGE_M. frame_case. Qed.
Lemma respects_case_CHANGE_SSN : respects R P case_CHANGE_SSN.
Proof. unfold case_CHANGE_SSN. frame_case. Qed.
Lemma respects_case_TRANS : respects R P case_TRANS.
Proof. unfold case_TRANS. frame_case. Qed.
Lemma respects_case_NEWPASS : respects R P case_NEWPASS.
Proof. unfold case_NEWPASS. frame_case. Qed.

Lemma respects_case_INFO : respects R P case_INFO.
Proof.
  unfold case_INFO. frame_case.
  - destruct (acc2 s); auto.
  - apply R_emit. exact I.
Qed.
Lemma respects_case_REPORT w : respects R P (case_REPORT w).
Proof. unfold case_REPORT. frame_case. apply R_emit. exact I. Qed.

End Frame.



Lemma steady_refl s : steady s s.
Proof. repeat split. exists []. now rewrite app_nil_r. Qed.

Lemma steady_trans a b c : steady a b -> steady b c -> steady a c.
Proof.
  intros (V1 & K1 & e1 & O1 & Q1) (V2 & K2 & e2 & O2 & Q2).
  repeat split; try congruence.
  exists (e1 ++ e2). split.
  - rewrite O2, O1. now rewrite app_assoc.
  - apply Forall_app. now split.
Qed.

Lemma keys_yankArg m c : keys (snd (yankArg m c)) = keys m.
Proof.
  unfold yankArg. destruct (find m c) as [[|v q]|]; simpl; try reflexivity.
  unfold keys. induction m as [|[k x] rest IH]; simpl; [reflexivity|].
  destruct (Ascii.eqb k c); simpl; congruence.
Qed.

Lemma steady_yank c s : steady s (set_args (snd (yankArg (args s) c)) s).
Proof.
  repeat split; simpl. - apply keys_yankArg. - exists []. now rewrite app_nil_r.
Qed.

Lemma steady_emit e s : quiet e -> steady s (emit e s).
Proof. intros Q. repeat split. exists [e]. split; [reflexivity | now constructor]. Qed.


Ltac steady_side :=
  first [ exact steady_refl | exact steady_trans | exact steady_yank | exact steady_emit
        | (intros; apply steady_refl) | (unfold nonzero; discriminate)
        | (intros; repeat split; exists []; now rewrite app_nil_r) ].

Lemma steady_first_case c (m : M unit) s r s' :
  respects steady nonzero m ->
  (update_state (enter c) ;; m) s = (r, s') ->
  visited s' = visited s ++ [c] /\ keys (args s') = keys (args s) /\
  (exists evs, out s' = out s ++ evs /\ Forall quiet evs) /\
  forall code, r = Return code -> code <> 0.
Proof.
  intros Hm H. unfold bind, update_state in H.
  destruct (Hm _ _ _ H) as [(V & K & O) Pc]. simpl in *.
  repeat split; assumption.
Qed.




Lemma first_switch_visits c s r s' :
  first_switch c s = (r, s') -> visits (among mutation_order) c r s s'.
Proof.
  unfold first_switch, visits, among, is_code, mutation_order. simpl existsb.
  repeat match goal with
  | |- (if Ascii.eqb c ?k then _ else _) _ = _ -> _ =>
      destruct (Ascii.eqb c k) eqn:?; simpl orb;
      [ intros H; eapply steady_first_case; [|exact H] |]
  end.
  9: { intros H. inversion H; subst. rewrite app_nil_r. repeat split.
       - exists []. now rewrite app_nil_r. - discriminate. }
  - apply respects_case_CHANGE_AREA; steady_side.
  - apply respects_case_CHANGE_F; steady_side.
  - apply respects_case_CHANGE_PHONE; steady_side.
  - apply respects_case_CHANGE_L; steady_side.
  - apply respects_case_CHANGE_M; steady_side.
  - apply respects_case_CHANGE_SSN; steady_side.
  - apply respects_case_TRANS; steady_side.
  - apply respects_case_NEWPASS; steady_side.
Qed.

Lemma first_body_visits c s r s' :
  first_body c s = (r, s') -> visits (among mutation_order) c r s s'.
Proof.
  unfold first_body. intros H.
  destruct (bind_inv _ _ _ _ _ H) as [(a & s1 & E1 & E2) | [(code & E1 & ->) | (E1 & ->)]].
  - inversion E2; subst. apply first_switch_visits in E1.
    destruct E1 as (V & K & O & Pc). repeat split; try assumption. discriminate.
  - now apply first_switch_visits in E1.
  - now apply first_switch_visits in E1.
Qed.

Lemma second_body_visits w c s r s' :
  second_body w c s = (r, s') -> visits (among second_order) c r s s'.
Proof.
  unfold second_body, visits, among, is_code, second_order. simpl existsb.
  repeat match goal with
  | |- (if Ascii.eqb c ?k then _ else _) _ = _ -> _ =>
      destruct (Ascii.eqb c k) eqn:?; simpl orb;
      [ intros H; eapply steady_first_case; [|exact H] |]
  end.
  3: { intros H. inversion H; subst. rewrite app_nil_r. repeat split.
       - exists []. now rewrite app_nil_r. - discriminate. }
  - apply respects_case_INFO; steady_side.
  - apply respects_case_REPORT; steady_side.
Qed.

(** A loop over the keys enters the selected cases in key order, up to the
    first that returns. *)
Section Loop.
Variable body : ascii -> M unit.
Variable sel : ascii -> bool.
Hypothesis body_visits : forall c s r s', body c s = (r, s') -> visits sel c r s s'.

Lemma for_each_visits ks : forall s r s',
  for_each body ks s = (r, s') ->
  exists seen,
    visited s' = visited s ++ seen /\
    (exists rest, filter sel ks = seen ++ rest) /\
    (forall a, r = Next a -> seen = filter sel ks) /\
    keys (args s') = keys (args s) /\
    (exists evs, out s' = out s ++ evs /\ Forall quiet evs) /\
    forall code, r = Return code -> code <> 0.
Proof.
  induction ks as [|c ks IH]; intros s r s' H; simpl in H.
  - inversion H; subst. exists []. rewrite app_nil_r.
    repeat split; try discriminate.
    + now exists [].
    + exists []. now rewrite app_nil_r.
  - destruct (bind_inv _ _ _ _ _ H) as [(a & s1 & E1 & E2) | [(code & E1 & ->) | (E1 & ->)]].
    + apply body_visits in E1. destruct E1 as (V1 & K1 & (e1 & O1 & Q1) & _).
      destruct (IH _ _ _ E2) as (seen & V2 & (rest & F2) & N2 & K2 & (e2 & O2 & Q2) & P2).
      exists ((if sel c then [c] else []) ++ seen). simpl.
      repeat split.
      * rewrite V2, V1. now rewrite app_assoc.
      * exists rest. destruct (sel c); simpl; now rewrite F2.
      * intros x Hx. rewrite (N2 x Hx). now destruct (sel c).
      * congruence.
      * exists (e1 ++ e2). split; [rewrite O2, O1; now rewrite app_assoc|].
        apply Forall_app. now split.
      * assumption.
    + apply body_visits in E1. destruct E1 as (V1 & K1 & O1 & P1).
      exists (if sel c then [c] else []). simpl. repeat split; try assumption; try discriminate.
      exists (filter sel ks). now destruct (sel c).
    + apply body_visits in E1. destruct E1 as (V1 & K1 & O1 & P1).
      exists (if sel c then [c] else []). simpl. repeat split; try assumption; try discriminate.
      exists (filter sel ks). now destruct (sel c).
Qed.
End Loop.

End EngineFacts.

(** ** The order of evaluation *)

Module OrderFacts.
Import ArgsFacts EngineFacts.

Lemma code_inj a b : code a = code b -> a = b.
Proof.
  unfold code. intros H.
  rewrite <- (ascii_nat_embedding a), <- (ascii_nat_embedding b). now rewrite H.
Qed.

Lemma char_value_inj a b : char_value a = char_value b -> a = b.
Proof.
  unfold char_value. intros H. apply code_inj.
  assert (Ha : (code a < 256)%nat) by apply nat_ascii_bounded.
  assert (Hb : (code b < 256)%nat) by apply nat_ascii_bounded.
  destruct (Nat.ltb_spec (code a) 128), (Nat.ltb_spec (code b) 128); lia.
Qed.

Lemma key_lt_spec a b : key_lt a b = true <-> code_lt a b.
Proof. unfold key_lt, code_lt. apply Z.ltb_lt. Qed.

Lemma in_keys_find args c : In c (keys args) <-> find args c <> None.
Proof.
  unfold keys. induction args as [|[k v] rest IH]; simpl.
  - split; [tauto | congruence].
  - destruct (Ascii.eqb_spec k c).
    + split; [discriminate | auto].
    + rewrite IH. split; [intros [?|?]; [contradiction | assumption] | auto].
Qed.

Lemma keys_insert_in args c vec x :
  In x (keys (insert args c vec)) -> x = c \/ In x (keys args).
Proof.
  unfold keys. induction args as [|[k v] rest IH]; simpl.
  - intros [<-|[]]. now left.
  - destruct (key_lt c k); simpl.
    + intros [<-|H]; auto.
    + destruct (Ascii.eqb k c); simpl; [auto|].
      intros [<-|H]; auto. destruct (IH H); auto.
Qed.

Lemma sorted_insert args c vec :
  StronglySorted code_lt (keys args) -> StronglySorted code_lt (keys (insert args c vec)).
Proof.
  unfold keys. induction args as [|[k v] rest IH]; simpl; intros S.
  - repeat constructor.
  - inversion S as [|? ? S' F]; subst.
    destruct (key_lt c k) eqn:L; simpl.
    + apply key_lt_spec in L. constructor; [assumption|].
      constructor; [assumption|].
      eapply Forall_impl; [|exact F]. unfold code_lt in *. intros; lia.
    + destruct (Ascii.eqb_spec k c); simpl; [assumption|].
      constructor; [now apply IH|].
      apply Forall_forall. intros x Hx.
      destruct (keys_insert_in _ _ _ _ Hx) as [->|Hin].
      * assert (~ code_lt c k) by (rewrite <- key_lt_spec; congruence).
        assert (char_value k <> char_value c) by (intros E; now apply char_value_inj in E).
        unfold code_lt in *. lia.
      * rewrite Forall_forall in F. now apply F.
Qed.

Lemma sorted_sortArgs argv : forall args,
  StronglySorted code_lt (keys args) -> StronglySorted code_lt (keys (sortArgs args argv)).
Proof.
  induction argv as [|arg argv IH]; intros args S; simpl; [assumption|].
  apply IH. rewrite sortArgs_step_switch.
  destruct (switch_of arg) as [[k v]|]; [|assumption].
  destruct (find args k).
  - now rewrite keys_update.
  - now apply sorted_insert.
Qed.

(** Two strictly increasing lists with the same members are equal. *)
Lemma sorted_same_members (l1 : list ascii) : forall l2,
  StronglySorted code_lt l1 -> StronglySorted code_lt l2 ->
  (forall x, In x l1 <-> In x l2) -> l1 = l2.
Proof.
  induction l1 as [|a l1 IH]; intros [|b l2] S1 S2 M.
  - reflexivity.
  - destruct (proj2 (M b)). now left.
  - destruct (proj1 (M a)). now left.
  - inversion S1 as [|? ? S1' F1]; inversion S2 as [|? ? S2' F2]; subst.
    rewrite Forall_forall in F1, F2.
    assert (a = b) as ->.
    { destruct (proj1 (M a) (or_introl eq_refl)) as [E|Ha]; [auto|].
      destruct (proj2 (M b) (or_introl eq_refl)) as [E|Hb]; [auto|].
      specialize (F1 _ Hb). specialize (F2 _ Ha). unfold code_lt in *. lia. }
    f_equal. apply IH; try assumption.
    intros x. split; intros Hx.
    + destruct (proj1 (M x) (or_intror Hx)) as [E|H]; [|assumption].
      subst. specialize (F1 _ Hx). unfold code_lt in F1. lia.
    + destruct (proj2 (M x) (or_intror Hx)) as [E|H]; [|assumption].
      subst. specialize (F2 _ Hx). unfold code_lt in F2. lia.
Qed.

Lemma sorted_filter (p : ascii -> bool) l :
  StronglySorted code_lt l -> StronglySorted code_lt (filter p l).
Proof.
  induction 1 as [|a l S IH F]; simpl; [constructor|].
  destruct (p a); [|assumption].
  constructor; [assumption|].
  rewrite Forall_forall in *. intros x Hx. apply F.
  now apply filter_In in Hx.
Qed.

Lemma among_In l c : among l c = true <-> In c l.
Proof.
  unfold among. rewrite existsb_exists. split.
  - intros (x & Hx & E). apply Ascii.eqb_eq in E. now subst.
  - intros H. exists c. split; [assumption | apply Ascii.eqb_refl].
Qed.

Lemma present_keys argv c : present argv c = true <-> In c (keys (sortArgs [] argv)).
Proof.
  rewrite in_keys_find, find_sortArgs. unfold present. simpl.
  destruct (supplied c argv); split; congruence.
Qed.

Lemma sorted_mutation_order : StronglySorted code_lt mutation_order.
Proof.
  unfold mutation_order.
  repeat (constructor; [|repeat constructor; unfold code_lt; simpl; lia]).
  constructor.
Qed.

Lemma sorted_second_order : StronglySorted code_lt second_order.
Proof.
  unfold second_order.
  repeat (constructor; [|repeat constructor; unfold code_lt; simpl; lia]).
  constructor.
Qed.

(** The cases a loop over the keys selects are the codes of [order] that
    were supplied, in the order of [order]. *)
Lemma keys_select order argv :
  StronglySorted code_lt order ->
  filter (among order) (keys (sortArgs [] argv)) = filter (present argv) order.
Proof.
  intros S. apply sorted_same_members.
  - apply sorted_filter, sorted_sortArgs. constructor.
  - now apply sorted_filter.
  - intros x. rewrite !filter_In, among_In, present_keys. tauto.
Qed.

Lemma supplied_perm c argv argv' :
  Permutation argv argv' -> Permutation (supplied c argv) (supplied c argv').
Proof. intros H. unfold supplied. now apply Permutation_flat_map. Qed.

Lemma present_perm argv argv' c :
  Permutation argv argv' -> present argv' c = present argv c.
Proof.
  intros H. apply (supplied_perm c) in H. unfold present.
  destruct (supplied c argv) eqn:E1, (supplied c argv') eqn:E2; try reflexivity.
  - apply Permutation_nil in H. discriminate.
  - apply Permutation_sym, Permutation_nil in H. discriminate.
Qed.

Lemma schedule_perm argv argv' :
  Permutation argv argv' -> schedule argv' = schedule argv.
Proof.
  intros H. unfold schedule. f_equal; apply filter_ext; intros c; now apply present_perm.
Qed.

Lemma actions_visits w s r s' :
  actions w s = (r, s') ->
  exists seen,
    visited s' = visited s ++ seen /\
    (exists rest, filter (among mutation_order) (keys (args s)) ++
                  filter (among second_order) (keys (args s)) = seen ++ rest) /\
    (r = Return 0 -> seen = filter (among mutation_order) (keys (args s)) ++
                           filter (among second_order) (keys (args s))) /\
    (exists evs, out s' = out s ++ evs /\ Forall quiet evs) /\
    r <> Next tt.
Proof.
  unfold actions, over_args. intros H.
  destruct (bind_inv _ _ _ _ _ H) as [(a & s1 & E1 & E2) | [(code & E1 & ->) | (E1 & ->)]].
  - apply (for_each_visits _ _ first_body_visits) in E1.
    destruct E1 as (seen1 & V1 & _ & N1 & K1 & (e1 & O1 & Q1) & _).
    specialize (N1 a eq_refl). subst seen1.
    destruct (bind_inv _ _ _ _ _ E2) as [(b & s2 & E3 & E4) | [(code & E3 & ->) | (E3 & ->)]].
    + apply (for_each_visits _ _ (second_body_visits w)) in E3.
      destruct E3 as (seen2 & V2 & _ & N2 & K2 & (e2 & O2 & Q2) & _).
      specialize (N2 b eq_refl). subst seen2.
      inversion E4; subst.
      exists (filter (among mutation_order) (keys (args s)) ++
              filter (among second_order) (keys (args s))). repeat split.
      * rewrite V2, V1, <- app_assoc, K1. reflexivity.
      * exists []. now rewrite app_nil_r.
      * exists (e1 ++ e2). split; [rewrite O2, O1; now rewrite app_assoc|].
        apply Forall_app. now split.
      * discriminate.
    + apply (for_each_visits _ _ (second_body_visits w)) in E3.
      destruct E3 as (seen2 & V2 & (rest & F2) & _ & K2 & (e2 & O2 & Q2) & P2).
      exists (filter (among mutation_order) (keys (args s)) ++ seen2). repeat split.
      * rewrite V2, V1, <- app_assoc. reflexivity.
      * exists rest. rewrite <- K1, F2. now rewrite app_assoc.
      * intros E. inversion E; subst. now destruct (P2 0 eq_refl).
      * exists (e1 ++ e2). split; [rewrite O2, O1; now rewrite app_assoc|].
        apply Forall_app. now split.
      * discriminate.
    + apply (for_each_visits _ _ (second_body_visits w)) in E3.
      destruct E3 as (seen2 & V2 & (rest & F2) & _ & K2 & (e2 & O2 & Q2) & P2).
      exists (filter (among mutation_order) (keys (args s)) ++ seen2). repeat split.
      * rewrite V2, V1, <- app_assoc. reflexivity.
      * exists rest. rewrite <- K1, F2. now rewrite app_assoc.
      * discriminate.
      * exists (e1 ++ e2). split; [rewrite O2, O1; now rewrite app_assoc|].
        apply Forall_app. now split.
      * discriminate.
  - apply (for_each_visits _ _ first_body_visits) in E1.
    destruct E1 as (seen1 & V1 & (rest & F1) & _ & K1 & O1 & P1).
    exists seen1. repeat split; try assumption; try discriminate.
    + exists (rest ++ filter (among second_order) (keys (args s))).
      rewrite F1. now rewrite app_assoc.
    + intros E. inversion E; subst. now destruct (P1 0 eq_refl).
  - apply (for_each_visits _ _ first_body_visits) in E1.
    destruct E1 as (seen1 & V1 & (rest & F1) & _ & K1 & O1 & P1).
    exists seen1. repeat split; try assumption; try discriminate.
    exists (rest ++ filter (among second_order) (keys (args s))).
    rewrite F1. now rewrite app_assoc.
Qed.

Lemma main_visits w acc_0 acc2_0 argv r s :
  main w acc_0 acc2_0 argv = (r, s) ->
  (exists rest, schedule argv = visited s ++ rest) /\
  (r = Return 0 -> visited s = schedule argv).
Proof.
  unfold main, parseArgs.
  set (s1 := if help_wanted _ then _ else _).
  assert (V1 : visited s1 = []) by (subst s1; now destruct (help_wanted _)).
  assert (A1 : args s1 = sortArgs [] argv) by (subst s1; now destruct (help_wanted _)).
  assert (early : forall r', r' <> Return 0 -> (r', s1) = (r, s) ->
            (exists rest, schedule argv = visited s ++ rest) /\
            (r = Return 0 -> visited s = schedule argv)).
  { intros r' Hr' E. inversion E; subst r s. rewrite V1. split; [eexists; reflexivity|].
    intros; contradiction. }
  destruct (find _ O_DATA) as [vec|]; [|apply early; discriminate].
  destruct (back vec) as [fileName|]; [|apply early; discriminate].
  destruct (loadDatabase _ _ _) as [loaded| |]; [| |apply early; discriminate].
  2: { intros E. inversion E; subst r s. simpl. rewrite V1.
       split; [eexists; reflexivity | discriminate]. }
  unfold shutdown. destruct (actions w _) as [r2 s2] eqn:E.
  apply actions_visits in E. destruct E as (seen & V & (rest & F) & C & _).
  simpl in V, F, C. rewrite V1 in V. rewrite A1 in F, C. simpl in V.
  rewrite !keys_select in F, C by (apply sorted_mutation_order || apply sorted_second_order).
  fold (schedule argv) in F, C.
  intros H.
  assert (Hv : visited s = seen)
    by (clear - H V; destruct r2; inversion H; subst s;
        try (unfold written_back; destruct (write_opens _ _)); simpl; exact V).
  assert (Hr : r = r2) by (clear - H; destruct r2; inversion H; reflexivity).
  subst r. rewrite Hv. split; [now exists rest | assumption].
Qed.

End OrderFacts.

(** ** Accounts, credentials and transfers *)

Module ClaimFacts.
Import ArgsFacts EngineFacts OrderFacts.

Lemma lookup_spec s :
  lookup s = (Next (findAccount (people s) (next_number s) (next_password s)),
              after_lookup s).
Proof.
  unfold lookup, bind, yank, read, ret, after_lookup, next_number, next_password.
  destruct (yankArg (args s) O_NUM) as [n m1]. simpl.
  destruct (yankArg m1 O_PASS) as [p m2]. reflexivity.
Qed.

Lemma resolve_spec s :
  resolve s =
  match findAccount (people s) (next_number s) (next_password s) with
  | Some i => (Next tt, set_acc (Some i) (after_lookup s))
  | None =>
      match acc2 s with
      | None => (Return ERR_NO_ACCOUNT, set_acc None (after_lookup s))
      | Some j => (Next tt, set_acc (Some j) (set_acc None (after_lookup s)))
      end
  end.
Proof.
  unfold resolve. rewrite (bind_Next _ _ _ _ _ (lookup_spec s)).
  destruct (findAccount _ _ _); [reflexivity|].
  unfold bind, update_state, read, return_. simpl. now destruct (acc2 s).
Qed.

Lemma findAccount_absent people n p :
  n = None \/ p = None -> findAccount people n p = None.
Proof. intros [-> | ->]; [reflexivity | now destruct n]. Qed.

Lemma all_in_name_head c r :
  all_in (re_class R_NAME) (String c r) = true -> In c name_class.
Proof.
  unfold R_NAME. cbn [all_in class_has re_class existsb item_has].
  intros H. apply andb_prop in H as [Hc _]. unfold name_class.
  repeat (apply orb_prop in Hc as [Hc|Hc];
          [apply Ascii.eqb_eq in Hc; subst; simpl; tauto|]).
  discriminate Hc.
Qed.

Lemma R_NAME_members v :
  regex_match v R_NAME = true -> forall c, In c (list_ascii_of_string v) -> In c name_class.
Proof.
  unfold regex_match. rewrite andb_true_r.
  induction v as [|d r IH]; simpl list_ascii_of_string; intros H c [].
  - subst. now apply all_in_name_head in H.
  - apply IH; [|assumption]. cbn [all_in] in H. now apply andb_prop in H as [_ H].
Qed.

Lemma R_NAME_atoi v : regex_match v R_NAME = true -> atoi v = 0.
Proof.
  unfold regex_match. rewrite andb_true_r. destruct v as [|c r]; [reflexivity|].
  intros H. apply all_in_name_head in H. unfold name_class in H. simpl in H.
  repeat (destruct H as [<-|H]; [reflexivity|]). contradiction.
Qed.

Lemma R_NAME_no_digit d r : isdigit d = true -> regex_match (String d r) R_NAME = false.
Proof.
  intros Hd. destruct (regex_match _ _) eqn:E; [|reflexivity].
  unfold regex_match in E. rewrite andb_true_r in E.
  apply all_in_name_head in E. unfold name_class in E. simpl in E.
  repeat (destruct E as [<-|E]; [discriminate|]). contradiction.
Qed.


Lemma modify_people_same f l :
  (forall a, f a = a) -> forall i, modify i f l = l.
Proof.
  intros Hf. induction l as [|a l IH]; intros [|i]; simpl; try reflexivity.
  - now rewrite Hf.
  - now rewrite IH.
Qed.

Lemma Forall2_same_amount_refl l : Forall2 same_amount l l.
Proof. induction l; constructor; [now left | assumption]. Qed.

Lemma modify_same_amount f l :
  (forall a, same_amount a (f a)) -> forall i, Forall2 same_amount l (modify i f l).
Proof.
  intros Hf. induction l as [|a l IH]; intros [|i]; simpl; try constructor;
    auto using Forall2_same_amount_refl. now left.
Qed.

Lemma set_balance_same a : set_balance (balance a) a = a.
Proof. now destruct a. Qed.

Lemma sub_zero x : sub x (of_int 0) = x.
Proof. destruct x as [[|]| | |]; reflexivity. Qed.

Lemma add_zero x : x <> S754_zero true -> add x (of_int 0) = x.
Proof. destruct x as [[|]| | |]; try reflexivity. congruence. Qed.

Lemma deref_inv p s a s1 :
  deref p s = (Next a, s1) ->
  s1 = s /\ exists i, p = Some i /\ nth_error (people s) i = Some a.
Proof.
  unfold deref, bind, read, ret, undefined. destruct p as [i|]; [|discriminate].
  destruct (nth_error (people s) i) eqn:E; [|discriminate].
  intros H. inversion H; subst. eauto.
Qed.

Lemma assign_inv p f s s1 :
  assign p f s = (Next tt, s1) ->
  exists i, p = Some i /\ s1 = set_people (modify i f (people s)) s.
Proof.
  unfold assign. intros H.
  destruct (bind_inv _ _ _ _ _ H) as [(a & s0 & E1 & E2) | [(c & _ & Hc) | (_ & Hc)]];
    try discriminate Hc.
  apply deref_inv in E1. destruct E1 as (-> & i & -> & _).
  inversion E2; subst. eauto.
Qed.

Lemma yank_matching_inv c r s b s1 :
  yank_matching c r s = (Next b, s1) ->
  regex_match b r = true /\ fst (yankArg (args s) c) = Some b /\
  s1 = set_args (snd (yankArg (args s) c)) s.
Proof.
  unfold yank_matching, bind, yank, ret, return_.
  destruct (yankArg (args s) c) as [[v|] m]; simpl; [|discriminate].
  destruct (regex_match v r) eqn:E; [|discriminate].
  intros H. inversion H; subst. auto.
Qed.

(** C10.  A string that passes the amount check (the pattern [R_NAME])
    converts to 0 under [atoi] and does not begin with a digit; so a
    transfer case that runs to its end leaves every account as it was, the
    amount of every balance included.  The one visible trace is in the
    floating-point sign of zero: adding 0 to a balance of negative zero
    gives positive zero. *)
Theorem transfer_moves_nothing :
  (forall v, regex_match v R_NAME = true ->
     atoi v = 0 /\ forall d r, v = String d r -> isdigit d = false) /\
  (forall s s', case_TRANS s = (Next tt, s') -> Forall2 same_amount (people s) (people s')).
Proof.
  split.
  - intros v Hv. split; [now apply R_NAME_atoi|].
    intros d r -> . destruct (isdigit d) eqn:Hd; [|reflexivity].
    rewrite (R_NAME_no_digit d r Hd) in Hv. discriminate.
  - intros s s' H. unfold case_TRANS in H.
    rewrite (bind_Next _ _ _ _ _ (lookup_spec s)) in H.
    unfold bind at 1, update_state at 1 in H.
    destruct (findAccount (people s) (next_number s) (next_password s)) as [i|];
      [|discriminate].
    set (sa := set_acc (Some i) (after_lookup s)) in H.
    rewrite (bind_Next _ _ _ _ _ (lookup_spec sa)) in H.
    unfold bind at 1, update_state at 1 in H.
    destruct (findAccount (people sa) (next_number sa) (next_password sa)) as [j|];
      [|discriminate].
    set (sb := set_acc2 (Some j) (after_lookup sa)) in H.
    destruct (bind_inv _ _ _ _ _ H) as [(buf & s1 & E1 & K1) | [(c & _ & Hc) | (_ & Hc)]];
      try discriminate Hc.
    apply yank_matching_inv in E1. destruct E1 as (Hm & _ & ->).
    apply R_NAME_atoi in Hm. rewrite Hm in K1.
    destruct (bind_inv _ _ _ _ _ K1) as [(from & s2 & E2 & K2) | [(c & _ & Hc) | (_ & Hc)]];
      try discriminate Hc.
    apply deref_inv in E2. destruct E2 as (-> & _).
    destruct (ltb (balance from) (of_int 0)); [discriminate|].
    destruct (bind_inv _ _ _ _ _ K2) as [([] & s3 & E3 & K3) | [(c & _ & Hc) | (_ & Hc)]];
      try discriminate Hc.
    apply assign_inv in E3. destruct E3 as (i' & _ & ->).
    apply assign_inv in K3. destruct K3 as (j' & _ & ->).
    simpl.
    rewrite (modify_people_same _ (people s)).
    + apply modify_same_amount. intros a. unfold same_amount.
      destruct (balance a) as [[|]| | |] eqn:B; try (left; rewrite add_zero, <- B;
        [apply set_balance_same | congruence]).
      right. split; [reflexivity|]. reflexivity.
    + intros a. rewrite sub_zero. apply set_balance_same.
Qed.


Lemma transfer_moves_nothing_witness :
  atoi "hal" = 0 /\
  fst (case_TRANS before_transfer) = Next tt /\
  Forall2 same_amount two_accounts (people (snd (case_TRANS before_transfer))).
Proof.
  split; [apply (proj1 transfer_moves_nothing); reflexivity|].
  split; [vm_compute; reflexivity|].
  apply (proj2 transfer_moves_nothing before_transfer). vm_compute. reflexivity.
Defined.

(** C3.  The worked transfer: from the file with A0001 at 100.00 and A0002
    at 10.00, a transfer of 30 with both pairs of credentials right.  The
    run does not succeed: the amount [30] fails the pattern, the exit code
    is [ERR_NO_INFO], and the file written back shows the balances 100 and
    10. *)
Theorem transfer_scenario_aborts (acc_0 acc2_0 : ptr) :
  fst (main two_accounts_world acc_0 acc2_0 (transfer_argv "30")) = Return ERR_NO_INFO /\
  out (snd (main two_accounts_world acc_0 acc2_0 (transfer_argv "30")))
    = [Written "bank.db" two_accounts_written].
Proof. split; vm_compute; reflexivity. Qed.

(** C1.  A transfer whose two lookups both find an account and whose
    amount begins with a digit returns [ERR_NO_INFO] and leaves the store as
    it was: no numeric amount is ever moved, and the comparison with the
    balance of the source is not reached. *)
Theorem transfer_rejects_numeric_amount (s : state) (a b : nat) (d : ascii) (rest : string) :
  findAccount (people s) (next_number s) (next_password s) = Some a ->
  findAccount (people s) (next_number (after_lookup s)) (next_password (after_lookup s))
    = Some b ->
  fst (yankArg (args (after_lookup (after_lookup s))) O_TRANS) = Some (String d rest) ->
  isdigit d = true ->
  exists s', case_TRANS s = (Return ERR_NO_INFO, s') /\ people s' = people s.
Proof.
  intros Ha Hb Ht Hd. unfold case_TRANS.
  rewrite (bind_Next _ _ _ _ _ (lookup_spec s)), Ha.
  unfold bind at 1, update_state at 1.
  rewrite (bind_Next _ _ _ _ _ (lookup_spec _)). cbn [people set_acc].
  change (next_number (set_acc (Some a) (after_lookup s))) with (next_number (after_lookup s)).
  change (next_password (set_acc (Some a) (after_lookup s)))
    with (next_password (after_lookup s)).
  change (people (after_lookup s)) with (people s). rewrite Hb.
  unfold bind at 1, update_state at 1.
  unfold bind at 1, yank_matching, bind at 1, yank.
  change (args (set_acc2 (Some b) (after_lookup (set_acc (Some a) (after_lookup s)))))
    with (args (after_lookup (after_lookup s))).
  destruct (yankArg (args (after_lookup (after_lookup s))) O_TRANS) as [v m].
  simpl in Ht. subst v. rewrite (R_NAME_no_digit d rest Hd).
  eexists. split; reflexivity.
Qed.

Lemma transfer_rejects_numeric_amount_witness :
  exists s',
    case_TRANS (mkState (sortArgs [] (transfer_argv "30"))
                        two_accounts None None [] [])
      = (Return ERR_NO_INFO, s') /\
    map balance (people s') = [of_decimal false 100 0; of_decimal false 10 0].
Proof.
  destruct (transfer_rejects_numeric_amount
              (mkState (sortArgs [] (transfer_argv "30"))
                       two_accounts None None [] [])
              0%nat 1%nat "3"%char "0" eq_refl eq_refl eq_refl eq_refl) as (s' & E & P).
  exists s'. split; [exact E|]. rewrite P. reflexivity.
Defined.

(** C8.  The change of the first name returns [ERR_NO_INFO], with the store
    unchanged, for every value holding a character outside the class of
    [R_NAME], the five characters [: a l p h].  That covers every value with
    a digit, and also alphabetic values such as [Bob]. *)
Theorem change_first_name_needs_name_class (s : state) (v : string) :
  findAccount (people s) (next_number s) (next_password s) <> None \/ acc2 s <> None ->
  fst (yankArg (args (after_lookup s)) O_CHANGE_F) = Some v ->
  (exists c, In c (list_ascii_of_string v) /\ ~ In c name_class) ->
  exists s', case_CHANGE_F s = (Return ERR_NO_INFO, s') /\ people s' = people s.
Proof.
  intros Hres Hv (c & Hin & Hout). unfold case_CHANGE_F.
  assert (Hm : regex_match v R_NAME = false).
  { destruct (regex_match v R_NAME) eqn:E; [|reflexivity].
    destruct Hout. eapply R_NAME_members; eassumption. }
  assert (Hr : exists p, resolve s = (Next tt, set_acc p (after_lookup s))
                         \/ resolve s = (Next tt, set_acc p (set_acc None (after_lookup s)))).
  { rewrite resolve_spec.
    destruct (findAccount _ _ _) as [i|]; [eauto|].
    destruct (acc2 s) as [j|]; [eauto|]. destruct Hres; congruence. }
  destruct Hr as (p & [Hr|Hr]); rewrite (bind_Next _ _ _ _ _ Hr);
    unfold bind at 1, yank_matching, bind at 1, yank; cbn [args set_acc];
    destruct (yankArg (args (after_lookup s)) O_CHANGE_F) as [v' m];
    simpl in Hv; subst v'; rewrite Hm; eexists; split; reflexivity.
Qed.


Lemma change_first_name_needs_name_class_witness :
  exists s',
    case_CHANGE_F first_name_state = (Return ERR_NO_INFO, s') /\
    map first (people s') = ["Jane"; "Rick"].
Proof.
  destruct (change_first_name_needs_name_class first_name_state "Bob") as (s' & E & P).
  - left. vm_compute. discriminate.
  - reflexivity.
  - exists "B"%char. split; [simpl; tauto|].
    unfold name_class. simpl. intros [H|[H|[H|[H|[H|[]]]]]]; discriminate H.
  - exists s'. split; [exact E|]. rewrite P. reflexivity.
Defined.


Lemma load_two_accounts :
  loadDatabase (file_content two_accounts_world) [] "bank.db" = Loaded two_accounts.
Proof. vm_compute. reflexivity. Qed.

(** C2 as stated does not hold.  In the run [wrong_password_argv] the phone
    case is given the number of A0001 and a wrong password; no account
    matches, yet the case completes on the account of the previous action
    and the run returns 0 with the phone number of A0001 changed. *)
Lemma wrong_password_falls_back :
  next_number before_phone_change = Some "A0001" /\
  next_password before_phone_change = Some "WRONG1" /\
  findAccount (people before_phone_change) (Some "A0001") (Some "WRONG1") = None /\
  fst (case_CHANGE_PHONE before_phone_change) = Next tt /\
  map phone (people (snd (case_CHANGE_PHONE before_phone_change))) = [1234567; 5554321] /\
  fst (main two_accounts_world None None wrong_password_argv) = Return 0 /\
  map phone (people (snd (main two_accounts_world None None wrong_password_argv)))
    = [1234567; 5554321].
Proof. repeat split; vm_compute; reflexivity. Qed.

Lemma tail_not_no_account (m : M unit) s :
  respects (fun _ _ => True) (fun code => code = ERR_NO_INFO) m ->
  fst (m s) <> Return ERR_NO_ACCOUNT.
Proof.
  intros Hm. destruct (m s) as [r s'] eqn:E. destruct (Hm _ _ _ E) as [_ Hp].
  simpl. intros ->. specialize (Hp _ eq_refl). discriminate.
Qed.

Ltac tail_frame :=
  repeat first
    [ apply respects_yank_matching; auto
    | apply respects_assign; auto
    | apply respects_strcpy; auto
    | apply respects_ret; auto | apply respects_read; auto
    | apply respects_undefined; auto | apply respects_yank; auto
    | apply respects_return; reflexivity
    | apply respects_bind; [auto | | intros]
    | match goal with
      | |- respects _ _ (match ?x with _ => _ end) => destruct x
      | |- respects _ _ (if ?b then _ else _) => destruct b
      end ].

(** C2, amended.  With a number and a password both supplied and matching
    no account: the transfer case returns [ERR_NO_ACCOUNT] whatever [acc2]
    holds; each other mutation case returns [ERR_NO_ACCOUNT] when [acc2] is
    null, and when [acc2] holds an account it goes on with that account and
    does not return [ERR_NO_ACCOUNT]. *)
Theorem unmatched_credentials (s : state) (n p : string) :
  next_number s = Some n -> next_password s = Some p ->
  findAccount (people s) (Some n) (Some p) = None ->
  case_TRANS s = (Return ERR_NO_ACCOUNT, set_acc None (after_lookup s)) /\
  (acc2 s = None ->
     Forall (fun action : M unit =>
               action s = (Return ERR_NO_ACCOUNT, set_acc None (after_lookup s)))
            fallback_cases) /\
  (forall j, acc2 s = Some j ->
     resolve s = (Next tt, set_acc (Some j) (set_acc None (after_lookup s))) /\
     Forall (fun action : M unit => fst (action s) <> Return ERR_NO_ACCOUNT)
            fallback_cases).
Proof.
  intros Hn Hp Hf.
  assert (Hl : lookup s = (Next None, after_lookup s))
    by (rewrite lookup_spec, Hn, Hp, Hf; reflexivity).
  split; [|split].
  - unfold case_TRANS. rewrite (bind_Next _ _ _ _ _ Hl). reflexivity.
  - intros H2.
    assert (Hr : resolve s = (Return ERR_NO_ACCOUNT, set_acc None (after_lookup s)))
      by (rewrite resolve_spec, Hn, Hp, Hf, H2; reflexivity).
    unfold fallback_cases.
    repeat constructor;
      match goal with |- ?c s = _ => unfold c end; unfold bind at 1; now rewrite Hr.
  - intros j H2.
    assert (Hr : resolve s = (Next tt, set_acc (Some j) (set_acc None (after_lookup s))))
      by (rewrite resolve_spec, Hn, Hp, Hf, H2; reflexivity).
    split; [exact Hr|].
    unfold fallback_cases.
    repeat constructor;
      match goal with |- fst (?c s) <> _ => unfold c end;
      rewrite (bind_Next _ _ _ _ _ Hr); apply tail_not_no_account; tail_frame.
Qed.

Lemma unmatched_credentials_witness :
  case_TRANS before_phone_change
    = (Return ERR_NO_ACCOUNT, set_acc None (after_lookup before_phone_change)) /\
  resolve before_phone_change
    = (Next tt, set_acc (Some 0%nat) (set_acc None (after_lookup before_phone_change))).
Proof.
  destruct (unmatched_credentials before_phone_change "A0001" "WRONG1"
              eq_refl eq_refl eq_refl) as (T & _ & F).
  split; [exact T|]. exact (proj1 (F 0%nat eq_refl)).
Defined.

(** Without credentials the lookup yields no account, and what follows is
    decided by [acc2]. *)
Lemma resolve_without_credentials s :
  next_number s = None \/ next_password s = None ->
  resolve s = match acc2 s with
              | None => (Return ERR_NO_ACCOUNT, set_acc None (after_lookup s))
              | Some j => (Next tt, set_acc (Some j) (set_acc None (after_lookup s)))
              end.
Proof.
  intros H. rewrite resolve_spec. now rewrite (findAccount_absent _ _ _ H).
Qed.

(** C9.  A first action without credentials: the run of
    [no_credentials_argv] returns [ERR_NO_ACCOUNT] only if the value that
    [acc] happened to hold at its declaration is null.  With a value that
    addresses no account the run writes through it, and with the address of
    an account it renames that account and returns 0. *)
Theorem first_action_reads_unset_pointer :
  fst (main two_accounts_world None None no_credentials_argv) = Return ERR_NO_ACCOUNT /\
  fst (main two_accounts_world (Some 7%nat) None no_credentials_argv) = Undefined /\
  fst (main two_accounts_world (Some 1%nat) None no_credentials_argv) = Return 0 /\
  map first (people (snd (main two_accounts_world (Some 1%nat) None no_credentials_argv)))
    = ["Jane"; "hal"].
Proof. repeat split; vm_compute; reflexivity. Qed.

End ClaimFacts.

(** ** The data file *)

Module LoaderFacts.
Import ArgsFacts EngineFacts.

Lemma append_assoc a b c : (a +++ b) +++ c = a +++ (b +++ c).
Proof. induction a as [|x a IH]; simpl; [reflexivity | now rewrite IH]. Qed.

Lemma append_nil_r a : a +++ "" = a.
Proof. induction a as [|x a IH]; simpl; [reflexivity | now rewrite IH]. Qed.

Lemma length_append a b : String.length (a +++ b) = (String.length a + String.length b)%nat.
Proof. induction a as [|x a IH]; simpl; [reflexivity | now rewrite IH]. Qed.

Lemma space_facts c :
  isspace c = true ->
  isdigit c = false /\ nonspace c = false /\ c <> "."%char /\ c <> "e"%char /\
  c <> "E"%char /\ c <> "-"%char /\ c <> "+"%char.
Proof.
  destruct c as [[|] [|] [|] [|] [|] [|] [|] [|]]; intros H;
    try discriminate H; repeat split; discriminate.
Qed.

Lemma digit_facts c :
  isdigit c = true -> isspace c = false /\ c <> "-"%char /\ c <> "+"%char.
Proof.
  destruct c as [[|] [|] [|] [|] [|] [|] [|] [|]]; intros H;
    try discriminate H; repeat split; discriminate.
Qed.

Lemma skip_space_blank pre s :
  all_chars isspace pre = true -> skip_space (pre +++ s) = skip_space s.
Proof.
  induction pre as [|c pre IH]; simpl; [reflexivity|].
  intros H. apply andb_prop in H as [Hc Hp]. rewrite Hc. auto.
Qed.

Lemma skip_space_head c s : isspace c = false -> skip_space (String c s) = String c s.
Proof. simpl. now intros ->. Qed.

Lemma span_stop p w post :
  all_chars p w = true ->
  match post with String c _ => p c = false | EmptyString => True end ->
  span p (w +++ post) = (w, post).
Proof.
  intros Hw Hp. induction w as [|c w IH]; simpl.
  - destruct post as [|c r]; [reflexivity|]. simpl. now rewrite Hp.
  - simpl in Hw. apply andb_prop in Hw as [Hc Hw]. rewrite Hc, IH by assumption.
    reflexivity.
Qed.

Lemma starts_blank_stop (p : ascii -> bool) post :
  starts_blank post = true -> (forall c, isspace c = true -> p c = false) ->
  match post with String c _ => p c = false | EmptyString => True end.
Proof. destruct post as [|c r]; simpl; auto. Qed.

Lemma starts_blank_append sep s : separator sep = true -> starts_blank (sep +++ s) = true.
Proof.
  unfold separator. destruct sep as [|c sep]; simpl; [discriminate|].
  intros H. now apply andb_prop in H as [H _].
Qed.

Lemma separator_blank sep : separator sep = true -> all_chars isspace sep = true.
Proof. unfold separator. intros H. now apply andb_prop in H as [_ H]. Qed.

(** A word between white space is extracted whole. *)
Lemma get_cstr_word cap pre w post :
  all_chars isspace pre = true -> word cap w = true -> starts_blank post = true ->
  get_cstr cap (pre +++ w +++ post) = Value w post.
Proof.
  unfold word. intros Hpre Hw Hpost.
  apply andb_prop in Hw as [Hw Hlen]. apply andb_prop in Hw as [Hne Hns].
  unfold get_cstr. rewrite skip_space_blank by assumption.
  destruct w as [|c w]; [discriminate|]. simpl in Hns.
  apply andb_prop in Hns as [Hc Hns].
  assert (Hsp : isspace c = false) by (unfold nonspace in Hc; now destruct (isspace c)).
  change (String c w +++ post) with (String c (w +++ post)).
  rewrite skip_space_head by assumption.
  change (String c (w +++ post)) with (String c w +++ post).
  rewrite span_stop.
  - apply Nat.leb_le in Hlen. destruct (Nat.ltb_spec cap (String.length (String c w))); [lia|].
    destruct post; [discriminate | reflexivity].
  - simpl. now rewrite Hc, Hns.
  - apply starts_blank_stop; [assumption|]. intros x Hx. now apply space_facts in Hx.
Qed.

Lemma get_char_next pre c post :
  all_chars isspace pre = true -> nonspace c = true ->
  get_char (pre +++ String c post) = Value c post.
Proof.
  intros Hpre Hc. unfold get_char. rewrite skip_space_blank by assumption.
  rewrite skip_space_head; [reflexivity|].
  unfold nonspace in Hc. now destruct (isspace c).
Qed.

Lemma sign_digit c s : isdigit c = true -> sign (String c s) = (false, String c s).
Proof.
  intros H. apply digit_facts in H as (_ & Hm & Hp). unfold sign.
  destruct (Ascii.eqb_spec c "-"); [contradiction|].
  destruct (Ascii.eqb_spec c "+"); [contradiction|].
  destruct c as [[|] [|] [|] [|] [|] [|] [|] [|]]; try reflexivity; congruence.
Qed.

Lemma get_unsigned_numeral pre ds post :
  all_chars isspace pre = true -> numeral ds = true -> starts_blank post = true ->
  get_unsigned (pre +++ ds +++ post) = Value (digits_value ds 0) post.
Proof.
  unfold numeral. intros Hpre Hd Hpost.
  apply andb_prop in Hd as [Hd Hlt]. apply andb_prop in Hd as [Hne Hds].
  unfold get_unsigned. rewrite skip_space_blank by assumption.
  destruct ds as [|c ds]; [discriminate|]. simpl in Hds.
  apply andb_prop in Hds as [Hc Hds'].
  change (String c ds +++ post) with (String c (ds +++ post)).
  rewrite skip_space_head by (now apply digit_facts in Hc).
  rewrite sign_digit by assumption.
  change (String c (ds +++ post)) with (String c ds +++ post).
  rewrite span_stop.
  - destruct post as [|x post]; [discriminate|].
    apply Z.ltb_lt in Hlt. destruct (Z.leb_spec (2 ^ 32) (digits_value (String c ds) 0)); [lia|].
    reflexivity.
  - simpl. now rewrite Hc, Hds'.
  - apply starts_blank_stop; [assumption|]. intros x Hx. now apply space_facts in Hx.
Qed.

Lemma nonempty_append a b : nonempty a = true -> nonempty (a +++ b) = true.
Proof. now destruct a. Qed.

Lemma eqb_empty_nonempty a : nonempty a = true -> String.eqb a EmptyString = false.
Proof. now destruct a. Qed.

Lemma exponent_part_blank post :
  starts_blank post = true -> exponent_part true post = (None, post).
Proof.
  destruct post as [|x p]; [discriminate|]. simpl. intros H.
  apply space_facts in H as (_ & _ & _ & He & HE & _).
  apply Ascii.eqb_neq in He, HE. now rewrite He, HE.
Qed.

Lemma no_point_blank post :
  starts_blank post = true ->
  match post with
  | String "." r => span isdigit r
  | _ => (EmptyString, post)
  end = (EmptyString, post).
Proof.
  destruct post as [|x p]; [discriminate|]. simpl. intros H.
  destruct x as [[|] [|] [|] [|] [|] [|] [|] [|]]; try reflexivity; discriminate H.
Qed.

Lemma get_double_balance pre r post :
  all_chars isspace pre = true ->
  nonempty (w_units r) = true -> all_chars isdigit (w_units r) = true ->
  all_chars isdigit (cents_digits r) = true -> finite (balance_value r) = true ->
  starts_blank post = true ->
  get_double (pre +++ balance_text r +++ post) = Value (balance_value r) post.
Proof.
  intros Hpre Hne Hu Hc Hfin Hpost.
  unfold get_double. rewrite skip_space_blank by assumption.
  unfold balance_text, balance_value, cents_digits in *.
  destruct (w_units r) as [|c u] eqn:U; [discriminate|].
  assert (Hd : isdigit c = true) by (simpl in Hu; now apply andb_prop in Hu as [Hu _]).
  destruct (w_cents r) as [f|].
  - rewrite !append_assoc.
    change (String c u +++ "." +++ f +++ post) with (String c (u +++ "." +++ f +++ post)).
    rewrite skip_space_head by (now apply digit_facts in Hd).
    rewrite sign_digit by assumption.
    change (String c (u +++ "." +++ f +++ post)) with (String c u +++ String "." (f +++ post)).
    rewrite span_stop by (assumption || reflexivity).
    rewrite span_stop
      by (first [assumption | apply starts_blank_stop;
                   [assumption | intros x Hx; now apply space_facts in Hx]]).
    rewrite eqb_empty_nonempty by reflexivity. cbn [negb].
    rewrite exponent_part_blank by assumption.
    destruct post as [|x p]; [discriminate|].
    revert Hfin. now destruct (of_decimal _ _ _).
  - change (String c u +++ post) with (String c (u +++ post)).
    rewrite skip_space_head by (now apply digit_facts in Hd).
    rewrite sign_digit by assumption.
    change (String c (u +++ post)) with (String c u +++ post).
    rewrite span_stop
      by (first [assumption | apply starts_blank_stop;
                   [assumption | intros x Hx; now apply space_facts in Hx]]).
    rewrite no_point_blank by assumption.
    rewrite append_nil_r in *.
    rewrite eqb_empty_nonempty by reflexivity. cbn [negb].
    rewrite exponent_part_blank by assumption.
    destruct post as [|x p]; [discriminate|].
    revert Hfin. now destruct (of_decimal _ _ _).
Qed.

(** One turn of the loop on a well-formed record. *)
Lemma read_record_row sep rsep pre r tail :
  separator sep = true -> separator rsep = true ->
  all_chars isspace pre = true -> well_formed r = true ->
  read_record (pre +++ row_text sep rsep r +++ tail) = Value (account_of r) (rsep +++ tail).
Proof.
  intros Hsep Hrsep Hpre Hwf. unfold well_formed in Hwf.
  repeat match type of Hwf with (_ && _) = true => 
    let H := fresh "W" in apply andb_prop in Hwf as [Hwf H] end.
  pose proof (separator_blank _ Hsep) as Bsep.
  unfold read_record, row_text. rewrite !append_assoc.
  rewrite get_cstr_word; try assumption; [|now apply starts_blank_append].
  cbn [and_then].
  rewrite get_cstr_word; try assumption; [|now apply starts_blank_append].
  cbn [and_then].
  change (String (w_middle r) sep +++ ?x) with (String (w_middle r) (sep +++ x)).
  rewrite get_char_next by assumption. cbn [and_then].
  rewrite get_unsigned_numeral; try assumption; [|now apply starts_blank_append].
  cbn [and_then].
  rewrite get_unsigned_numeral; try assumption; [|now apply starts_blank_append].
  cbn [and_then].
  rewrite get_unsigned_numeral; try assumption; [|now apply starts_blank_append].
  cbn [and_then].
  rewrite get_double_balance; try assumption; [|now apply starts_blank_append].
  cbn [and_then].
  rewrite get_cstr_word; try assumption; [|now apply starts_blank_append].
  cbn [and_then].
  rewrite get_cstr_word; try assumption; [|now apply starts_blank_append].
  reflexivity.
Qed.

Lemma read_record_blank pre : all_chars isspace pre = true -> read_record pre = AtEof.
Proof.
  intros H. unfold read_record, get_cstr.
  rewrite <- (append_nil_r pre), skip_space_blank by assumption. reflexivity.
Qed.

(** Loading a file of well-formed records, each followed by white space. *)
Lemma load_loop_rows sep rsep rows :
  separator sep = true -> separator rsep = true ->
  forallb well_formed rows = true ->
  forall fuel pre people,
    (List.length rows < fuel)%nat -> all_chars isspace pre = true ->
    load_loop fuel (pre +++ file_text sep rsep rows) people
    = Loaded (people ++ map account_of rows).
Proof.
  intros Hsep Hrsep. induction rows as [|r rows IH]; intros Hwf fuel pre people Hf Hpre.
  - destruct fuel as [|fuel]; [simpl in Hf; lia|].
    simpl. rewrite append_nil_r, read_record_blank by assumption.
    now rewrite app_nil_r.
  - simpl in Hwf. apply andb_prop in Hwf as [Hr Hwf].
    destruct fuel as [|fuel]; [simpl in Hf; lia|].
    cbn [load_loop file_text map concat_all].
    fold (file_text sep rsep rows).
    rewrite (read_record_row sep rsep pre r) by assumption.
    rewrite IH; try assumption.
    + now rewrite <- app_assoc.
    + simpl in Hf. lia.
    + now apply separator_blank.
Qed.

Lemma sort_insert_perm a l : Permutation (sort_insert a l) (a :: l).
Proof.
  induction l as [|b l IH]; simpl; [reflexivity|].
  destruct (number_lt b a); [|reflexivity].
  rewrite IH. apply perm_swap.
Qed.

Lemma sort_perm l : Permutation (sort l) l.
Proof.
  induction l as [|a l IH]; simpl; [reflexivity|].
  unfold sort in *. rewrite sort_insert_perm. now constructor.
Qed.

Lemma row_text_nonempty sep rsep r :
  separator rsep = true -> (1 <= String.length (row_text sep rsep r))%nat.
Proof.
  intros Hr. unfold row_text. rewrite !length_append.
  destruct rsep; [discriminate|]. cbn [String.length]. lia.
Qed.

Lemma rows_shorter sep rsep rows :
  separator rsep = true ->
  (List.length rows <= String.length (file_text sep rsep rows))%nat.
Proof.
  intros Hr. induction rows as [|r rows IH]; [apply Nat.le_0_l|].
  unfold file_text in *. cbn [map concat_all List.length]. rewrite length_append.
  pose proof (row_text_nonempty sep rsep r Hr). lia.
Qed.

End LoaderFacts.

(** ** The collector and the resolver, further *)

Module CollectorFacts.
Import ArgsFacts EngineFacts OrderFacts ClaimFacts LoaderFacts.

Lemma update_other_order args c d f g :
  c <> d -> update (update args c f) d g = update (update args d g) c f.
Proof.
  intros Hne. induction args as [|[k v] rest IH]; simpl; [reflexivity|].
  destruct (Ascii.eqb_spec k c) as [Ec|Hc]; destruct (Ascii.eqb_spec k d) as [Ed|Hd]; simpl.
  - congruence.
  - destruct (Ascii.eqb_spec k c); [|contradiction].
    destruct (Ascii.eqb_spec k d); [contradiction | reflexivity].
  - destruct (Ascii.eqb_spec k c); [contradiction|].
    destruct (Ascii.eqb_spec k d); [reflexivity | contradiction].
  - destruct (Ascii.eqb_spec k c); [contradiction|].
    destruct (Ascii.eqb_spec k d); [contradiction|]. now rewrite IH.
Qed.

Lemma find_yankArg_other args c d : d <> c -> find (snd (yankArg args c)) d = find args d.
Proof.
  intros Hne. unfold yankArg. destruct (find args c) as [[|v q]|]; simpl; try reflexivity.
  now apply find_update_other.
Qed.

(** X3.  Two calls of [yankArg] for different codes return the same values
    and leave the same map in either order: the order in which a compiler
    evaluates the two arguments of
    [findAccount(people, yankArg(args, O_NUM), yankArg(args, O_PASS))] cannot
    be observed. *)
Theorem yankArg_commute (args : argmap) (c d : ascii) :
  c <> d ->
  fst (yankArg (snd (yankArg args c)) d) = fst (yankArg args d) /\
  fst (yankArg (snd (yankArg args d)) c) = fst (yankArg args c) /\
  snd (yankArg (snd (yankArg args c)) d) = snd (yankArg (snd (yankArg args d)) c).
Proof.
  intros Hne.
  assert (Hcd : find (snd (yankArg args c)) d = find args d)
    by (apply find_yankArg_other; congruence).
  assert (Hdc : find (snd (yankArg args d)) c = find args c)
    by (apply find_yankArg_other; congruence).
  repeat split.
  - unfold yankArg at 1 3. rewrite Hcd. now destruct (find args d) as [[|v q]|].
  - unfold yankArg at 1 3. rewrite Hdc. now destruct (find args c) as [[|v q]|].
  - unfold yankArg at 1 3. rewrite Hcd, Hdc. unfold yankArg.
    destruct (find args c) as [[|v q]|], (find args d) as [[|v' q']|]; simpl; try reflexivity.
    now apply update_other_order.
Qed.

Lemma yankArg_commute_witness :
  fst (yankArg (snd (yankArg (sortArgs [] two_numbers_argv) O_PASS)) O_NUM) = Some "A0001" /\
  snd (yankArg (snd (yankArg (sortArgs [] two_numbers_argv) O_NUM)) O_PASS)
  = snd (yankArg (snd (yankArg (sortArgs [] two_numbers_argv) O_PASS)) O_NUM).
Proof.
  destruct (yankArg_commute (sortArgs [] two_numbers_argv) O_NUM O_PASS) as (_ & H2 & H3).
  - discriminate.
  - split; [rewrite H2; reflexivity | exact H3].
Defined.

(** X1.  The map [sortArgs] builds from the empty map: its keys are in
    strictly increasing order of their value as [char], which is the order
    in which [parseArgs] iterates over it (the 7-bit characters in the
    order of their codes, after every byte from 128 on); under each code it
    holds exactly the values supplied for that code on the command line, in
    the order supplied; a code that was not supplied has no entry. *)
Theorem sortArgs_collects (argv : list string) :
  StronglySorted code_lt (keys (sortArgs [] argv)) /\
  forall c, find (sortArgs [] argv) c = match supplied c argv with
                                        | [] => None
                                        | l => Some l
                                        end.
Proof.
  split.
  - apply sorted_sortArgs. constructor.
  - intros c. now rewrite find_sortArgs.
Qed.

Lemma find_yank_times n : forall args c,
  find (yank_times n args c) c = option_map (@skipn string n) (find args c).
Proof.
  induction n as [|n IH]; intros args c; simpl.
  - now destruct (find args c).
  - rewrite IH. unfold yankArg. destruct (find args c) as [[|v q]|] eqn:F; simpl.
    + rewrite F. simpl. now destruct n.
    + now rewrite find_update_same, F.
    + now rewrite F.
Qed.

Lemma find_yank_times_other n : forall args c k,
  k <> c -> find (yank_times n args c) k = find args k.
Proof.
  induction n as [|n IH]; intros args c k Hne; simpl; [reflexivity|].
  rewrite IH by assumption. now apply find_yankArg_other.
Qed.

Lemma hd_skipn {A} n : forall l : list A, hd_error (skipn n l) = nth_error l n.
Proof. induction n as [|n IH]; intros [|x l]; simpl; auto. Qed.

(** X2.  [yankArg] hands the values of a code out in the order supplied:
    after [n] calls for code [c] the next call returns the value at position
    [n] among those supplied for [c], and the null pointer when there is
    none; the entries of every other code are as [sortArgs] left them. *)
Theorem yank_in_supply_order (argv : list string) (c : ascii) (n : nat) :
  fst (yankArg (yank_times n (sortArgs [] argv) c) c) = nth_error (supplied c argv) n /\
  forall k, k <> c ->
    find (yank_times n (sortArgs [] argv) c) k = find (sortArgs [] argv) k.
Proof.
  split; [|intros k Hk; now apply find_yank_times_other].
  unfold yankArg. rewrite find_yank_times, find_sortArgs. simpl.
  destruct (supplied c argv) as [|v q] eqn:S; simpl.
  - now destruct n.
  - change (v :: q) with ((v :: q)) . rewrite <- (hd_skipn n (v :: q)).
    now destruct (skipn n (v :: q)).
Qed.

Lemma yank_in_supply_order_witness :
  fst (yankArg (yank_times 1 (sortArgs [] two_numbers_argv) O_NUM) O_NUM) = Some "A0002" /\
  find (yank_times 1 (sortArgs [] two_numbers_argv) O_NUM) O_PASS = Some ["ABC123"].
Proof.
  destruct (yank_in_supply_order two_numbers_argv O_NUM 1) as [H1 H2].
  split; [rewrite H1; reflexivity|].
  rewrite H2; [reflexivity | discriminate].
Defined.

Lemma findAccount_from_spec people : forall i n p,
  match findAccount_from i people n p with
  | Some k => (i <= k)%nat /\ first_match people n p (k - i)
  | None => forall a, In a people -> ~ (number a = n /\ password a = p)
  end.
Proof.
  induction people as [|a people IH]; intros i n p; simpl; [tauto|].
  destruct (String.eqb_spec (number a) n) as [Hn|Hn];
    [destruct (String.eqb_spec (password a) p) as [Hp|Hp]|]; simpl.
  - split; [lia|]. rewrite Nat.sub_diag. split; [exists a; auto|]. intros j b Hj. lia.
  - specialize (IH (S i) n p). destruct (findAccount_from (S i) people n p) as [k|].
    + destruct IH as (Hk & (b & Hb & Hbn & Hbp) & Hfirst). split; [lia|].
      replace (k - i)%nat with (S (k - S i)) by lia. split; [exists b; auto|].
      intros [|j] c Hj Hc; simpl in Hc; [inversion Hc; subst; tauto|].
      apply (Hfirst j c); [lia | assumption].
    + intros b [<-|Hb]; [tauto | now apply IH].
  - specialize (IH (S i) n p). destruct (findAccount_from (S i) people n p) as [k|].
    + destruct IH as (Hk & (b & Hb & Hbn & Hbp) & Hfirst). split; [lia|].
      replace (k - i)%nat with (S (k - S i)) by lia. split; [exists b; auto|].
      intros [|j] c Hj Hc; simpl in Hc; [inversion Hc; subst; tauto|].
      apply (Hfirst j c); [lia | assumption].
    + intros b [<-|Hb]; [tauto | now apply IH].
Qed.

Lemma findAccount_given people n p :
  match findAccount people (Some n) (Some p) with
  | Some i => first_match people n p i
  | None => forall a, In a people -> ~ (number a = n /\ password a = p)
  end.
Proof.
  unfold findAccount. pose proof (findAccount_from_spec people 0 n p) as H.
  destruct (findAccount_from 0 people n p) as [k|]; [|exact H].
  destruct H as [_ H]. now rewrite Nat.sub_0_r in H.
Qed.

(** X4.  [findAccount] returns the null pointer when the number or the
    password is null; otherwise it returns the first account, in the order of
    the store, whose number and password both equal the credentials, and the
    null pointer exactly when no account has both. *)
Theorem findAccount_first_match (people : list Account) (number password : option string) :
  match number, password, findAccount people number password with
  | Some n, Some p, Some i => first_match people n p i
  | Some n, Some p, None =>
      forall a, In a people -> ~ (Store.number a = n /\ Store.password a = p)
  | _, _, r => r = None
  end.
Proof.
  destruct number as [n|], password as [p|]; try reflexivity.
  apply findAccount_given.
Qed.

End CollectorFacts.

Module StartupFacts.
Import ArgsFacts EngineFacts OrderFacts ClaimFacts LoaderFacts.
Import CollectorFacts.

Lemma sortArgs_no_switch argv : forall args,
  no_switch argv = true -> sortArgs args argv = args.
Proof.
  induction argv as [|arg argv IH]; intros args H; simpl; [reflexivity|].
  simpl in H. apply andb_prop in H as [Ha H].
  rewrite sortArgs_step_switch. destruct (switch_of arg); [discriminate|]. now apply IH.
Qed.

Lemma some_switch argv :
  no_switch argv = false -> exists k, supplied k argv <> [].
Proof.
  induction argv as [|arg argv IH]; [discriminate|].
  unfold no_switch. cbn [forallb]. fold (no_switch argv).
  destruct (switch_of arg) as [[k v]|] eqn:S; cbn [andb].
  - intros _. exists k. unfold supplied. cbn [flat_map]. rewrite S, Ascii.eqb_refl.
    discriminate.
  - intros H. destruct (IH H) as [k Hk]. exists k. unfold supplied in *. cbn [flat_map].
    now rewrite S.
Qed.

Lemma help_wanted_sortArgs argv :
  help_wanted (sortArgs [] argv) = no_switch argv || present argv O_HELP.
Proof.
  destruct (no_switch argv) eqn:N.
  - now rewrite sortArgs_no_switch.
  - destruct (some_switch argv N) as [k Hk].
    pose proof (find_sortArgs argv [] k) as Fk. simpl in Fk.
    pose proof (find_sortArgs argv [] O_HELP) as Fh. simpl in Fh.
    unfold help_wanted, present. destruct (sortArgs [] argv) as [|e m].
    + simpl in Fk. destruct (supplied k argv); [contradiction | discriminate].
    + rewrite Fh. now destruct (supplied O_HELP argv).
Qed.

Lemma start_state argv acc_0 acc2_0 :
  (if help_wanted (sortArgs [] argv)
   then emit Help (mkState (sortArgs [] argv) [] acc_0 acc2_0 [] [])
   else mkState (sortArgs [] argv) [] acc_0 acc2_0 [] [])
  = mkState (sortArgs [] argv) [] acc_0 acc2_0 (help_output argv) [].
Proof.
  unfold help_output. rewrite <- help_wanted_sortArgs. now destruct (help_wanted _).
Qed.

Lemma back_last vec : vec <> [] -> back vec = Some (List.last vec EmptyString).
Proof.
  induction vec as [|x vec IH]; [congruence|]. intros _.
  destruct vec as [|y vec]; [reflexivity|].
  change (back (x :: y :: vec)) with (back (y :: vec)).
  change (List.last (x :: y :: vec) "") with (List.last (y :: vec) ""). apply IH. discriminate.
Qed.

(** X5.  A command line without a data-file value: the run returns
    [ERR_NO_DB] with the store empty, both pointers untouched and nothing
    written; the help menu is sent out before that exactly when no argument
    at all (the program name counts, as the loop of [sortArgs] starts at
    [argv[0]]) has the shape of a switch, or the help switch is present. *)
Theorem no_data_file_switch (w : world) (acc_0 acc2_0 : ptr) (argv : list string) :
  supplied O_DATA argv = [] ->
  main w acc_0 acc2_0 argv
  = (Return ERR_NO_DB, mkState (sortArgs [] argv) [] acc_0 acc2_0 (help_output argv) []).
Proof.
  intros H. unfold main, parseArgs. rewrite start_state, find_sortArgs, H. reflexivity.
Qed.

Lemma no_data_file_switch_witness :
  main two_accounts_world None None ["/usr/bin/bankacct"]
  = (Return ERR_NO_DB, mkState [("u"%char, ["sr/bin/bankacct"])] [] None None [] []) /\
  main two_accounts_world None None ["bankacct"]
  = (Return ERR_NO_DB, mkState [] [] None None [Help] []).
Proof.
  split.
  - exact (no_data_file_switch two_accounts_world None None ["/usr/bin/bankacct"] eq_refl).
  - exact (no_data_file_switch two_accounts_world None None ["bankacct"] eq_refl).
Defined.

(** X6.  A data file that does not open: the run returns
    [ERR_DB_NOT_FOUND]; it sends out the help menu when that is due and then
    the message naming the last data-file value; no action is run, the map is
    as [sortArgs] built it and nothing is written. *)
Theorem data_file_not_opened (w : world) (acc_0 acc2_0 : ptr) (argv : list string) :
  supplied O_DATA argv <> [] ->
  file_content w (List.last (supplied O_DATA argv) EmptyString) = None ->
  main w acc_0 acc2_0 argv
  = (Return ERR_DB_NOT_FOUND,
     mkState (sortArgs [] argv) [] acc_0 acc2_0
             (help_output argv ++ [could_not_load (List.last (supplied O_DATA argv) EmptyString)])
             []).
Proof.
  intros Hs Hf. unfold main, parseArgs. rewrite start_state, find_sortArgs. simpl find.
  destruct (supplied O_DATA argv) as [|v q] eqn:S; [contradiction|].
  rewrite back_last by discriminate. unfold loadDatabase. rewrite Hf. reflexivity.
Qed.

Lemma data_file_not_opened_witness :
  main two_accounts_world None None ["bankacct"; "/Dbank.db"; "/Dother.db"; "/?"]
  = (Return ERR_DB_NOT_FOUND,
     mkState (sortArgs [] ["bankacct"; "/Dbank.db"; "/Dother.db"; "/?"]) [] None None
             [Help; could_not_load "other.db"] []).
Proof.
  apply (data_file_not_opened two_accounts_world None None
           ["bankacct"; "/Dbank.db"; "/Dother.db"; "/?"]).
  - discriminate.
  - reflexivity.
Defined.

Lemma second_body_world w w' c s :
  (forall f, report_opens w f = report_opens w' f) ->
  second_body w c s = second_body w' c s.
Proof.
  intros H. unfold second_body, case_REPORT.
  destruct (is_code c O_INFO); [reflexivity|].
  destruct (is_code c O_REPORT); [|reflexivity].
  unfold bind. destruct (update_state (enter c) s) as [[[]| |] s1]; try reflexivity.
  destruct (yank O_REPORT s1) as [[[f|]| |] s2]; try reflexivity. now rewrite H.
Qed.

Lemma for_each_second_world w w' ks :
  (forall f, report_opens w f = report_opens w' f) ->
  forall s, for_each (second_body w) ks s = for_each (second_body w') ks s.
Proof.
  intros H. induction ks as [|c ks IH]; intros s; simpl; [reflexivity|].
  unfold bind. rewrite (second_body_world w w' c s H).
  destruct (second_body w' c s) as [[[]| |] s1]; auto.
Qed.

Lemma actions_world w w' s :
  (forall f, report_opens w f = report_opens w' f) -> actions w s = actions w' s.
Proof.
  intros H. unfold actions, bind, over_args.
  destruct (for_each first_body (keys (args s)) s) as [[[]| |] s1]; try reflexivity.
  now rewrite (for_each_second_world w w' _ H).
Qed.

(** X7.  Of several data-file values only the last is used: two worlds
    that agree on the text of the file it names (and on which files open
    for writing and on the sorting of the library) give the same result,
    state and output, whatever the files named by the earlier values
    hold. *)
Theorem last_data_file_wins (w w' : world) (acc_0 acc2_0 : ptr) (argv : list string) :
  (forall f, report_opens w f = report_opens w' f) ->
  (forall f, write_opens w f = write_opens w' f) ->
  (forall l, std_sort w l = std_sort w' l) ->
  file_content w (List.last (supplied O_DATA argv) EmptyString)
  = file_content w' (List.last (supplied O_DATA argv) EmptyString) ->
  main w acc_0 acc2_0 argv = main w' acc_0 acc2_0 argv.
Proof.
  intros Hr Hw Hs Hf. unfold main, parseArgs. rewrite find_sortArgs. simpl find.
  destruct (supplied O_DATA argv) as [|v q] eqn:S; [reflexivity|].
  rewrite back_last by discriminate. unfold loadDatabase. rewrite Hf.
  destruct (file_content w' _); [|reflexivity].
  destruct (load_loop _ _ _); try reflexivity.
  rewrite Hs, (actions_world w w' _ Hr). unfold shutdown, written_back.
  now rewrite Hw.
Qed.

Lemma last_data_file_wins_witness :
  main two_accounts_world None None two_data_argv
  = main two_files_world None None two_data_argv.
Proof.
  apply (last_data_file_wins two_accounts_world two_files_world None None two_data_argv).
  - intro f. reflexivity.
  - intro f. reflexivity.
  - intro l. reflexivity.
  - vm_compute. reflexivity.
Defined.

End StartupFacts.

(** ** The loading loop *)

Module StreamFacts.
Import ArgsFacts EngineFacts OrderFacts ClaimFacts LoaderFacts.
Import CollectorFacts StartupFacts.

Lemma Value_rest {A} (a b : A) r r' : Value a r = Value b r' -> r = r'.
Proof.
  intros H.
  exact (f_equal (fun g => match g with Value _ x => x | _ => r end) H).
Qed.

Lemma skip_space_length s : (String.length (skip_space s) <= String.length s)%nat.
Proof.
  induction s as [|c s IH]; simpl; [lia|]. destruct (isspace c); simpl; lia.
Qed.

Lemma span_length p s :
  (String.length (snd (span p s)) <= String.length s)%nat.
Proof.
  induction s as [|c s IH]; simpl; [lia|].
  destruct (p c); simpl; [|lia]. destruct (span p s). cbn [String.length snd fst] in *. lia.
Qed.

Lemma sign_length s : (String.length (snd (sign s)) <= String.length s)%nat.
Proof.
  destruct s as [|c s]; simpl; [lia|].
  destruct c as [[|] [|] [|] [|] [|] [|] [|] [|]]; simpl; lia.
Qed.

Lemma get_cstr_length cap input w rest :
  get_cstr cap input = Value w rest -> (String.length rest < String.length input)%nat.
Proof.
  unfold get_cstr. pose proof (skip_space_length input) as Hs.
  destruct (skip_space input) as [|c s] eqn:E; [discriminate|].
  assert (Hc : isspace c = false).
  { clear Hs. induction input as [|x input IH]; simpl in E; [discriminate|].
    destruct (isspace x) eqn:X; [auto|]. inversion E; subst. exact X. }
  simpl span. unfold nonspace at 1. rewrite Hc. simpl negb. cbv iota.
  pose proof (span_length nonspace s) as Hp.
  destruct (span nonspace s) as [a b]. cbn [String.length snd fst] in Hp.
  destruct (_ <? _)%nat; [discriminate|]. destruct b; [discriminate|].
  intros H. inversion H; subst. cbn [String.length snd fst] in *. lia.
Qed.

Lemma get_char_length input c rest :
  get_char input = Value c rest -> (String.length rest <= String.length input)%nat.
Proof.
  unfold get_char. pose proof (skip_space_length input) as Hs.
  destruct (skip_space input); [discriminate|]. intros H. inversion H; subst. cbn [String.length snd fst] in *. lia.
Qed.

Lemma get_unsigned_length input v rest :
  get_unsigned input = Value v rest -> (String.length rest <= String.length input)%nat.
Proof.
  unfold get_unsigned. pose proof (skip_space_length input) as Hs.
  destruct (skip_space input) as [|c s]; [discriminate|].
  pose proof (sign_length (String c s)) as Hg. destruct (sign (String c s)) as [neg s1].
  pose proof (span_length isdigit s1) as Hp. destruct (span isdigit s1) as [ds r].
  cbn [String.length snd fst] in Hg, Hp. destruct r; [discriminate|]. destruct ds; [discriminate|].
  destruct (_ <=? _); [discriminate|]. intros H. apply Value_rest in H. subst rest.
  cbn [String.length snd fst] in *. lia.
Qed.

Lemma exponent_part_length have s :
  (String.length (snd (exponent_part have s)) <= String.length s)%nat.
Proof.
  unfold exponent_part. destruct s as [|c r]; simpl; [lia|].
  destruct (have && _); simpl; [|lia].
  pose proof (sign_length r) as Hg. destruct (sign r) as [eneg r1].
  pose proof (span_length isdigit r1) as Hp. destruct (span isdigit r1). cbn [String.length snd fst] in *. lia.
Qed.

Lemma get_double_length input d rest :
  get_double input = Value d rest -> (String.length rest <= String.length input)%nat.
Proof.
  unfold get_double. pose proof (skip_space_length input) as Hs.
  destruct (skip_space input) as [|c s]; [discriminate|].
  pose proof (sign_length (String c s)) as Hg. destruct (sign (String c s)) as [neg s1].
  pose proof (span_length isdigit s1) as Hp. destruct (span isdigit s1) as [ip s2].
  cbn [String.length snd fst] in Hg, Hp.
  assert (Hf : (String.length
                  (snd (match s2 with
                        | String "." r => span isdigit r
                        | _ => (EmptyString, s2)
                        end)) <= String.length s2)%nat).
  { destruct s2 as [|x r]; simpl; [lia|].
    pose proof (span_length isdigit r).
    destruct x as [[|] [|] [|] [|] [|] [|] [|] [|]]; simpl; lia. }
  destruct (match s2 with String "." r => span isdigit r | _ => (EmptyString, s2) end)
    as [fp s3].
  cbn [String.length snd fst] in Hf.
  pose proof (exponent_part_length (negb (String.eqb (ip +++ fp) "")) s3) as He.
  destruct (exponent_part _ s3) as [ex r]. cbn [String.length snd fst] in He.
  destruct r as [|y r]; [discriminate|].
  intros H.
  assert (rest = String y r).
  { destruct (negb (negb _)); [discriminate|].
    destruct ex as [[eneg [|e0 ed]]|]; try discriminate;
      destruct (of_decimal _ _ _); try discriminate H; apply Value_rest in H; now subst. }
  subst. cbn [String.length snd fst] in *. lia.
Qed.

(** A completed turn consumes input. *)
Lemma read_record_length input person rest :
  read_record input = Value person rest ->
  (String.length rest < String.length input)%nat.
Proof.
  unfold read_record.
  destruct (get_cstr LAST_NAME_LENGTH input) as [x1 i1| | |] eqn:E1; try discriminate.
  apply get_cstr_length in E1. cbn [and_then].
  destruct (get_cstr FIRST_NAME_LENGTH i1) as [x2 i2| | |] eqn:E2; try discriminate.
  apply get_cstr_length in E2. cbn [and_then].
  destruct (get_char i2) as [x3 i3| | |] eqn:E3; try discriminate.
  apply get_char_length in E3. cbn [and_then].
  destruct (get_unsigned i3) as [x4 i4| | |] eqn:E4; try discriminate.
  apply get_unsigned_length in E4. cbn [and_then].
  destruct (get_unsigned i4) as [x5 i5| | |] eqn:E5; try discriminate.
  apply get_unsigned_length in E5. cbn [and_then].
  destruct (get_unsigned i5) as [x6 i6| | |] eqn:E6; try discriminate.
  apply get_unsigned_length in E6. cbn [and_then].
  destruct (get_double i6) as [x7 i7| | |] eqn:E7; try discriminate.
  apply get_double_length in E7. cbn [and_then].
  destruct (get_cstr ACC_NUM_LENGTH i7) as [x8 i8| | |] eqn:E8; try discriminate.
  apply get_cstr_length in E8. cbn [and_then].
  destruct (get_cstr PASS_LENGTH i8) as [x9 i9| | |] eqn:E9; try discriminate.
  apply get_cstr_length in E9. cbn [and_then].
  intros H. inversion H; subst. lia.
Qed.

(** X8.  The bound on the turns of the loading loop is never what ends it:
    with more turns allowed than the input has characters, [load_loop]
    returns what the unbounded loop of [loadDatabase] produces ([turns]). *)
Theorem load_loop_fuel (fuel : nat) :
  forall input people,
    (String.length input < fuel)%nat -> turns input people (load_loop fuel input people).
Proof.
  induction fuel as [|fuel IH]; intros input people Hf; [lia|].
  simpl. destruct (read_record input) as [person rest| | |] eqn:E.
  - eapply turns_next; [exact E|]. apply IH.
    apply read_record_length in E. lia.
  - now apply turns_eof.
  - now apply turns_failed.
  - now apply turns_overrun.
Qed.

Lemma load_loop_fuel_witness :
  turns two_accounts_text [] (Loaded two_accounts).
Proof.
  exact (load_loop_fuel 200 two_accounts_text [] ltac:(vm_compute; lia)).
Defined.

Lemma get_cstr_at_end cap pre w :
  all_chars isspace pre = true -> word cap w = true -> get_cstr cap (pre +++ w) = AtEof.
Proof.
  unfold word. intros Hpre Hw.
  apply andb_prop in Hw as [Hw Hlen]. apply andb_prop in Hw as [Hne Hns].
  unfold get_cstr. rewrite skip_space_blank by assumption.
  destruct w as [|c w]; [discriminate|]. cbn [all_chars] in Hns.
  apply andb_prop in Hns as [Hc Hns].
  assert (Hsp : isspace c = false) by (unfold nonspace in Hc; now destruct (isspace c)).
  rewrite skip_space_head by assumption.
  rewrite <- (append_nil_r (String c w)) at 1.
  rewrite span_stop; [|cbn [all_chars]; now rewrite Hc, Hns | exact I].
  apply Nat.leb_le in Hlen.
  destruct (Nat.ltb_spec cap (String.length (String c w))); [lia | reflexivity].
Qed.

(** The turn that reads a record whose last token ends the file. *)
Lemma read_record_unterminated sep pre r :
  separator sep = true -> all_chars isspace pre = true -> well_formed r = true ->
  read_record (pre +++ row_text sep EmptyString r) = AtEof.
Proof.
  intros Hsep Hpre Hwf. unfold well_formed in Hwf.
  repeat match type of Hwf with (_ && _) = true =>
    let H := fresh "W" in apply andb_prop in Hwf as [Hwf H] end.
  pose proof (separator_blank _ Hsep) as Bsep.
  unfold read_record, row_text. rewrite ?append_assoc.
  rewrite get_cstr_word; try assumption; [|now apply starts_blank_append].
  cbn [and_then].
  rewrite get_cstr_word; try assumption; [|now apply starts_blank_append].
  cbn [and_then].
  change (String (w_middle r) sep +++ ?x) with (String (w_middle r) (sep +++ x)).
  rewrite get_char_next by assumption. cbn [and_then].
  rewrite get_unsigned_numeral; try assumption; [|now apply starts_blank_append].
  cbn [and_then].
  rewrite get_unsigned_numeral; try assumption; [|now apply starts_blank_append].
  cbn [and_then].
  rewrite get_unsigned_numeral; try assumption; [|now apply starts_blank_append].
  cbn [and_then].
  rewrite get_double_balance; try assumption; [|now apply starts_blank_append].
  cbn [and_then].
  rewrite get_cstr_word; try assumption; [|now apply starts_blank_append].
  cbn [and_then].
  rewrite append_nil_r, get_cstr_at_end by assumption.
  reflexivity.
Qed.

Lemma load_loop_rows_then sep rsep rows :
  separator sep = true -> separator rsep = true ->
  forallb well_formed rows = true ->
  forall fuel pre people tail,
    all_chars isspace pre = true ->
    load_loop (List.length rows + fuel) (pre +++ file_text sep rsep rows +++ tail) people
    = load_loop fuel ((match rows with [] => pre | _ => rsep end) +++ tail)
                (people ++ map account_of rows).
Proof.
  intros Hsep Hrsep. induction rows as [|r rows IH]; intros Hwf fuel pre people tail Hpre.
  - simpl. now rewrite app_nil_r.
  - cbn [forallb] in Hwf. apply andb_prop in Hwf as [Hr Hwf].
    unfold file_text. cbn [List.length Nat.add load_loop map concat_all].
    fold (file_text sep rsep rows). rewrite append_assoc.
    rewrite (read_record_row sep rsep pre r) by assumption.
    rewrite IH by (try assumption; now apply separator_blank).
    rewrite <- app_assoc. cbn [app]. now destruct rows.
Qed.

Lemma main_data_only w acc_0 acc2_0 prog fileName loaded :
  switch_of prog = None ->
  loadDatabase (file_content w) [] fileName = Loaded loaded ->
  main w acc_0 acc2_0 [prog; "/D" +++ fileName]
  = (Return 0,
     written_back w fileName
       (mkState [(O_DATA, [fileName])] (std_sort w loaded) acc_0 acc_0 [] [])).
Proof.
  intros Hprog Hload. unfold main. cbn [sortArgs fold_left].
  rewrite (sortArgs_step_switch [] prog), Hprog.
  change (sortArgs_step [] ("/D" +++ fileName)) with [(O_DATA, [fileName])].
  unfold parseArgs. cbn [find help_wanted back].
  change (Ascii.eqb O_DATA O_HELP) with false. change (Ascii.eqb O_DATA O_DATA) with true.
  cbn iota. change (back [fileName]) with (Some fileName). cbn iota.
  rewrite Hload. reflexivity.
Qed.

(** X9.  A data file of well-formed records (tokens set apart by one
    separator, balances as unsigned decimals) whose last record is not
    followed by white space: extracting the password reaches the end of the
    file, so that record is discarded.  A run with the data-file switch alone
    returns 0 with the earlier records only in the store, as the sorting
    left them, and the destructor writes those back. *)
Theorem unterminated_last_record
    (w : world) (acc_0 acc2_0 : ptr) (prog fileName sep rsep : string)
    (rows : list row) (r : row) :
  switch_of prog = None ->
  separator sep = true -> separator rsep = true ->
  forallb well_formed rows = true -> well_formed r = true ->
  file_content w fileName = Some (file_text sep rsep rows +++ row_text sep EmptyString r) ->
  main w acc_0 acc2_0 [prog; "/D" +++ fileName]
  = (Return 0,
     written_back w fileName
       (mkState [(O_DATA, [fileName])] (std_sort w (map account_of rows)) acc_0 acc_0
                [] [])).
Proof.
  intros Hprog Hsep Hrsep Hwf Hr Hfile. apply main_data_only; [assumption|].
  unfold loadDatabase. rewrite Hfile.
  set (text := file_text sep rsep rows +++ row_text sep EmptyString r).
  assert (Hlen : (List.length rows <= String.length text)%nat).
  { subst text. rewrite length_append. pose proof (rows_shorter sep rsep rows Hrsep). lia. }
  replace (S (String.length text))
    with (List.length rows + S (String.length text - List.length rows))%nat by lia.
  subst text.
  change (file_text sep rsep rows +++ row_text sep "" r)
    with ("" +++ file_text sep rsep rows +++ row_text sep "" r).
  rewrite (load_loop_rows_then sep rsep rows Hsep Hrsep Hwf) by reflexivity.
  cbn [load_loop]. rewrite read_record_unterminated; try assumption.
  - reflexivity.
  - destruct rows; [reflexivity | now apply separator_blank].
Qed.

Lemma unterminated_last_record_witness :
  out (snd (main (mkWorld (fun _ => Some (file_text " " endl [rick_row]
                                           +++ row_text " " EmptyString jane_row))
                          (fun _ => true) (fun _ => true) sort)
                 None None ["bankacct"; "/Dbank.db"]))
  = [Written "bank.db"
       (lines ["Roe"; "Rick"; "R"; "987654321"; "555"; "54321"; "10"; "A0002"; "XYZ789"; ""])].
Proof.
  pose proof (unterminated_last_record
                (mkWorld (fun _ => Some (file_text " " endl [rick_row]
                                         +++ row_text " " EmptyString jane_row))
                         (fun _ => true) (fun _ => true) sort)
                None None "bankacct" "bank.db" " " endl [rick_row] jane_row
                eq_refl eq_refl eq_refl eq_refl eq_refl eq_refl) as E.
  change ("/D" +++ "bank.db") with "/Dbank.db" in E. rewrite E.
  vm_compute. reflexivity.
Defined.

Lemma sign_other c s :
  c <> "-"%char -> c <> "+"%char -> sign (String c s) = (false, String c s).
Proof.
  intros Hm Hp. unfold sign.
  destruct c as [[|] [|] [|] [|] [|] [|] [|] [|]]; try reflexivity; congruence.
Qed.

Lemma get_unsigned_no_numeral pre c junk :
  all_chars isspace pre = true -> starts_no_numeral c = true ->
  get_unsigned (pre +++ String c junk) = Failed.
Proof.
  unfold starts_no_numeral. intros Hpre H.
  apply andb_prop in H as [H Hp]. apply andb_prop in H as [H Hm].
  apply andb_prop in H as [Hd Hs].
  apply negb_true_iff in Hd, Hs, Hm, Hp. apply Ascii.eqb_neq in Hm, Hp.
  unfold get_unsigned. rewrite skip_space_blank, skip_space_head by assumption.
  rewrite sign_other by assumption. cbn [span]. now rewrite Hd.
Qed.

Lemma digits_value_digit c r z :
  isdigit c = true -> digits_value (String c r) z = digits_value r (10 * z + digit_val c).
Proof. intros H. cbn [digits_value]. now rewrite H. Qed.

Lemma digits_of_uint_acc d : forall acc,
  digits_value (NilEmpty.string_of_uint d) (Zpos acc) = Zpos (Pos.of_uint_acc d acc).
Proof.
  induction d; intros acc; cbn [NilEmpty.string_of_uint Pos.of_uint_acc];
    [reflexivity | ..];
    rewrite digits_value_digit by reflexivity; rewrite <- IHd; f_equal;
    unfold digit_val, code; cbn [nat_of_ascii]; vm_compute Z.of_nat; lia.
Qed.

Lemma digits_of_uint d :
  digits_value (NilEmpty.string_of_uint d) 0 = Z.of_N (Pos.of_uint d).
Proof.
  induction d; cbn [NilEmpty.string_of_uint Pos.of_uint];
    [reflexivity | ..];
    rewrite digits_value_digit by reflexivity;
    first [ exact IHd | apply digits_of_uint_acc ].
Qed.

Lemma all_digits_of_uint d : all_chars isdigit (NilEmpty.string_of_uint d) = true.
Proof. induction d; cbn [NilEmpty.string_of_uint all_chars]; auto. Qed.

Lemma print_uint_numeral n :
  0 <= n < 2 ^ 32 -> numeral (print_uint n) = true /\ digits_value (print_uint n) 0 = n.
Proof.
  intros Hn. unfold print_uint, NilZero.string_of_uint.
  assert (Hv : digits_value (NilEmpty.string_of_uint (N.to_uint (Z.to_N n))) 0 = n).
  { rewrite digits_of_uint. change (Pos.of_uint (N.to_uint (Z.to_N n)))
      with (N.of_uint (N.to_uint (Z.to_N n))).
    rewrite DecimalN.Unsigned.of_to. lia. }
  destruct (N.to_uint (Z.to_N n)) eqn:E;
    [exfalso; destruct (Z.to_N n) as [|p]; [discriminate E|];
     now apply (DecimalPos.Unsigned.to_uint_nonnil p)|..];
    (split; [|exact Hv]; unfold numeral; rewrite Hv, all_digits_of_uint;
     cbn [NilEmpty.string_of_uint nonempty andb]; apply Z.ltb_lt; lia).
Qed.

(** X11.  The decimal text that the destructor writes for an [unsigned int]
    field is extracted again as the same value: after any white space and
    before a white-space character, [operator>>] reads [print_uint n] back
    as [n], for every [n] below 2^32, and leaves what follows. *)
Theorem unsigned_text_reads_back (n : Z) (pre post : string) :
  0 <= n < 2 ^ 32 ->
  all_chars isspace pre = true -> starts_blank post = true ->
  get_unsigned (pre +++ print_uint n +++ post) = Value n post.
Proof.
  intros Hn Hpre Hpost. destruct (print_uint_numeral n Hn) as [Hnum Hv].
  rewrite get_unsigned_numeral by assumption. now rewrite Hv.
Qed.

Lemma unsigned_text_reads_back_witness :
  get_unsigned (endl +++ print_uint 5551234 +++ endl +++ "100") = Value 5551234 (endl +++ "100").
Proof.
  apply (unsigned_text_reads_back 5551234 endl (endl +++ "100")); [lia | reflexivity..].
Defined.

End StreamFacts.

(** ** The loading loop, turn by turn *)

Module TurnFacts.
Import ArgsFacts EngineFacts OrderFacts ClaimFacts LoaderFacts.
Import CollectorFacts StartupFacts StreamFacts.

(** A stream that has failed away from the end of the input never leaves
    the loop. *)
Lemma failed_goes_on n : forall text,
  after_turns n (mkStream text false true) = Goes_on (mkStream text false true).
Proof. induction n as [|n IH]; intros text; [reflexivity|]. cbn. apply IH. Qed.

Lemma failed_record_goes_on text n :
  read_record text = Failed ->
  after_turns (S n) (fresh text) = Goes_on (mkStream text false true).
Proof.
  intros H. cbn [after_turns]. unfold loop_turn, fresh.
  cbn [eofbit failbit pending]. rewrite H. apply failed_goes_on.
Qed.

(** The loop that [load_loop] runs to its end is left after so many
    turns. *)
Lemma loaded_leaves fuel : forall input people l,
  load_loop fuel input people = Loaded l ->
  exists n, after_turns n (fresh input) = Leaves.
Proof.
  induction fuel as [|fuel IH]; intros input people l H; [discriminate|].
  cbn [load_loop] in H.
  destruct (read_record input) as [person rest| | |] eqn:E; try discriminate.
  - destruct (IH _ _ _ H) as [n Hn]. exists (S n).
    cbn [after_turns]. unfold loop_turn, fresh. cbn [eofbit failbit pending].
    now rewrite E.
  - exists 1%nat. cbn [after_turns]. unfold loop_turn, fresh.
    cbn [eofbit failbit pending]. now rewrite E.
Qed.

Lemma bad_number_fails l f sep junk m c :
  word LAST_NAME_LENGTH l = true -> word FIRST_NAME_LENGTH f = true ->
  nonspace m = true -> separator sep = true -> starts_no_numeral c = true ->
  read_record (l +++ sep +++ f +++ sep +++ String m (sep +++ String c junk)) = Failed.
Proof.
  intros Hl Hf Hm Hsep Hc. unfold read_record.
  pose proof (separator_blank _ Hsep) as Bsep.
  pose proof (fun post => get_cstr_word LAST_NAME_LENGTH "" l post eq_refl Hl) as E1.
  change (forall post, starts_blank post = true ->
                       get_cstr LAST_NAME_LENGTH (l +++ post) = Value l post) in E1.
  rewrite E1 by (now apply starts_blank_append).
  cbn [and_then].
  rewrite get_cstr_word by (first [assumption | now apply starts_blank_append]).
  cbn [and_then].
  rewrite get_char_next by assumption. cbn [and_then].
  rewrite get_unsigned_no_numeral by assumption. reflexivity.
Qed.

(** X10.  A data file whose first record has, where the social security
    number belongs, a token that does not start a numeral: the extraction
    sets [failbit] away from the end of the file, every later extraction
    does nothing, [input.eof()] stays false, and after any number of turns
    the loop of [loadDatabase] is still running on the same failed stream.
    [loadDatabase] does not return. *)
Theorem bad_number_never_returns (l f sep junk : string) (m c : ascii) (n : nat) :
  word LAST_NAME_LENGTH l = true -> word FIRST_NAME_LENGTH f = true ->
  nonspace m = true -> separator sep = true -> starts_no_numeral c = true ->
  after_turns (S n) (fresh (l +++ sep +++ f +++ sep +++ String m (sep +++ String c junk)))
  = Goes_on (mkStream (l +++ sep +++ f +++ sep +++ String m (sep +++ String c junk))
                      false true).
Proof.
  intros Hl Hf Hm Hsep Hc. apply failed_record_goes_on. now apply bad_number_fails.
Qed.

Lemma bad_number_never_returns_witness :
  after_turns 1000 (fresh "Doe Jane J none 555 5551234 100.00 A0001 ABC123 ")
  = Goes_on (mkStream "Doe Jane J none 555 5551234 100.00 A0001 ABC123 " false true).
Proof.
  apply (bad_number_never_returns "Doe" "Jane" " " "one 555 5551234 100.00 A0001 ABC123 "
                                  "J" "n" 999); reflexivity.
Defined.

Lemma and_then_Value {A B} (g : got A) (k : A -> string -> got B) b r :
  and_then g k = Value b r -> exists a r0, g = Value a r0 /\ k a r0 = Value b r.
Proof. destruct g as [a r0| | |]; try discriminate. intros H. now exists a, r0. Qed.

Lemma get_cstr_Value_blank cap input w rest :
  get_cstr cap input = Value w rest -> starts_blank rest = true.
Proof.
  unfold get_cstr. destruct (skip_space input) as [|c s]; [discriminate|].
  assert (H : forall t, starts_blank (snd (span nonspace t)) = true
                        \/ snd (span nonspace t) = EmptyString).
  { induction t as [|x t IH]; [now right|].
    cbn [span]. destruct (nonspace x) eqn:X.
    - destruct (span nonspace t). exact IH.
    - left. cbn [snd starts_blank]. unfold nonspace in X. now destruct (isspace x). }
  specialize (H (String c s)). destruct (span nonspace (String c s)) as [a b].
  cbn [snd] in H. destruct (_ <? _)%nat; [discriminate|].
  destruct b as [|y b]; [discriminate|]. intros E. apply Value_rest in E. subst rest.
  destruct H as [H|H]; [exact H | discriminate H].
Qed.

(** X20.  An account enters the store only when a white-space character
    follows its password in the file: a turn of the loop that completes
    leaves a text that starts with white space.  A last record that ends
    with the file is never stored, whatever its tokens are. *)
Theorem stored_record_precedes_white_space (input : string) (person : Account)
                                           (rest : string) :
  read_record input = Value person rest -> starts_blank rest = true.
Proof.
  unfold read_record. intros H.
  repeat match type of H with
         | and_then _ _ = Value _ _ =>
             apply and_then_Value in H; destruct H as (? & ? & ? & H)
         end.
  apply Value_rest in H. subst rest.
  match goal with E : get_cstr PASS_LENGTH _ = Value _ _ |- _ =>
    exact (get_cstr_Value_blank _ _ _ _ E) end.
Qed.

Lemma stored_record_precedes_white_space_witness :
  starts_blank (String "010" "Roe Rick R 987654321 555 5554321 10.00 A0002 XYZ789") = true.
Proof.
  apply (stored_record_precedes_white_space
           ("Doe Jane J 123456789 555 5551234 100.00 A0001 ABC123"
            +++ String "010" "Roe Rick R 987654321 555 5554321 10.00 A0002 XYZ789")
           jane).
  vm_compute. reflexivity.
Defined.

End TurnFacts.

(** ** The cases of the engine *)

Module CaseFacts.
Import ArgsFacts EngineFacts OrderFacts ClaimFacts LoaderFacts.
Import CollectorFacts.

Lemma resolve_resolved s i :
  resolved s = Some i -> resolve s = (Next tt, set_acc (Some i) (after_lookup s)).
Proof.
  unfold resolved. intros H. rewrite resolve_spec.
  destruct (findAccount _ _ _) as [k|]; [now inversion H|]. now rewrite H.
Qed.

Lemma resolve_unresolved s :
  resolved s = None -> resolve s = (Return ERR_NO_ACCOUNT, set_acc None (after_lookup s)).
Proof.
  unfold resolved. intros H. rewrite resolve_spec.
  destruct (findAccount _ _ _) as [k|]; [discriminate|]. now rewrite H.
Qed.

Lemma yank_matching_accepts c r s v :
  fst (yankArg (args s) c) = Some v -> regex_match v r = true ->
  yank_matching c r s = (Next v, set_args (snd (yankArg (args s) c)) s).
Proof.
  unfold yank_matching, bind, yank. destruct (yankArg (args s) c) as [b m]. simpl.
  intros -> Hm. now rewrite Hm.
Qed.

Lemma yank_matching_rejects c r s :
  match fst (yankArg (args s) c) with
  | Some v => regex_match v r = false
  | None => True
  end ->
  yank_matching c r s = (Return ERR_NO_INFO, set_args (snd (yankArg (args s) c)) s).
Proof.
  unfold yank_matching, bind, yank. destruct (yankArg (args s) c) as [[v|] m]; simpl.
  - now intros ->.
  - reflexivity.
Qed.

Lemma assign_valid i f s a :
  nth_error (people s) i = Some a ->
  assign (Some i) f s = (Next tt, set_people (modify i f (people s)) s).
Proof.
  intros H. unfold assign, deref, bind, read, ret, update_state. now rewrite H.
Qed.

(** The value of a run of digits. *)
Lemma digits_value_bounds v : forall acc,
  all_in Cdigit v = true -> 0 <= acc ->
  digits_value v acc = acc * 10 ^ Z.of_nat (String.length v) + digits_value v 0 /\
  0 <= digits_value v 0 < 10 ^ Z.of_nat (String.length v).
Proof.
  induction v as [|c v IH]; intros acc Hd Hacc.
  - simpl. lia.
  - cbn [all_in class_has] in Hd. apply andb_prop in Hd as [Hc Hv].
    cbn [digits_value String.length]. rewrite Hc.
    assert (Hdv : 0 <= digit_val c <= 9).
    { unfold isdigit, in_range in Hc. apply andb_prop in Hc as [H1 H2].
      apply Nat.leb_le in H1, H2. unfold digit_val.
      change (code "0") with 48%nat in H1. change (code "9") with 57%nat in H2. lia. }
    destruct (IH (10 * acc + digit_val c) Hv ltac:(lia)) as [E1 B1].
    destruct (IH (10 * 0 + digit_val c) Hv ltac:(lia)) as [E2 _].
    rewrite E1, E2. rewrite Nat2Z.inj_succ, Z.pow_succ_r by lia. split; nia.
Qed.

Lemma digits_atoi v :
  all_in Cdigit v = true -> atoi v = digits_value v 0.
Proof.
  destruct v as [|c v]; [reflexivity|]. cbn [all_in class_has]. intros H.
  apply andb_prop in H as [Hc _]. unfold atoi.
  pose proof (digit_facts c Hc) as (Hs & Hm & Hp).
  rewrite skip_space_head by assumption.
  destruct c as [[|] [|] [|] [|] [|] [|] [|] [|]]; try reflexivity; congruence.
Qed.

Lemma numeral_of_pattern v n :
  regex_match v (Anchored Cdigit (Qexactly n)) = true -> (n <= 9)%nat ->
  to_unsigned (atoi v) = digits_value v 0 /\ atoi v = digits_value v 0 /\
  0 <= atoi v < 2 ^ 31.
Proof.
  unfold regex_match. cbn [re_class re_quant]. intros H Hn.
  apply andb_prop in H as [Hd Hl]. apply Nat.eqb_eq in Hl.
  destruct (digits_value_bounds v 0 Hd ltac:(lia)) as [_ B].
  assert (10 ^ Z.of_nat (String.length v) <= 10 ^ 9)
    by (apply Z.pow_le_mono_r; lia).
  assert (Hr : 0 <= digits_value v 0 < 2 ^ 31) by (change (2 ^ 31) with 2147483648; lia).
  rewrite digits_atoi by assumption.
  split; [|split; [reflexivity | exact Hr]].
  unfold to_unsigned. apply Z.mod_small. change (2 ^ 32) with 4294967296.
  change (2 ^ 31) with 2147483648 in Hr. lia.
Qed.

Lemma numeric_case c r n (set : Z -> Account -> Account) :
  r = Anchored Cdigit (Qexactly n) -> (n <= 9)%nat ->
  stores_numeral (resolve ;; buf <- yank_matching c r ;; a <- read acc ;;
                  assign a (set (to_unsigned (atoi buf)))) c r set.
Proof.
  intros -> Hn s i a v Hres Hnth Hv Hm.
  destruct (numeral_of_pattern v n Hm Hn) as (Hu & Ha & Hb). split; [|split; assumption].
  rewrite (bind_Next _ _ _ _ _ (resolve_resolved s i Hres)).
  rewrite (bind_Next _ _ _ _ _
             (yank_matching_accepts c _ (set_acc (Some i) (after_lookup s)) v Hv Hm)).
  unfold bind at 1, read. cbn [acc set_args set_acc]. rewrite Hu.
  now rewrite (assign_valid i _ _ a).
Qed.

(** X12.  The cases of the area code, the phone number and the social
    security number: with an account resolved and a value that matches the
    pattern of the case, the case goes on to the next code with the field of
    that account set to the number the value denotes.  That number is the
    result of [atoi] and lies below [2^31]: on an accepted value [atoi]
    does not overflow its [int], and the conversion to [unsigned int]
    keeps the value. *)
Theorem numeric_fields_stored :
  stores_numeral case_CHANGE_AREA O_CHANGE_AREA R_AREA set_area /\
  stores_numeral case_CHANGE_PHONE O_CHANGE_PHONE R_PHONE set_phone /\
  stores_numeral case_CHANGE_SSN O_CHANGE_SSN R_SSN set_social.
Proof.
  split; [|split].
  - exact (numeric_case O_CHANGE_AREA R_AREA 3 set_area eq_refl ltac:(lia)).
  - exact (numeric_case O_CHANGE_PHONE R_PHONE 7 set_phone eq_refl ltac:(lia)).
  - exact (numeric_case O_CHANGE_SSN R_SSN 9 set_social eq_refl ltac:(lia)).
Qed.

Lemma numeric_fields_stored_witness :
  case_CHANGE_AREA before_area_change
  = (Next tt, changed O_CHANGE_AREA 0 (set_area 7) before_area_change) /\
  map area (people (changed O_CHANGE_AREA 0 (set_area 7) before_area_change)) = [7; 555].
Proof.
  split; [|reflexivity].
  exact (proj1 (proj1 numeric_fields_stored before_area_change 0%nat jane "007"
                  eq_refl eq_refl eq_refl eq_refl)).
Defined.

Lemma nth_error_modify i f : forall (l : list Account) a,
  nth_error l i = Some a -> nth_error (modify i f l) i = Some (f a).
Proof.
  induction i as [|i IH]; intros [|b l] a H; simpl in *; try discriminate.
  - now inversion H.
  - now apply IH.
Qed.

Lemma map_number_modify i f : forall l : list Account,
  (forall a, number (f a) = number a) -> map number (modify i f l) = map number l.
Proof.
  induction i as [|i IH]; intros [|b l] H; simpl; try reflexivity.
  - now rewrite H.
  - now rewrite IH.
Qed.

Lemma unique_number (l : list Account) i j a b :
  NoDup (map number l) -> nth_error l i = Some a -> nth_error l j = Some b ->
  number a = number b -> i = j.
Proof.
  intros Hnd Hi Hj Hn. rewrite NoDup_nth_error in Hnd. apply Hnd.
  - rewrite length_map. apply nth_error_Some. congruence.
  - rewrite !nth_error_map, Hi, Hj. simpl. now rewrite Hn.
Qed.

Lemma pass_length v : regex_match v R_PASS = true -> String.length v = PASS_LENGTH.
Proof.
  unfold regex_match. cbn [re_quant R_PASS]. intros H.
  apply andb_prop in H as [_ H]. now apply Nat.eqb_eq in H.
Qed.

(** X13.  The new-password case: with an account resolved and a value that
    matches [R_PASS], the password of that account becomes the value.  When
    the account numbers of the store are distinct, [findAccount] afterwards
    finds the account under its number and the new password, and no longer
    under the old password if that differs. *)
Theorem new_password_takes_effect (s : state) (i : nat) (a : Account) (v : string) :
  resolved s = Some i -> nth_error (people s) i = Some a ->
  next_value O_NEWPASS s = Some v -> regex_match v R_PASS = true ->
  NoDup (map number (people s)) ->
  case_NEWPASS s = (Next tt, changed O_NEWPASS i (set_password v) s) /\
  findAccount (modify i (set_password v) (people s)) (Some (number a)) (Some v) = Some i /\
  (v <> password a ->
   findAccount (modify i (set_password v) (people s)) (Some (number a)) (Some (password a))
   = None).
Proof.
  intros Hres Hnth Hv Hm Hnd.
  assert (Hnth' : nth_error (modify i (set_password v) (people s)) i
                  = Some (set_password v a)) by now apply nth_error_modify.
  assert (Hnd' : NoDup (map number (modify i (set_password v) (people s))))
    by (rewrite map_number_modify; [assumption | reflexivity]).
  split; [|split].
  - unfold case_NEWPASS.
    rewrite (bind_Next _ _ _ _ _ (resolve_resolved s i Hres)).
    rewrite (bind_Next _ _ _ _ _
               (yank_matching_accepts O_NEWPASS _ (set_acc (Some i) (after_lookup s)) v Hv Hm)).
    unfold bind at 1, read, strcpy. cbn [acc set_args set_acc].
    rewrite (pass_length v Hm), Nat.ltb_irrefl.
    now rewrite (assign_valid i _ _ a).
  - pose proof (findAccount_given (modify i (set_password v) (people s))
                  (number a) v) as H.
    destruct (findAccount _ _ _) as [k|].
    + destruct H as [(b & Hb & Hbn & _) _]. f_equal.
      eapply unique_number; [exact Hnd' | exact Hb | exact Hnth' |]. now rewrite Hbn.
    + exfalso. apply (H (set_password v a)); [|split; reflexivity].
      eapply nth_error_In. exact Hnth'.
  - intros Hne.
    pose proof (findAccount_given (modify i (set_password v) (people s))
                  (number a) (password a)) as H.
    destruct (findAccount _ _ _) as [k|]; [|reflexivity].
    destruct H as [(b & Hb & Hbn & Hbp) _]. exfalso.
    assert (k = i) by (eapply unique_number;
                       [exact Hnd' | exact Hb | exact Hnth' | now rewrite Hbn]).
    subst k. rewrite Hnth' in Hb. inversion Hb; subst b. now apply Hne.
Qed.

Lemma new_password_takes_effect_witness :
  fst (case_NEWPASS before_new_password) = Next tt /\
  findAccount (modify 0 (set_password "NEWPW1") two_accounts) (Some "A0001") (Some "NEWPW1")
  = Some 0%nat /\
  findAccount (modify 0 (set_password "NEWPW1") two_accounts) (Some "A0001") (Some "ABC123")
  = None.
Proof.
  destruct (new_password_takes_effect before_new_password 0 jane "NEWPW1"
              eq_refl eq_refl eq_refl eq_refl) as (H1 & H2 & H3).
  - repeat constructor; simpl; intuition discriminate.
  - split; [now rewrite H1|]. split; [exact H2|]. apply H3. discriminate.
Defined.

(** X14.  The middle-initial case with an account resolved: only the first
    character of the value is looked at.  When it is a letter it becomes the
    middle initial, whatever follows it; when the value is missing, empty or
    starts with another character the case returns [ERR_NO_INFO] and the
    store is unchanged. *)
Theorem middle_initial_first_character (s : state) (i : nat) (a : Account) :
  resolved s = Some i -> nth_error (people s) i = Some a ->
  case_CHANGE_M s =
  match next_value O_CHANGE_M s with
  | Some (String c _) =>
      if isalpha c then (Next tt, changed O_CHANGE_M i (set_middle c) s)
      else (Return ERR_NO_INFO, rejected O_CHANGE_M i s)
  | _ => (Return ERR_NO_INFO, rejected O_CHANGE_M i s)
  end.
Proof.
  intros Hres Hnth. unfold case_CHANGE_M, next_value, rejected, changed.
  rewrite (bind_Next _ _ _ _ _ (resolve_resolved s i Hres)).
  unfold bind at 1, yank. cbn [args set_acc].
  destruct (yankArg (args (after_lookup s)) O_CHANGE_M) as [[[|c rest]|] m]; cbn [fst snd].
  - reflexivity.
  - destruct (isalpha c); [|reflexivity].
    unfold bind, read. cbn [acc set_args set_acc].
    now rewrite (assign_valid i _ _ a).
  - reflexivity.
Qed.

Lemma middle_initial_first_character_witness :
  case_CHANGE_M before_middle_change
  = (Next tt, changed O_CHANGE_M 0 (set_middle "Q") before_middle_change).
Proof.
  exact (middle_initial_first_character before_middle_change 0 jane eq_refl eq_refl).
Defined.

Lemma name_case c cap (set : string -> Account -> Account) :
  copies_name (resolve ;; buf <- yank_matching c R_NAME ;; a <- read acc ;;
               strcpy cap a set buf) c cap set.
Proof.
  intros s i a v Hres Hnth Hv Hm.
  rewrite (bind_Next _ _ _ _ _ (resolve_resolved s i Hres)).
  rewrite (bind_Next _ _ _ _ _
             (yank_matching_accepts c _ (set_acc (Some i) (after_lookup s)) v Hv Hm)).
  unfold bind at 1, read, strcpy. cbn [acc set_args set_acc].
  destruct (Nat.leb_spec (String.length v) cap) as [Hle|Hgt].
  - destruct (Nat.ltb_spec cap (String.length v)); [lia|].
    now rewrite (assign_valid i _ _ a).
  - destruct (Nat.ltb_spec cap (String.length v)); [reflexivity | lia].
Qed.

(** X15.  The first-name and last-name cases: with an account resolved and
    a value that matches [R_NAME], the name becomes the value when it fits
    the field; the pattern puts no bound on the length, and a value longer
    than the field is copied past the end of the buffer by [strcpy]. *)
Theorem names_copied_unbounded :
  copies_name case_CHANGE_F O_CHANGE_F FIRST_NAME_LENGTH set_first /\
  copies_name case_CHANGE_L O_CHANGE_L LAST_NAME_LENGTH set_last.
Proof.
  split.
  - exact (name_case O_CHANGE_F FIRST_NAME_LENGTH set_first).
  - exact (name_case O_CHANGE_L LAST_NAME_LENGTH set_last).
Qed.

Lemma names_copied_unbounded_witness :
  case_CHANGE_F before_name_change
  = (Next tt, changed O_CHANGE_F 0 (set_first "alpha") before_name_change) /\
  map first (people (changed O_CHANGE_F 0 (set_first "alpha") before_name_change))
  = ["alpha"; "Rick"].
Proof.
  split; [|reflexivity].
  exact (proj1 names_copied_unbounded before_name_change 0%nat jane "alpha"
           eq_refl eq_refl eq_refl eq_refl).
Defined.

(** X16.  Whenever the transfer case returns a code, the store is as it
    was, and the code is that of the first test that fails, in the order of
    the code: no first account, no second account, no value or a value that
    fails the pattern, and [ERR_TOO_MUCH_TRANSFER] only for a first account
    whose balance is below zero. *)
Theorem transfer_returns (s s' : state) (code : Z) :
  case_TRANS s = (Return code, s') -> people s' = people s /\ transfer_refusal s code.
Proof.
  unfold case_TRANS, transfer_refusal, next_value.
  rewrite (bind_Next _ _ _ _ _ (lookup_spec s)).
  unfold bind at 1, update_state at 1.
  destruct (findAccount (people s) (next_number s) (next_password s)) as [i|].
  2: { intros H. inversion H; subst. now split. }
  set (sa := set_acc (Some i) (after_lookup s)).
  rewrite (bind_Next _ _ _ _ _ (lookup_spec sa)).
  unfold bind at 1, update_state at 1.
  change (people sa) with (people s).
  change (next_number sa) with (next_number (after_lookup s)).
  change (next_password sa) with (next_password (after_lookup s)).
  destruct (findAccount (people s) (next_number (after_lookup s))
                        (next_password (after_lookup s))) as [j|].
  2: { intros H. inversion H; subst. now split. }
  set (sb := set_acc2 (Some j) (after_lookup sa)).
  change (args (after_lookup (after_lookup s))) with (args sb).
  intros H.
  destruct (bind_inv _ _ _ _ _ H) as [(buf & s1 & E1 & K1) | [(c & E1 & Hc) | (_ & Hc)]];
    [| |discriminate Hc].
  - apply yank_matching_inv in E1. destruct E1 as (Hm & Hv & ->).
    rewrite Hv, Hm. apply R_NAME_atoi in Hm. rewrite Hm in K1.
    destruct (bind_inv _ _ _ _ _ K1) as [(from & s2 & E2 & K2) | [(c & E2 & Hc) | (_ & Hc)]];
      [| |discriminate Hc].
    + apply deref_inv in E2. destruct E2 as (-> & k & Hk & Hfrom).
      inversion Hk; subst k.
      destruct (ltb (balance from) (of_int 0)) eqn:L.
      * inversion K2; subst. split; [reflexivity|]. split; [reflexivity|].
        exists from. now split.
      * destruct (bind_inv _ _ _ _ _ K2) as [([] & s3 & E3 & K3) | [(c & E3 & Hc) | (_ & Hc)]];
          [| |discriminate Hc].
        -- exfalso. unfold assign in K3.
           destruct (bind_inv _ _ _ _ _ K3) as [(x & s4 & E4 & K4) | [(c & E4 & Hc) | (_ & Hc)]];
             [| |discriminate Hc].
           ++ inversion K4.
           ++ unfold deref, bind, read, ret, undefined in E4.
              destruct (nth_error (people s3) j); discriminate E4.
        -- exfalso. unfold assign in E3.
           destruct (bind_inv _ _ _ _ _ E3) as [(x & s4 & E4 & K4) | [(c' & E4 & Hc') | (_ & Hc')]];
             [| |discriminate Hc'].
           ++ inversion K4.
           ++ unfold deref, bind, read, ret, undefined in E4.
              destruct (nth_error _ i); discriminate E4.
    + unfold deref, bind, read, ret, undefined in E2.
      destruct (nth_error _ i); discriminate E2.
  - inversion Hc; subst c. clear Hc.
    unfold yank_matching, bind, yank, ret, return_ in E1.
    destruct (yankArg (args sb) O_TRANS) as [[v|] m]; cbn [fst].
    + destruct (regex_match v R_NAME); [discriminate E1|].
      inversion E1; subst. now split.
    + inversion E1; subst. now split.
Qed.

Lemma transfer_returns_witness :
  fst (case_TRANS before_overdrawn_transfer) = Return ERR_TOO_MUCH_TRANSFER /\
  people (snd (case_TRANS before_overdrawn_transfer)) = overdrawn_accounts.
Proof.
  destruct (transfer_returns before_overdrawn_transfer
              (snd (case_TRANS before_overdrawn_transfer)) ERR_TOO_MUCH_TRANSFER)
    as [H _].
  - vm_compute. reflexivity.
  - split; [vm_compute; reflexivity | exact H].
Defined.

Lemma fst_yankArg_find m m' c :
  find m c = find m' c -> fst (yankArg m c) = fst (yankArg m' c).
Proof. unfold yankArg. intros ->. now destruct (find m' c) as [[|v q]|]. Qed.

Lemma credentials_after_other s c :
  c <> O_NUM -> c <> O_PASS ->
  next_number (set_args (snd (yankArg (args s) c)) s) = next_number s /\
  next_password (set_args (snd (yankArg (args s) c)) s) = next_password s.
Proof.
  intros Hn Hp. unfold next_number, next_password. cbn [args set_args]. split.
  - apply fst_yankArg_find. apply find_yankArg_other. congruence.
  - apply fst_yankArg_find.
    rewrite !find_yankArg_other by (first [discriminate | congruence]). reflexivity.
Qed.

(** X17.  The info case: it consumes one info value and one pair of
    credentials, shows the account they name and otherwise the account the
    last mutation case left in [acc]; with neither it returns
    [ERR_NO_ACCOUNT].  What it sends out is the nine fields of that account,
    and [acc2] is left pointing to it. *)
Theorem info_shows (s : state) :
  case_INFO s =
  match shown s with
  | None => (Return ERR_NO_ACCOUNT, info_state s None)
  | Some i =>
      match nth_error (people s) i with
      | Some a => (Next tt, emit (Cout (info_text a)) (info_state s (Some i)))
      | None => (Undefined, info_state s (Some i))
      end
  end.
Proof.
  unfold case_INFO, shown, info_state.
  set (sI := set_args (snd (yankArg (args s) O_INFO)) s).
  assert (E0 : yank O_INFO s = (Next (fst (yankArg (args s) O_INFO)), sI))
    by (unfold yank; now destruct (yankArg (args s) O_INFO)).
  rewrite (bind_Next _ _ _ _ _ E0).
  destruct (credentials_after_other s O_INFO ltac:(discriminate) ltac:(discriminate))
    as [Hn Hp].
  fold sI in Hn, Hp.
  rewrite (bind_Next _ _ _ _ _ (lookup_spec sI)). rewrite Hn, Hp.
  change (people sI) with (people s).
  destruct (findAccount (people s) (next_number s) (next_password s)) as [i|].
  - rewrite (bind_Next _ _ _ _ _
               (eq_refl : update_state (set_acc2 (Some i)) (after_lookup sI)
                          = (Next tt, set_acc2 (Some i) (after_lookup sI)))).
    unfold bind at 1, update_state at 1. cbn [acc2 set_acc2].
    unfold bind at 1, read at 1. cbn [acc2 set_acc2].
    unfold deref. unfold bind, read, ret, undefined, update_state.
    change (people (set_acc2 (Some i) (after_lookup sI))) with (people s).
    now destruct (nth_error (people s) i).
  - rewrite (bind_Next _ _ _ _ _
               (eq_refl : update_state (set_acc2 None) (after_lookup sI)
                          = (Next tt, set_acc2 None (after_lookup sI)))).
    unfold bind at 1, update_state at 1. cbn [acc2 set_acc2].
    change (acc (set_acc2 None (after_lookup sI))) with (acc s).
    unfold bind at 1, read at 1. cbn [acc2 set_acc2].
    destruct (acc s) as [i|]; [|reflexivity].
    unfold deref. unfold bind, read, ret, undefined, update_state.
    change (people (set_acc2 (Some i) (set_acc2 None (after_lookup sI)))) with (people s).
    now destruct (nth_error (people s) i).
Qed.

End CaseFacts.

Module RunFacts.
Import ArgsFacts EngineFacts OrderFacts ClaimFacts LoaderFacts.
Import CollectorFacts CaseFacts.

Lemma same_double_refl x : same_double x x.
Proof. now left. Qed.

Lemma same_double_trans x y z : same_double x y -> same_double y z -> same_double x z.
Proof.
  intros [->|(sx & sy & -> & ->)] [->|(sy' & sz & E & ->)].
  - now left.
  - right. eauto.
  - right. eauto.
  - right. eauto.
Qed.

Lemma kept_refl a : kept a a.
Proof. split; [reflexivity | apply same_double_refl]. Qed.

Lemma kept_trans a b c : kept a b -> kept b c -> kept a c.
Proof.
  intros [N1 B1] [N2 B2]. split; [congruence | eapply same_double_trans; eassumption].
Qed.

Lemma Forall2_kept_refl l : Forall2 kept l l.
Proof. induction l; constructor; auto using kept_refl. Qed.

Lemma Forall2_kept_trans l1 : forall l2 l3,
  Forall2 kept l1 l2 -> Forall2 kept l2 l3 -> Forall2 kept l1 l3.
Proof.
  induction l1 as [|a l1 IH]; intros l2 l3 H12 H23; inversion H12; subst;
    inversion H23; subst; constructor.
  - eapply kept_trans; eassumption.
  - eapply IH; eassumption.
Qed.

Lemma store_kept_refl s : store_kept s s.
Proof. apply Forall2_kept_refl. Qed.

Lemma store_kept_trans a b c : store_kept a b -> store_kept b c -> store_kept a c.
Proof. apply Forall2_kept_trans. Qed.

Lemma store_kept_same s s' : people s' = people s -> store_kept s s'.
Proof. unfold store_kept. intros ->. apply Forall2_kept_refl. Qed.

Lemma modify_kept f l :
  (forall a, kept a (f a)) -> forall i, Forall2 kept l (modify i f l).
Proof.
  intros Hf. induction l as [|a l IH]; intros [|i]; simpl; try constructor;
    auto using Forall2_kept_refl, kept_refl.
Qed.

Lemma kept_assign p f :
  (forall a, kept a (f a)) -> respects store_kept any_code (assign p f).
Proof.
  intros Hf s r s' H. split; [|exact (fun _ _ => I)].
  unfold assign, deref, bind, read, ret, undefined, update_state in H.
  destruct p as [i|].
  - destruct (nth_error (people s) i); inversion H; subst.
    + unfold store_kept. simpl. now apply modify_kept.
    + apply store_kept_refl.
  - inversion H; subst. apply store_kept_refl.
Qed.

Lemma kept_strcpy cap p f buf :
  (forall a, kept a (f buf a)) -> respects store_kept any_code (strcpy cap p f buf).
Proof.
  intros Hf. unfold strcpy. destruct (_ <? _)%nat.
  - intros s r s' H. inversion H; subst. split; [apply store_kept_refl | exact (fun _ _ => I)].
  - now apply kept_assign.
Qed.

Ltac kept_side :=
  first [ exact store_kept_refl | exact store_kept_trans | exact I
        | (intros; apply store_kept_same; reflexivity)
        | (intros; split; [reflexivity | now left])
        | (intros ?s; destruct (acc2 s); apply store_kept_same; reflexivity)
        | (intros; exact I) ].

Ltac kept_frame :=
  repeat first
    [ apply respects_resolve; kept_side
    | apply respects_lookup; kept_side
    | apply respects_yank_matching; kept_side
    | apply kept_assign; kept_side
    | apply kept_strcpy; kept_side
    | apply respects_deref; kept_side
    | apply respects_ret; kept_side
    | apply respects_read; kept_side
    | apply respects_undefined; kept_side
    | apply respects_yank; kept_side
    | apply respects_return; kept_side
    | apply respects_update; kept_side
    | apply respects_bind; [kept_side | | intros]
    | match goal with
      | |- respects _ _ (match ?x with _ => _ end) => destruct x
      | |- respects _ _ (if ?b then _ else _) => destruct b
      end ].

Lemma kept_case_CHANGE_AREA : respects store_kept any_code case_CHANGE_AREA.
Proof. unfold case_CHANGE_AREA. kept_frame. Qed.
Lemma kept_case_CHANGE_F : respects store_kept any_code case_CHANGE_F.
Proof. unfold case_CHANGE_F. kept_frame. Qed.
Lemma kept_case_CHANGE_PHONE : respects store_kept any_code case_CHANGE_PHONE.
Proof. unfold case_CHANGE_PHONE. kept_frame. Qed.
Lemma kept_case_CHANGE_L : respects store_kept any_code case_CHANGE_L.
Proof. unfold case_CHANGE_L. kept_frame. Qed.
Lemma kept_case_CHANGE_M : respects store_kept any_code case_CHANGE_M.
Proof. unfold case_CHANGE_M. kept_frame. Qed.
Lemma kept_case_CHANGE_SSN : respects store_kept any_code case_CHANGE_SSN.
Proof. unfold case_CHANGE_SSN. kept_frame. Qed.
Lemma kept_case_NEWPASS : respects store_kept any_code case_NEWPASS.
Proof. unfold case_NEWPASS. kept_frame. Qed.
Lemma kept_case_INFO : respects store_kept any_code case_INFO.
Proof. unfold case_INFO. kept_frame. Qed.
Lemma kept_case_REPORT w : respects store_kept any_code (case_REPORT w).
Proof. unfold case_REPORT. kept_frame. Qed.

Lemma zero_amount_kept_sub a :
  kept a (set_balance (sub (balance a) (of_int 0)) a).
Proof. rewrite sub_zero, set_balance_same. apply kept_refl. Qed.

Lemma zero_amount_kept_add a :
  kept a (set_balance (add (balance a) (of_int 0)) a).
Proof.
  split; [reflexivity|]. cbn [balance set_balance].
  destruct (balance a) as [[|]| | |]; try (left; reflexivity).
  right. exists true, false. split; reflexivity.
Qed.

Lemma kept_case_TRANS : respects store_kept any_code case_TRANS.
Proof.
  unfold case_TRANS.
  apply respects_bind; [exact store_kept_trans | apply respects_lookup; kept_side |].
  intros a. apply respects_bind; [exact store_kept_trans | apply respects_update; kept_side |].
  intros _. destruct a as [i|]; [|apply respects_return; kept_side].
  apply respects_bind; [exact store_kept_trans | apply respects_lookup; kept_side |].
  intros b. apply respects_bind; [exact store_kept_trans | apply respects_update; kept_side |].
  intros _. destruct b as [j|]; [|apply respects_return; kept_side].
  intros s r s' H.
  destruct (bind_inv _ _ _ _ _ H) as [(buf & s1 & E1 & K1) | [(c & E1 & ->) | (E1 & ->)]].
  - pose proof E1 as E1'. apply yank_matching_inv in E1'. destruct E1' as (Hm & _ & _).
    apply R_NAME_atoi in Hm. rewrite Hm in K1.
    assert (H1 : store_kept s s1).
    { eapply (respects_yank_matching store_kept any_code); try exact E1; kept_side. }
    assert (H2 : respects store_kept any_code
                   (from <- deref (Some i) ;;
                    if ltb (balance from) (of_int 0) then return_ ERR_TOO_MUCH_TRANSFER
                    else assign (Some i)
                           (fun x => set_balance (sub (balance x) (of_int 0)) x) ;;
                         assign (Some j)
                           (fun x => set_balance (add (balance x) (of_int 0)) x))).
    { apply respects_bind; [exact store_kept_trans | apply respects_deref; kept_side |].
      intros from. destruct (ltb _ _); [apply respects_return; kept_side|].
      apply respects_bind; [exact store_kept_trans | |intros _].
      - apply kept_assign. exact zero_amount_kept_sub.
      - apply kept_assign. exact zero_amount_kept_add. }
    destruct (H2 _ _ _ K1) as [H3 _]. split; [|exact (fun _ _ => I)].
    eapply store_kept_trans; eassumption.
  - split; [|exact (fun _ _ => I)].
    eapply (respects_yank_matching store_kept any_code); try exact E1; kept_side.
  - split; [|exact (fun _ _ => I)].
    eapply (respects_yank_matching store_kept any_code); try exact E1; kept_side.
Qed.

Lemma kept_entered c (m : M unit) :
  respects store_kept any_code m ->
  respects store_kept any_code (update_state (enter c) ;; m).
Proof.
  intros Hm. apply respects_bind; [exact store_kept_trans | | intros _; exact Hm].
  apply respects_update; kept_side.
Qed.

Lemma kept_first_body c : respects store_kept any_code (first_body c).
Proof.
  unfold first_body.
  apply respects_bind; [exact store_kept_trans | | intros _; apply respects_update; kept_side].
  unfold first_switch.
  repeat match goal with
  | |- respects _ _ (if ?b then _ else _) => destruct b; [apply kept_entered|]
  end.
  - apply kept_case_CHANGE_AREA.
  - apply kept_case_CHANGE_F.
  - apply kept_case_CHANGE_PHONE.
  - apply kept_case_CHANGE_L.
  - apply kept_case_CHANGE_M.
  - apply kept_case_CHANGE_SSN.
  - apply kept_case_TRANS.
  - apply kept_case_NEWPASS.
  - apply respects_ret; kept_side.
Qed.

Lemma kept_second_body w c : respects store_kept any_code (second_body w c).
Proof.
  unfold second_body.
  repeat match goal with
  | |- respects _ _ (if ?b then _ else _) => destruct b; [apply kept_entered|]
  end.
  - apply kept_case_INFO.
  - apply kept_case_REPORT.
  - apply respects_ret; kept_side.
Qed.

Lemma kept_for_each body ks :
  (forall c, respects store_kept any_code (body c)) ->
  respects store_kept any_code (for_each body ks).
Proof.
  intros Hb. induction ks as [|c ks IH]; simpl.
  - apply respects_ret; kept_side.
  - apply respects_bind; [exact store_kept_trans | apply Hb | intros _; exact IH].
Qed.

Lemma kept_actions w : respects store_kept any_code (actions w).
Proof.
  unfold actions, over_args.
  apply respects_bind; [exact store_kept_trans | | intros _].
  - intros s r s' H. eapply kept_for_each; [|exact H]. apply kept_first_body.
  - apply respects_bind; [exact store_kept_trans | | intros _; apply respects_return; kept_side].
    intros s r s' H. eapply kept_for_each; [|exact H]. apply kept_second_body.
Qed.

Lemma strcmp_lt_asym a : forall b, strcmp_lt a b = true -> strcmp_lt b a = false.
Proof.
  induction a as [|x a IH]; intros [|y b]; simpl; try reflexivity; try discriminate.
  destruct (Nat.ltb_spec (code x) (code y)), (Nat.ltb_spec (code y) (code x));
    try reflexivity; try lia; try discriminate. apply IH.
Qed.

Lemma sort_insert_in_order a l : in_order l -> in_order (sort_insert a l).
Proof.
  unfold in_order. induction 1 as [|b l S IH Hd]; simpl.
  - repeat constructor.
  - destruct (number_lt b a) eqn:E.
    + constructor; [exact IH|].
      destruct l as [|c l]; simpl.
      * constructor. now apply strcmp_lt_asym.
      * inversion Hd; subst. destruct (number_lt c a); constructor;
          [assumption | now apply strcmp_lt_asym].
    + constructor; [now constructor | now constructor].
Qed.

Lemma sort_in_order l : in_order (sort l).
Proof.
  induction l as [|a l IH]; simpl; [constructor|]. now apply sort_insert_in_order.
Qed.

Lemma kept_in_order l : forall l', Forall2 kept l l' -> in_order l -> in_order l'.
Proof.
  unfold in_order. induction l as [|a l IH]; intros l' H S; inversion H; subst.
  - constructor.
  - inversion S; subst. constructor; [now apply IH|].
    match goal with F : Forall2 kept l ?t |- _ => destruct F as [|b b' m m' Kb] end.
    + constructor.
    + match goal with Hd : HdRel _ a (b :: m) |- _ => inversion Hd; subst end.
      constructor. unfold number_lt in *.
      match goal with K : kept a _ |- _ => destruct K as [-> _] end.
      destruct Kb as [-> _]. assumption.
Qed.

Lemma sort_sorts : sorts sort.
Proof.
  intros l. split; [apply Permutation_sym, sort_perm | apply sort_in_order].
Qed.

(** X18.  Once the data file has loaded, whatever the command line, a run
    that returns (with whatever code) leaves in the store the accounts the
    sorting left there, each in its place with its account number unchanged
    and its balance the same amount (up to the sign of a zero): no action
    adds, removes or moves an account, changes a number or moves money, and
    the store is still in number order when it is written back.  Runs
    without defined behaviour are not spoken for. *)
Theorem run_keeps_numbers_and_amounts
    (w : world) (acc_0 acc2_0 : ptr) (argv : list string) (loaded : list Account)
    (code : Z) :
  supplied O_DATA argv <> [] ->
  loadDatabase (file_content w) [] (List.last (supplied O_DATA argv) EmptyString)
  = Loaded loaded ->
  sorts (std_sort w) ->
  fst (main w acc_0 acc2_0 argv) = Return code ->
  Forall2 kept (std_sort w loaded) (people (snd (main w acc_0 acc2_0 argv))) /\
  in_order (people (snd (main w acc_0 acc2_0 argv))).
Proof.
  intros Hs Hl Hsort _.
  assert (H : Forall2 kept (std_sort w loaded) (people (snd (main w acc_0 acc2_0 argv)))).
  { unfold main, parseArgs.
    rewrite StartupFacts.start_state, find_sortArgs. simpl find.
    destruct (supplied O_DATA argv) as [|v q] eqn:S; [contradiction|].
    rewrite StartupFacts.back_last by discriminate. rewrite Hl.
    unfold shutdown, written_back.
    destruct (actions w _) as [r s2] eqn:E.
    destruct (kept_actions w _ _ _ E) as [H _]. unfold store_kept in H. simpl in H.
    destruct r; try exact H; destruct (write_opens w _); exact H. }
  split; [exact H|].
  eapply kept_in_order; [exact H | apply Hsort].
Qed.

Lemma run_keeps_numbers_and_amounts_witness :
  fst (main two_accounts_world None None busy_argv) = Return 0 /\
  map area (people (snd (main two_accounts_world None None busy_argv))) = [555; 321] /\
  Forall2 kept two_accounts (people (snd (main two_accounts_world None None busy_argv))) /\
  in_order (people (snd (main two_accounts_world None None busy_argv))).
Proof.
  split; [vm_compute; reflexivity|]. split; [vm_compute; reflexivity|].
  apply (run_keeps_numbers_and_amounts two_accounts_world None None busy_argv two_accounts 0).
  - discriminate.
  - vm_compute. reflexivity.
  - exact sort_sorts.
  - vm_compute. reflexivity.
Defined.

End RunFacts.

(** ** The sorted store *)

Module SortFacts.
Import ArgsFacts EngineFacts OrderFacts ClaimFacts LoaderFacts.
Import CollectorFacts StartupFacts RunFacts.

Lemma strcmp_lt_irrefl a : strcmp_lt a a = false.
Proof.
  induction a as [|x a IH]; simpl; [reflexivity|]. now rewrite Nat.ltb_irrefl.
Qed.

Lemma strcmp_lt_trans a : forall b c,
  strcmp_lt a b = true -> strcmp_lt b c = true -> strcmp_lt a c = true.
Proof.
  induction a as [|x a IH]; intros [|y b] [|z c]; simpl; try discriminate; try reflexivity.
  destruct (Nat.ltb_spec (code x) (code y)), (Nat.ltb_spec (code y) (code x)),
           (Nat.ltb_spec (code y) (code z)), (Nat.ltb_spec (code z) (code y)),
           (Nat.ltb_spec (code x) (code z)), (Nat.ltb_spec (code z) (code x));
    try reflexivity; try discriminate; try lia.
  apply IH.
Qed.

Lemma strcmp_lt_total a : forall b,
  strcmp_lt a b = false -> strcmp_lt b a = false -> a = b.
Proof.
  induction a as [|x a IH]; intros [|y b]; simpl; try discriminate; try reflexivity.
  destruct (Nat.ltb_spec (code x) (code y)), (Nat.ltb_spec (code y) (code x));
    try discriminate; try lia.
  intros H1 H2. assert (x = y) by (apply code_inj; lia). subst y.
  f_equal. now apply IH.
Qed.

Lemma not_after_trans a b c :
  number_lt b a = false -> number_lt c b = false -> number_lt c a = false.
Proof.
  unfold number_lt. intros H1 H2.
  destruct (strcmp_lt (number c) (number a)) eqn:E; [|reflexivity]. exfalso.
  destruct (strcmp_lt (number b) (number c)) eqn:F.
  - rewrite (strcmp_lt_trans _ _ _ F E) in H1. discriminate.
  - rewrite (strcmp_lt_total _ _ F H2) in H1. congruence.
Qed.

Lemma in_order_head a l :
  in_order (a :: l) -> Forall (fun b => number_lt b a = false) l.
Proof.
  unfold in_order. intros S. apply Sorted_StronglySorted in S.
  - now inversion S.
  - intros x y z. apply not_after_trans.
Qed.

Lemma same_number_same_account (l : list Account) a b :
  NoDup (map number l) -> In a l -> In b l -> number a = number b -> a = b.
Proof.
  induction l as [|x l IH]; [contradiction|]. simpl. intros N Ha Hb E.
  inversion N as [|? ? Hx N']; subst.
  destruct Ha as [->|Ha], Hb as [->|Hb]; auto.
  - exfalso. apply Hx. rewrite E. now apply in_map.
  - exfalso. apply Hx. rewrite <- E. now apply in_map.
Qed.

(** Two stores in order that hold the same accounts, no number twice, are
    the same list. *)
Lemma in_order_unique l1 : forall l2,
  NoDup (map number l1) -> Permutation l1 l2 -> in_order l1 -> in_order l2 -> l1 = l2.
Proof.
  induction l1 as [|a l1 IH]; intros l2 N P S1 S2.
  - apply Permutation_nil in P. now subst.
  - destruct l2 as [|b l2]; [apply Permutation_sym, Permutation_nil in P; discriminate|].
    assert (a = b) as <-.
    { pose proof (in_order_head _ _ S1) as F1. pose proof (in_order_head _ _ S2) as F2.
      rewrite Forall_forall in F1, F2.
      assert (Hb : In b (a :: l1))
        by (eapply Permutation_in; [apply Permutation_sym; exact P | now left]).
      assert (Ha : In a (b :: l2)) by (eapply Permutation_in; [exact P | now left]).
      destruct Hb as [E|Hb]; [exact E|]. destruct Ha as [E|Ha]; [now symmetry|].
      apply (same_number_same_account (a :: l1)); [assumption | now left | now right|].
      apply strcmp_lt_total; [apply (F2 _ Ha) | apply (F1 _ Hb)]. }
    f_equal. apply IH.
    + simpl in N. now inversion N.
    + now apply Permutation_cons_inv in P.
    + unfold in_order in *. now inversion S1.
    + unfold in_order in *. now inversion S2.
Qed.

(** X21.  With no account number twice in the file, the store after the
    [sort] call is determined by the accounts loaded: whatever sorted
    permutation the library returns, it is the list the insertion sort of
    the example runs gives. *)
Theorem sort_determined (f : list Account -> list Account) (l : list Account) :
  sorts f -> NoDup (map number l) -> f l = sort l.
Proof.
  intros Hf N. destruct (Hf l) as [P S].
  apply in_order_unique.
  - apply (Permutation_map number) in P. eapply Permutation_NoDup; eassumption.
  - eapply Permutation_trans; [apply Permutation_sym; exact P|].
    apply Permutation_sym, sort_perm.
  - exact S.
  - apply sort_in_order.
Qed.

Lemma sort_determined_witness :
  sort (rev [rick; jane]) = sort [rick; jane].
Proof.
  apply (sort_determined (fun l => sort (rev l)) [rick; jane]).
  - intros l. split; [|apply sort_in_order].
    eapply Permutation_trans; [apply Permutation_rev|].
    apply Permutation_sym, sort_perm.
  - repeat constructor; simpl; intuition discriminate.
Defined.

End SortFacts.

(** ** Turns that return *)

Module AbortFacts.
Import ArgsFacts EngineFacts OrderFacts ClaimFacts LoaderFacts.

Lemma untouched_bind {A B} (m : M A) (k : A -> M B) :
  untouched m -> (forall a, untouched (k a)) -> untouched (bind m k).
Proof.
  intros Hm Hk s r s' H.
  destruct (bind_inv _ _ _ _ _ H) as [(a & s1 & E1 & E2) | [(code & E1 & _) | (E1 & _)]].
  - rewrite (Hk a _ _ _ E2). exact (Hm _ _ _ E1).
  - exact (Hm _ _ _ E1).
  - exact (Hm _ _ _ E1).
Qed.

Lemma untouched_ret {A} (a : A) : untouched (ret a).
Proof. intros s r s' H. now inversion H. Qed.

Lemma untouched_read {A} (f : state -> A) : untouched (read f).
Proof. intros s r s' H. now inversion H. Qed.

Lemma untouched_undefined {A} : untouched (@undefined A).
Proof. intros s r s' H. now inversion H. Qed.

Lemma untouched_return {A} code : untouched (@return_ A code).
Proof. intros s r s' H. now inversion H. Qed.

Lemma untouched_update f :
  (forall s, people (f s) = people s) -> untouched (update_state f).
Proof. intros Hf s r s' H. inversion H; subst. apply Hf. Qed.

Lemma untouched_yank c : untouched (yank c).
Proof.
  intros s r s' H. unfold yank in H. destruct (yankArg (args s) c) as [v m].
  now inversion H.
Qed.

Ltac quiet_store :=
  repeat first
    [ apply untouched_ret | apply untouched_read | apply untouched_undefined
    | apply untouched_yank | apply untouched_return
    | apply untouched_update; intros; reflexivity
    | apply untouched_bind; [|intros]
    | match goal with
      | |- untouched (match ?x with _ => _ end) => destruct x
      | |- untouched (if ?b then _ else _) => destruct b
      end ].

Lemma untouched_lookup : untouched lookup.
Proof. unfold lookup. quiet_store. Qed.

Lemma untouched_resolve : untouched resolve.
Proof. unfold resolve. apply untouched_bind; [apply untouched_lookup | intros]. quiet_store. Qed.

Lemma untouched_deref p : untouched (deref p).
Proof. unfold deref. quiet_store. Qed.

Lemma untouched_yank_matching c r : untouched (yank_matching c r).
Proof. unfold yank_matching. quiet_store. Qed.

Lemma no_return_bind {A B} (m : M A) (k : A -> M B) :
  no_return m -> (forall a, no_return (k a)) -> no_return (bind m k).
Proof.
  intros Hm Hk s code s' H.
  destruct (bind_inv _ _ _ _ _ H) as [(a & s1 & E1 & E2) | [(c & E1 & _) | (_ & E)]].
  - exact (Hk a _ _ _ E2).
  - exact (Hm _ _ _ E1).
  - discriminate E.
Qed.

Lemma no_return_deref p : no_return (deref p).
Proof.
  intros s code s'. unfold deref, bind, read, undefined, ret.
  destruct p as [i|]; [|discriminate]. destruct (nth_error (people s) i); discriminate.
Qed.

Lemma no_return_assign p f : no_return (assign p f).
Proof.
  unfold assign. apply no_return_bind; [apply no_return_deref|].
  intros _ s code s'. destruct p; discriminate.
Qed.

Lemma no_return_strcpy cap p f buf : no_return (strcpy cap p f buf).
Proof.
  unfold strcpy. destruct (_ <? _)%nat; [|apply no_return_assign].
  intros s code s'. discriminate.
Qed.

Lemma clean_bind {A B} (m : M A) (k : A -> M B) :
  untouched m -> (forall a, returns_clean (k a)) -> returns_clean (bind m k).
Proof.
  intros Hm Hk s code s' H.
  destruct (bind_inv _ _ _ _ _ H) as [(a & s1 & E1 & E2) | [(c & E1 & _) | (_ & E)]].
  - rewrite (Hk a _ _ _ E2). exact (Hm _ _ _ E1).
  - exact (Hm _ _ _ E1).
  - discriminate E.
Qed.

Lemma clean_untouched {A} (m : M A) : untouched m -> returns_clean m.
Proof. intros H s code s' E. exact (H _ _ _ E). Qed.

Lemma clean_no_return {A} (m : M A) : no_return m -> returns_clean m.
Proof. intros H s code s' E. now apply H in E. Qed.

Ltac clean_case :=
  repeat first
    [ apply clean_no_return; first [ apply no_return_assign | apply no_return_strcpy ]
    | apply clean_bind;
      [ first [ apply untouched_resolve | apply untouched_lookup
              | apply untouched_yank_matching | apply untouched_yank
              | apply untouched_deref | apply untouched_read
              | apply untouched_update; intros; reflexivity ]
      | intros ]
    | match goal with
      | |- returns_clean (match ?x with _ => _ end) => destruct x
      | |- returns_clean (if ?b then _ else _) => destruct b
      end
    | solve [apply clean_untouched; quiet_store] ].

Lemma clean_CHANGE_AREA : returns_clean case_CHANGE_AREA.
Proof. unfold case_CHANGE_AREA. clean_case. Qed.
Lemma clean_CHANGE_F : returns_clean case_CHANGE_F.
Proof. unfold case_CHANGE_F. clean_case. Qed.
Lemma clean_CHANGE_PHONE : returns_clean case_CHANGE_PHONE.
Proof. unfold case_CHANGE_PHONE. clean_case. Qed.
Lemma clean_CHANGE_L : returns_clean case_CHANGE_L.
Proof. unfold case_CHANGE_L. clean_case. Qed.
Lemma clean_CHANGE_M : returns_clean case_CHANGE_M.
Proof. unfold case_CHANGE_M. clean_case. Qed.
Lemma clean_CHANGE_SSN : returns_clean case_CHANGE_SSN.
Proof. unfold case_CHANGE_SSN. clean_case. Qed.
Lemma clean_NEWPASS : returns_clean case_NEWPASS.
Proof. unfold case_NEWPASS. clean_case. Qed.
Lemma clean_TRANS : returns_clean case_TRANS.
Proof.
  unfold case_TRANS. clean_case.
  apply clean_no_return. apply no_return_bind; intros; apply no_return_assign.
Qed.
Lemma clean_INFO : returns_clean case_INFO.
Proof.
  unfold case_INFO. apply clean_untouched. quiet_store.
  apply untouched_update. intros s0. now destruct (acc2 s0).
Qed.
Lemma clean_REPORT w : returns_clean (case_REPORT w).
Proof. unfold case_REPORT. apply clean_untouched. quiet_store. Qed.

Lemma clean_entered c (m : M unit) :
  returns_clean m -> returns_clean (update_state (enter c) ;; m).
Proof.
  intros H. apply clean_bind; [|intros; exact H].
  apply untouched_update. reflexivity.
Qed.

Lemma clean_first_body c : returns_clean (first_body c).
Proof.
  unfold first_body. intros s code s' H.
  destruct (bind_inv _ _ _ _ _ H) as [(a & s1 & _ & E2) | [(k & E1 & _) | (_ & E)]];
    [discriminate E2 | | discriminate E].
  revert E1. unfold first_switch.
  repeat match goal with
         | |- context [is_code c ?k] => destruct (is_code c k)
         end;
    try (apply clean_entered;
         first [ apply clean_CHANGE_AREA | apply clean_CHANGE_F | apply clean_CHANGE_PHONE
               | apply clean_CHANGE_L | apply clean_CHANGE_M | apply clean_CHANGE_SSN
               | apply clean_TRANS | apply clean_NEWPASS ]).
  discriminate.
Qed.

Lemma clean_second_body w c : returns_clean (second_body w c).
Proof.
  unfold second_body.
  destruct (is_code c O_INFO); [apply clean_entered, clean_INFO|].
  destruct (is_code c O_REPORT); [apply clean_entered, clean_REPORT|].
  apply clean_untouched, untouched_ret.
Qed.

(** X22.  A turn of either loop that executes a [return] has left the store
    as it found it: every case tests its account and its value before it
    assigns, and the transfer tests the balance before it changes either
    account.  What the data file receives after an abort is therefore the
    store as the last completed turn left it. *)
Theorem returning_turn_changes_nothing
    (w : world) (c : ascii) (s s' : state) (code : Z) :
  first_body c s = (Return code, s') \/ second_body w c s = (Return code, s') ->
  people s' = people s.
Proof.
  intros [H|H]; [exact (clean_first_body c _ _ _ H) | exact (clean_second_body w c _ _ _ H)].
Qed.

Lemma returning_turn_changes_nothing_witness :
  people (snd (first_body O_CHANGE_F first_name_state)) = two_accounts.
Proof.
  apply (returning_turn_changes_nothing two_accounts_world O_CHANGE_F first_name_state
           (snd (first_body O_CHANGE_F first_name_state)) ERR_NO_INFO).
  left. vm_compute. reflexivity.
Defined.

End AbortFacts.

(** ** The report *)

Module ReportFacts.
Import ArgsFacts EngineFacts OrderFacts ClaimFacts LoaderFacts.

Lemma length_repeat_char c n : String.length (repeat_char c n) = n.
Proof. induction n; simpl; congruence. Qed.

Lemma length_setw14 s : String.length (setw14 s) = Nat.max 14 (String.length s).
Proof. unfold setw14. rewrite length_append, length_repeat_char. lia. Qed.

(** X19.  The columns of a report row: the part before the social security
    number is as wide as the account number, the two names each padded to
    fourteen columns and twelve further characters.  [setw] pads but never
    cuts, so a name longer than fourteen characters shifts the rest of its
    row to the right. *)
Theorem report_row_columns (person : Account) :
  String.length (report_row_start person)
  = (String.length (number person) + Nat.max 14 (String.length (last person))
     + Nat.max 14 (String.length (first person)) + 12)%nat.
Proof.
  unfold report_row_start.
  repeat (rewrite length_append || rewrite length_setw14).
  cbn [String.length]. lia.
Qed.

Example report_of_two_accounts :
  report_text two_accounts =
  report_header +++
  " A0001   Doe             Jane            J.  123456789  (555)5551234  100.00" +++ endl +++
  " A0002   Roe             Rick            R.  987654321  (555)5554321  10.00" +++ endl.
Proof. vm_compute. reflexivity. Qed.

End ReportFacts.

(** ** The order of the actions *)

Module ScheduleFacts.
Import ArgsFacts EngineFacts OrderFacts ClaimFacts LoaderFacts.
Import CollectorFacts StartupFacts.

Lemma bind_cong {A B} (m m' : M A) (k k' : A -> M B) s s' :
  m s = m' s' ->
  (forall a s1, m' s' = (Next a, s1) -> k a s1 = k' a s1) ->
  bind m k s = bind m' k' s'.
Proof.
  intros Hm Hk. unfold bind. rewrite Hm.
  destruct (m' s') as [[a|code|] s1]; try reflexivity. now apply Hk.
Qed.

Lemma first_body_turn w c s :
  among mutation_order c = true -> first_body c s = mutation_turn w c s.
Proof.
  unfold among, mutation_order, first_body, first_switch, mutation_turn, action_of, is_code.
  cbn [existsb].
  destruct (Ascii.eqb c O_CHANGE_AREA); [reflexivity|].
  destruct (Ascii.eqb c O_CHANGE_F); [reflexivity|].
  destruct (Ascii.eqb c O_CHANGE_PHONE); [reflexivity|].
  destruct (Ascii.eqb c O_CHANGE_L); [reflexivity|].
  destruct (Ascii.eqb c O_CHANGE_M); [reflexivity|].
  destruct (Ascii.eqb c O_CHANGE_SSN); [reflexivity|].
  destruct (Ascii.eqb c O_TRANS); [reflexivity|].
  destruct (Ascii.eqb c O_NEWPASS); [reflexivity|].
  discriminate.
Qed.

Lemma first_body_idle c s :
  among mutation_order c = false -> first_body c s = (Next tt, set_acc2 (acc s) s).
Proof.
  unfold among, mutation_order, first_body, first_switch, is_code.
  cbn [existsb].
  destruct (Ascii.eqb c O_CHANGE_AREA); [discriminate|].
  destruct (Ascii.eqb c O_CHANGE_F); [discriminate|].
  destruct (Ascii.eqb c O_CHANGE_PHONE); [discriminate|].
  destruct (Ascii.eqb c O_CHANGE_L); [discriminate|].
  destruct (Ascii.eqb c O_CHANGE_M); [discriminate|].
  destruct (Ascii.eqb c O_CHANGE_SSN); [discriminate|].
  destruct (Ascii.eqb c O_TRANS); [discriminate|].
  destruct (Ascii.eqb c O_NEWPASS); [discriminate|].
  reflexivity.
Qed.

Lemma turn_settles w c s a s' :
  mutation_turn w c s = (Next a, s') -> acc2 s' = acc s'.
Proof.
  unfold mutation_turn. intros H.
  destruct (bind_inv _ _ _ _ _ H) as [(x & s1 & _ & E2) | [(code & _ & E) | (_ & E)]];
    try discriminate E.
  destruct (bind_inv _ _ _ _ _ E2) as [(y & s2 & _ & E3) | [(code & _ & E) | (_ & E)]];
    try discriminate E.
  unfold update_state in E3. inversion E3. reflexivity.
Qed.

Lemma settled_idle s : acc2 s = acc s -> set_acc2 (acc s) s = s.
Proof. destruct s; simpl; intros ->; reflexivity. Qed.

Lemma first_loop_settled w ks : forall s,
  acc2 s = acc s ->
  for_each first_body ks s
  = for_each (mutation_turn w) (filter (among mutation_order) ks) s.
Proof.
  induction ks as [|c ks IH]; intros s Hs; [reflexivity|].
  cbn [for_each filter]. destruct (among mutation_order c) eqn:A.
  - cbn [for_each]. apply bind_cong; [now apply first_body_turn|].
    intros a s1 E. apply IH. exact (turn_settles _ _ _ _ _ E).
  - unfold bind at 1. rewrite (first_body_idle c s A), settled_idle by assumption.
    now apply IH.
Qed.

Lemma first_loop w s :
  for_each first_body (keys (args s)) s
  = for_each (mutation_turn w) (filter (among mutation_order) (keys (args s))) (lead s).
Proof.
  unfold lead. destruct (keys (args s)) as [|c ks]; [reflexivity|].
  cbn [for_each filter]. destruct (among mutation_order c) eqn:A.
  - cbn [for_each]. apply bind_cong; [now apply first_body_turn|].
    intros a s1 E. apply first_loop_settled. exact (turn_settles _ _ _ _ _ E).
  - unfold bind at 1. rewrite (first_body_idle c s A).
    apply first_loop_settled. reflexivity.
Qed.

Lemma second_loop w ks : forall s,
  for_each (second_body w) ks s
  = for_each (second_turn w) (filter (among second_order) ks) s.
Proof.
  induction ks as [|c ks IH]; intros s; [reflexivity|].
  cbn [for_each filter]. unfold among, second_order. cbn [existsb].
  unfold second_body at 1, is_code.
  destruct (Ascii.eqb_spec c O_INFO) as [->|Hi].
  - cbn [orb for_each]. apply bind_cong; [reflexivity | intros; apply IH].
  - destruct (Ascii.eqb_spec c O_REPORT) as [->|Hr].
    + cbn [orb for_each]. apply bind_cong; [reflexivity | intros; apply IH].
    + cbn [orb]. unfold bind at 1, ret. apply IH.
Qed.

(** The two loops are the actions of the schedule, in its order. *)
Lemma actions_in_priority_order w s argv :
  args s = sortArgs [] argv -> actions w s = in_priority_order w argv (lead s).
Proof.
  intros Ha. unfold actions, in_priority_order.
  assert (E : over_args first_body s
              = for_each (mutation_turn w) (filter (present argv) mutation_order) (lead s)).
  { unfold over_args. rewrite (first_loop w s), Ha.
    now rewrite keys_select by apply sorted_mutation_order. }
  apply bind_cong; [exact E|]. intros a s1 E1.
  assert (K : keys (args s1) = keys (sortArgs [] argv)).
  { rewrite <- E in E1. unfold over_args in E1.
    apply (for_each_visits _ _ first_body_visits) in E1.
    destruct E1 as (seen & _ & _ & _ & K & _). now rewrite K, Ha. }
  apply bind_cong; [|reflexivity].
  unfold over_args. rewrite K, second_loop.
  now rewrite keys_select by apply sorted_second_order.
Qed.

Lemma find_head_tail (k : ascii) (v : list string) m c :
  StronglySorted code_lt (keys ((k, v) :: m)) ->
  find m c = if Ascii.eqb k c then None else find ((k, v) :: m) c.
Proof.
  intros S. simpl. destruct (Ascii.eqb_spec k c) as [->|]; [|reflexivity].
  destruct (find m c) eqn:F; [|reflexivity]. exfalso.
  assert (Hin : In c (keys m)) by (apply in_keys_find; congruence).
  unfold keys in S. simpl in S. inversion S as [|? ? _ Fa]; subst.
  rewrite Forall_forall in Fa. specialize (Fa _ Hin). unfold code_lt in Fa. lia.
Qed.

(** A map is determined by what [find] returns for each key. *)
Lemma argmap_ext m1 : forall m2,
  StronglySorted code_lt (keys m1) -> StronglySorted code_lt (keys m2) ->
  (forall c, find m1 c = find m2 c) -> m1 = m2.
Proof.
  induction m1 as [|[a va] m1 IH]; intros [|[b vb] m2] S1 S2 H.
  - reflexivity.
  - specialize (H b). simpl in H. rewrite Ascii.eqb_refl in H. discriminate.
  - specialize (H a). simpl in H. rewrite Ascii.eqb_refl in H. discriminate.
  - assert (a = b) as ->.
    { pose proof (H a) as Ha. pose proof (H b) as Hb. simpl in Ha, Hb.
      rewrite Ascii.eqb_refl in Ha, Hb.
      destruct (Ascii.eqb_spec b a) as [|Hne]; [congruence|].
      destruct (Ascii.eqb_spec a b) as [|_]; [congruence|]. exfalso.
      assert (In a (keys m2)) by (apply in_keys_find; congruence).
      assert (In b (keys m1)) by (apply in_keys_find; congruence).
      unfold keys in S1, S2. simpl in S1, S2.
      inversion S1 as [|? ? _ F1]; inversion S2 as [|? ? _ F2]; subst.
      rewrite Forall_forall in F1, F2.
      pose proof (F1 b ltac:(assumption)). pose proof (F2 a ltac:(assumption)).
      unfold code_lt in *. lia. }
    pose proof (H b) as Hb. simpl in Hb. rewrite Ascii.eqb_refl in Hb.
    inversion Hb; subst vb. f_equal. apply IH.
    + unfold keys in *. simpl in S1. now inversion S1.
    + unfold keys in *. simpl in S2. now inversion S2.
    + intros c. rewrite (find_head_tail b va m1 c S1), (find_head_tail b va m2 c S2).
      now rewrite H.
Qed.

(** The map depends on the command line only through the values supplied
    for each code, in their order. *)
Lemma sortArgs_supplied argv argv' :
  (forall c, supplied c argv' = supplied c argv) -> sortArgs [] argv' = sortArgs [] argv.
Proof.
  intros H. apply argmap_ext; try (apply sorted_sortArgs; constructor).
  intros c. rewrite !find_sortArgs. simpl. now rewrite H.
Qed.

(** C7.  Once the data file has loaded, the run is the sequence of the
    supplied actions in the fixed order change-area, change-first-name,
    change-phone, change-last-name, change-middle-initial, change-ssn,
    transfer, change-password, each followed by remembering its account,
    and after them info and report, whatever the order of the switches on
    the command line: the result, the store, the output and the write-back
    of [main] are those of that sequence.  Two command lines that supply
    the same values for every code, in the same order per code, give the
    same run. *)
Theorem fixed_evaluation_order
    (w : world) (acc_0 acc2_0 : ptr) (argv : list string) (loaded : list Account) :
  supplied O_DATA argv <> [] ->
  loadDatabase (file_content w) [] (List.last (supplied O_DATA argv) EmptyString)
  = Loaded loaded ->
  main w acc_0 acc2_0 argv
  = shutdown w (List.last (supplied O_DATA argv) EmptyString)
      (in_priority_order w argv (lead (loaded_state w acc_0 acc2_0 argv loaded))) /\
  forall argv', (forall c, supplied c argv' = supplied c argv) ->
                main w acc_0 acc2_0 argv' = main w acc_0 acc2_0 argv.
Proof.
  intros Hs Hl. split.
  - unfold main, parseArgs. rewrite start_state, find_sortArgs. simpl find.
    destruct (supplied O_DATA argv) as [|v q] eqn:S; [contradiction|].
    rewrite back_last by discriminate. rewrite Hl. f_equal.
    now apply actions_in_priority_order.
  - intros argv' H. unfold main. now rewrite (sortArgs_supplied argv argv' H).
Qed.

Lemma fixed_evaluation_order_witness :
  fst (main two_accounts_world None None priority_argv) = Return 0 /\
  map (fun a => (number a, area a, phone a))
      (people (snd (main two_accounts_world None None priority_argv)))
  = [("A0001", 777, 5551234); ("A0002", 555, 1112222)] /\
  main two_accounts_world None None priority_argv_reordered
  = main two_accounts_world None None priority_argv.
Proof.
  destruct (fixed_evaluation_order two_accounts_world None None priority_argv two_accounts)
    as [E P].
  - discriminate.
  - vm_compute. reflexivity.
  - rewrite E. split; [vm_compute; reflexivity|]. split; [vm_compute; reflexivity|].
    apply P. intros c.
    destruct c as [[|] [|] [|] [|] [|] [|] [|] [|]]; reflexivity.
Defined.

End ScheduleFacts.

(** ** The write-back *)

Module PersistFacts.
Import ArgsFacts EngineFacts OrderFacts ClaimFacts LoaderFacts.
Import CollectorFacts StartupFacts.





(** C6.  Loading and writing back with no action does not keep the
    records: the destructor writes the balance with the default format of
    the stream, six significant digits.  The file [cents_text] comes back as
    [cents_written], with [12345.7] for [12345.67] and [1.23457e+06] for
    [1234567.89]; the records are no longer the same, whatever is made of
    leading zeros, and loading the file written gives accounts whose
    balances are larger than they were. *)
Theorem write_back_rounds_balance (acc_0 acc2_0 : ptr) :
  main cents_world acc_0 acc2_0 ["bankacct"; "/Dbank.db"]
  = (Return 0,
     mkState [(O_DATA, ["bank.db"])] cents_accounts acc_0 acc_0
             [Written "bank.db" cents_written] []) /\
  ~ same_records cents_text cents_written /\
  loadDatabase (fun _ => Some cents_written) [] "bank.db" = Loaded cents_reloaded /\
  Forall2 (fun a b => ltb (balance a) (balance b) = true) cents_accounts cents_reloaded.
Proof.
  split; [vm_compute; reflexivity|]. split; [|split].
  - unfold same_records. intros H. vm_compute in H.
    apply Permutation_length in H as L.
    assert (In ["Doe"; "Jane"; "J"; "123456789"; "555"; "5551234"; "12345.67"; "A0001";
                "ABC123"]
               [["Doe"; "Jane"; "J"; "123456789"; "555"; "5551234"; "12345.7"; "A0001";
                 "ABC123"];
                ["Roe"; "Rick"; "R"; "987654321"; "555"; "5554321"; "1.23457e+06"; "A0002";
                 "XYZ789"]]) as I.
    { eapply Permutation_in; [exact H|]. left. reflexivity. }
    destruct I as [I|[I|[]]]; discriminate I.
  - vm_compute. reflexivity.
  - repeat constructor.
Qed.

End PersistFacts.
